(** * Job tracker API: analytics aggregation and interview bookkeeping

    A shallow embedding of [src/routes/analytics.js] (the six analytics
    handlers), of the [Job] model that file ends with (its virtuals, its
    pre-save hook and its methods), and of the jobs router (listing,
    reading, status update, deletion and [POST /:id/interviews]),
    followed by the properties of the specification proved about them
    and by further properties of the same code.

    Conventions of the embedding.
    - The record store is the list of [Job] documents of the collection,
      in insertion order.  A handler that only reads is a function from
      the store to the number of store queries it issued and its reply.
    - MongoDB pipeline stages are list functions: [$match] is a filter,
      [$group] buckets the documents by key (buckets in order of first
      appearance, members in document order), [$sort] is a merge sort,
      [$limit] a prefix, [$unwind] a flattening.  The store leaves the
      order of equal keys open; the embedding fixes one.
    - The handlers compute on exact rationals extended with NaN and the
      two infinities; the sign of zero is not represented.  The source
      computes on doubles: the module [Binary64] evaluates its rounding
      expression in IEEE 754 binary64 arithmetic, and what is proved of
      a rounded number (that it is finite, within bounds, a nearest
      hundredth) is stated so that it does not depend on which of the
      two nearest hundredths a tie is sent to, where the two
      evaluations can differ.
    - Dates are milliseconds since the epoch; calendar fields are read in
      UTC, for the store's operators and for the server's local time. *)

From Stdlib Require Import ZArith QArith Qround Qabs Lqa Lia Ascii String.
From Stdlib Require SpecFloat.
From stdpp Require Import base gmap strings list sorting.

Open Scope Z_scope.

(** ** JavaScript numbers *)

Inductive JSNum : Type :=
  | Fin (q : Q)
  | NaN
  | PInf
  | NInf.

Definition of_nat (n : nat) : JSNum := Fin (inject_Z (Z.of_nat n)).

(** [a * b], the exact product; for the product of doubles see
    [Binary64.mul]. *)
Definition js_mul (a b : JSNum) : JSNum :=
  match a, b with
  | NaN, _ | _, NaN => NaN
  | Fin x, Fin y => Fin (Qred (x * y))
  | Fin x, PInf | PInf, Fin x =>
      match (x ?= 0)%Q with Eq => NaN | Gt => PInf | Lt => NInf end
  | Fin x, NInf | NInf, Fin x =>
      match (x ?= 0)%Q with Eq => NaN | Gt => NInf | Lt => PInf end
  | PInf, PInf | NInf, NInf => PInf
  | PInf, NInf | NInf, PInf => NInf
  end.

(** [a / b], the exact quotient: a zero divisor gives NaN or an
    infinity, never an error.  For the quotient of doubles see
    [Binary64.div]. *)
Definition js_div (a b : JSNum) : JSNum :=
  match a, b with
  | NaN, _ | _, NaN => NaN
  | Fin x, Fin y =>
      match (y ?= 0)%Q with
      | Eq => match (x ?= 0)%Q with Eq => NaN | Gt => PInf | Lt => NInf end
      | _ => Fin (Qred (x / y))
      end
  | Fin _, PInf | Fin _, NInf => Fin 0
  | PInf, Fin y => if Qle_bool 0 y then PInf else NInf
  | NInf, Fin y => if Qle_bool 0 y then NInf else PInf
  | PInf, PInf | PInf, NInf | NInf, PInf | NInf, NInf => NaN
  end.

(** [Math.round]: the nearest integer, a tie going towards +infinity. *)
Definition Math_round (x : JSNum) : JSNum :=
  match x with
  | Fin q => Fin (inject_Z (Qfloor (q + (1 # 2))))
  | other => other
  end.

Definition is_finite (x : JSNum) : Prop :=
  match x with Fin _ => True | _ => False end.

(** ** The Job model *)

Inductive Status : Type := applied | interviewing | offered | rejected | withdrawn.
Inductive InterviewType : Type := phone | video | onsite | technical | behavioral.
Inductive Outcome : Type := passed | failed | pending.

#[global] Instance Status_eq_dec : EqDecision Status.
Proof. solve_decision. Defined.
#[global] Instance InterviewType_eq_dec : EqDecision InterviewType.
Proof. solve_decision. Defined.
#[global] Instance Outcome_eq_dec : EqDecision Outcome.
Proof. solve_decision. Defined.

(** The strings the schema's [enum] lists hold. *)
Definition status_name (s : Status) : string :=
  match s with
  | applied => "applied"
  | interviewing => "interviewing"
  | offered => "offered"
  | rejected => "rejected"
  | withdrawn => "withdrawn"
  end.

Definition type_name (t : InterviewType) : string :=
  match t with
  | phone => "phone"
  | video => "video"
  | onsite => "onsite"
  | technical => "technical"
  | behavioral => "behavioral"
  end.

Definition outcome_name (o : Outcome) : string :=
  match o with
  | passed => "passed"
  | failed => "failed"
  | pending => "pending"
  end.

Definition all_statuses : list Status :=
  [applied; interviewing; offered; rejected; withdrawn].

Definition ObjectId : Type := nat.

(** One element of [interviewDates]. *)
Record Interview : Type := {
  date : Z;
  type : InterviewType;
  notes : option string;
  outcome : Outcome
}.

(** A document of the [Job] collection, with the fields the embedded
    handlers read or write.  [location] and [followUpDate] are optional
    in the schema; [None] is a missing field. *)
Record Job : Type := {
  _id : ObjectId;
  user : ObjectId;
  title : string;
  company : string;
  location : option string;
  status : Status;
  applicationDate : Z;
  followUpDate : option Z;
  interviewDates : list Interview
}.

(** ** Reading the store *)

(** A computation that reads the store: the number of queries issued and
    the value computed. *)
Definition Query (A : Type) : Type := list Job → nat * A.

Definition resolve {A} (a : A) : Query A := λ _, (0%nat, a).

Definition query_bind {A B} (m : Query A) (k : A → Query B) : Query B :=
  λ db, let '(n, a) := m db in
        let '(n', b) := k a db in ((n + n')%nat, b).

(** [Job.aggregate(pipeline)]: one query. *)
Definition aggregate {A} (pipeline : list Job → A) : Query A :=
  λ db, (1%nat, pipeline db).

Notation "'await' x ← m ; k" := (query_bind m (λ x, k))
  (at level 10, x name, m at level 100, k at level 200).

(** ** Pipeline stages *)

Section Group.
Context {D K : Type} `{EqDecision K}.

(** Adds a document to the bucket of its key, opening a bucket at the
    end when the key is new. *)
Fixpoint bucket (k : K) (d : D) (gs : list (K * list D)) : list (K * list D) :=
  match gs with
  | [] => [(k, [d])]
  | (k', ds) :: rest =>
      if decide (k = k') then (k', ds ++ [d]) :: rest
      else (k', ds) :: bucket k d rest
  end.

(** [{ $group: { _id: key, ... } }] before the accumulators are run. *)
Definition group_by (key : D → K) (docs : list D) : list (K * list D) :=
  foldl (λ gs d, bucket (key d) d gs) [] docs.
End Group.

(** [{ $sum: 1 }] *)
Definition acc_count {D} (ds : list D) : nat := length ds.

(** [{ $push: f }] *)
Definition acc_push {D V} (f : D → V) (ds : list D) : list V := f <$> ds.

Definition Qsum (l : list Q) : Q := foldr Qplus 0%Q l.

(** [{ $avg: f }]: [None] is the store's [null], for no value at all. *)
Definition acc_avg {D} (f : D → Q) (ds : list D) : option Q :=
  match ds with
  | [] => None
  | _ => Some (Qsum (f <$> ds) / inject_Z (Z.of_nat (length ds)))%Q
  end.

(** [{ $sort: ... }] with the order [R] the sort document describes. *)
Definition sort_stage {A} (R : relation A) `{∀ x y, Decision (R x y)}
  (l : list A) : list A := merge_sort R l.

(** ** Strings: the pieces of [validator.js] and of the language used *)

Definition digit_of (c : ascii) : option Z :=
  let n := Z.of_N (N_of_ascii c) in
  if (48 <=? n) && (n <=? 57) then Some (n - 48) else None.

Fixpoint digits_value (s : string) (acc : Z) : option Z :=
  match s with
  | EmptyString => Some acc
  | String c rest =>
      match digit_of c with
      | Some d => digits_value rest (10 * acc + d)
      | None => None
      end
  end.

(** One digit or more, and nothing else. *)
Definition unsigned_literal (s : string) : option Z :=
  match s with
  | EmptyString => None
  | _ => digits_value s 0
  end.

(** The number a string matching [/^[-+]?[0-9]+$/] denotes; [None] when
    the string does not match. *)
Definition int_literal (s : string) : option Z :=
  match s with
  | String "+" rest => unsigned_literal rest
  | String "-" rest => Z.opp <$> unsigned_literal rest
  | _ => unsigned_literal s
  end.

(** [isInt(str, { min, max })] *)
Definition isInt (min max : Z) (str : string) : bool :=
  match int_literal str with
  | Some n => (min <=? n) && (n <=? max)
  | None => false
  end.

(** [isIn(str, values)] *)
Definition isIn (values : list string) (str : string) : bool :=
  bool_decide (str ∈ values).

Definition is_whitespace (c : ascii) : bool :=
  let n := N_of_ascii c in
  ((9 <=? n) && (n <=? 13))%N || (n =? 32)%N.

Fixpoint skip_whitespace (s : string) : string :=
  match s with
  | String c rest => if is_whitespace c then skip_whitespace rest else s
  | EmptyString => s
  end.

Fixpoint digits_prefix (s : string) (acc : option Z) : option Z :=
  match s with
  | String c rest =>
      match digit_of c with
      | Some d => digits_prefix rest (Some (10 * default 0 acc + d))
      | None => acc
      end
  | EmptyString => acc
  end.

(** [parseInt(v)] in radix 10: [None] is NaN, which an absent parameter
    ([undefined]) gives.  A [0x] prefix is not decoded; no string that
    [isInt] accepts has one.  The result is the integer the digits
    denote; the source gives the double nearest to it, which is that
    integer up to 2^53. *)
Definition parseInt (v : option string) : option Z :=
  match v with
  | None => None
  | Some s =>
      match skip_whitespace s with
      | String "+" rest => digits_prefix rest None
      | String "-" rest => Z.opp <$> digits_prefix rest None
      | s' => digits_prefix s' None
      end
  end.

(** [n || d] for a number [n]: NaN and 0 are falsy. *)
Definition or_default (n : option Z) (d : Z) : Z :=
  match n with
  | Some z => if z =? 0 then d else z
  | None => d
  end.

Definition digit_char (d : Z) : ascii := ascii_of_N (Z.to_N (48 + d)).

Fixpoint decimal_digits (fuel : nat) (n : Z) (acc : string) : string :=
  match fuel with
  | O => acc
  | S fuel' =>
      let acc' := String (digit_char (n mod 10)) acc in
      if n <? 10 then acc' else decimal_digits fuel' (n / 10) acc'
  end.

(** [n.toString()] and the [${n}] of a template, for an integer. *)
Definition Number_toString (n : Z) : string :=
  let digits := decimal_digits (S (Z.to_nat (Z.log2 (Z.abs n)))) (Z.abs n) "" in
  if n <? 0 then String "-" digits else digits.

Fixpoint repeat_char (n : nat) (c : ascii) : string :=
  match n with
  | O => EmptyString
  | S n' => String c (repeat_char n' c)
  end.

(** [s.padStart(targetLength, c)] for a one-character filler. *)
Definition padStart (targetLength : nat) (c : ascii) (s : string) : string :=
  (repeat_char (targetLength - String.length s) c ++ s)%string.

(** The order the store gives strings: by code unit. *)
Definition string_le (a b : string) : Prop := (a ?= b)%string ≠ Gt.

#[global] Instance string_le_dec a b : Decision (string_le a b).
Proof. unfold string_le. solve_decision. Defined.

(** ** Dates *)

Definition msPerDay : Z := 1000 * 60 * 60 * 24.

(** Days since the epoch of the day [d] of month [m] (1 to 12) of year [y]. *)
Definition days_from_civil (y m d : Z) : Z :=
  let y := if m <=? 2 then y - 1 else y in
  let era := y / 400 in
  let yoe := y - era * 400 in
  let doy := (153 * (if 2 <? m then m - 3 else m + 9) + 2) / 5 + d - 1 in
  let doe := yoe * 365 + yoe / 4 - yoe / 100 + doy in
  era * 146097 + doe - 719468.

(** Year, month (1 to 12) and day of the month of a day number. *)
Definition civil_from_days (z : Z) : Z * Z * Z :=
  let z := z + 719468 in
  let era := z / 146097 in
  let doe := z - era * 146097 in
  let yoe := (doe - doe / 1460 + doe / 36524 - doe / 146096) / 365 in
  let y := yoe + era * 400 in
  let doy := doe - (365 * yoe + yoe / 4 - yoe / 100) in
  let mp := (5 * doy + 2) / 153 in
  let d := doy - (153 * mp + 2) / 5 + 1 in
  let m := if mp <? 10 then mp + 3 else mp - 9 in
  (if m <=? 2 then y + 1 else y, m, d).

Definition Day (t : Z) : Z := t / msPerDay.
Definition TimeWithinDay (t : Z) : Z := t mod msPerDay.

Definition getFullYear (t : Z) : Z := (civil_from_days (Day t)).1.1.
Definition getMonth (t : Z) : Z := (civil_from_days (Day t)).1.2 - 1.
Definition getDate (t : Z) : Z := (civil_from_days (Day t)).2.

(** The day number of a year, a month index that may lie outside 0..11
    and a day of the month that may lie outside the month. *)
Definition MakeDay (year month dt : Z) : Z :=
  days_from_civil (year + month / 12) (month mod 12 + 1) 1 + dt - 1.

Definition setMonth (t month : Z) : Z :=
  MakeDay (getFullYear t) month (getDate t) * msPerDay + TimeWithinDay t.

Definition setDate (t dt : Z) : Z :=
  MakeDay (getFullYear t) (getMonth t) dt * msPerDay + TimeWithinDay t.

Definition setFullYear (t year : Z) : Z :=
  MakeDay year (getMonth t) (getDate t) * msPerDay + TimeWithinDay t.

(** [{ $year: d }] and [{ $month: d }] *)
Definition mongo_year (t : Z) : Z := (civil_from_days (Day t)).1.1.
Definition mongo_month (t : Z) : Z := (civil_from_days (Day t)).1.2.

(** ** Requests, validation chains and replies *)

Record ValidationError : Type := {
  msg : string;
  param : string;
  value : option string;
  where_ : string
}.

Record Response (A : Type) : Type := {
  statusCode : nat;
  success : bool;
  message : option string;
  errors : list ValidationError;
  data : option A
}.
Arguments statusCode {A} _.
Arguments success {A} _.
Arguments message {A} _.
Arguments errors {A} _.
Arguments data {A} _.

(** [res.json({ success: true, data })] *)
Definition res_json {A} (d : A) : Response A :=
  {| statusCode := 200; success := true; message := None;
     errors := []; data := Some d |}.

(** [res.status(400).json({ success: false, message: 'Validation failed', errors })] *)
Definition res_validation_failed {A} (errs : list ValidationError) : Response A :=
  {| statusCode := 400; success := false; message := Some "Validation failed";
     errors := errs; data := None |}.

(** An authenticated request: [req.user._id] and [req.query]. *)
Record Request : Type := {
  req_user : ObjectId;
  query : gmap string string
}.

(** [query(field).optional().<validator>.withMessage(message)]; without
    [.optional()] an absent field fails the validator. *)
Record Chain : Type := {
  field : string;
  optional : bool;
  validator : string → bool;
  withMessage : string
}.

Definition run_chain (fields : gmap string string) (where_ : string) (c : Chain)
  : list ValidationError :=
  let failure v :=
    [{| msg := withMessage c; param := field c; value := v; where_ := where_ |}] in
  match fields !! field c with
  | None => if optional c then [] else failure None
  | Some v => if validator c v then [] else failure (Some v)
  end.

(** [validationResult(req).array()] for the chains of a route. *)
Definition validationResult (fields : gmap string string) (where_ : string)
  (chains : list Chain) : list ValidationError :=
  chains ≫= run_chain fields where_.

Definition isEmpty {A} (l : list A) : bool :=
  match l with [] => true | _ => false end.

(** [statuses.reduce((acc, status) => { acc[status] = (acc[status] || 0) + 1; return acc }, {})] *)
Definition tally_statuses (statuses : list Status) : gmap string nat :=
  foldl (λ acc status,
           <[status_name status := (default 0 (acc !! status_name status) + 1)%nat]> acc)
        ∅ statuses.

(** [Math.round(x * 100) / 100] *)
Definition round2 (x : JSNum) : JSNum :=
  js_div (Math_round (js_mul x (of_nat 100))) (of_nat 100).

(** ** GET /analytics/stats *)

Module Stats.

(** [jobSchema.statics.getUserStats]: documents [{ _id: status, count }]. *)
Definition getUserStats (userId : ObjectId) : Query (list (Status * nat)) :=
  aggregate (λ db,
    let matched := filter (λ j, user j = userId) db in
    (λ g, (g.1, acc_count g.2)) <$> group_by status matched).

Definition statsObj_init : gmap string nat :=
  <["total" := 0%nat]> (<["applied" := 0%nat]> (<["interviewing" := 0%nat]>
  (<["offered" := 0%nat]> (<["rejected" := 0%nat]> (<["withdrawn" := 0%nat]> ∅))))).

(** The body of [stats.forEach]. *)
Definition step (statsObj : gmap string nat) (stat : Status * nat)
  : gmap string nat :=
  let statsObj := <[status_name stat.1 := stat.2]> statsObj in
  <["total" := (default 0%nat (statsObj !! "total") + stat.2)%nat]> statsObj.

Definition handler (req : Request) : Query (Response (gmap string nat)) :=
  await stats ← getUserStats (req_user req);
  let statsObj := foldl step statsObj_init stats in
  resolve (res_json statsObj).

End Stats.

(** ** GET /analytics/timeline *)

Module Timeline.

Definition chains : list Chain :=
  [{| field := "months"; optional := true; validator := isInt 1 24;
      withMessage := "Months must be between 1 and 24" |}].

(** A document the pipeline returns; [_id] is [(year, month)]. *)
Module Doc.
Record t : Type := { _id : Z * Z; count : nat; statuses : list Status }.
End Doc.

Module Entry.
Record t : Type := { period : string; total : nat; statuses : gmap string nat }.
End Entry.

(** [{ '_id.year': 1, '_id.month': 1 }] *)
Definition by_year_month (a b : Doc.t) : Prop :=
  (Doc._id a).1 < (Doc._id b).1
  ∨ ((Doc._id a).1 = (Doc._id b).1 ∧ (Doc._id a).2 ≤ (Doc._id b).2).

#[global] Instance by_year_month_dec a b : Decision (by_year_month a b).
Proof. unfold by_year_month. solve_decision. Defined.

Definition pipeline (userId : ObjectId) (startDate : Z) (db : list Job)
  : list Doc.t :=
  let matched :=
    filter (λ j, user j = userId ∧ startDate ≤ applicationDate j) db in
  let grouped :=
    (λ g, {| Doc._id := g.1;
             Doc.count := acc_count g.2;
             Doc.statuses := acc_push status g.2 |})
    <$> group_by (λ j, (mongo_year (applicationDate j),
                        mongo_month (applicationDate j))) matched in
  sort_stage by_year_month grouped.

Definition format (item : Doc.t) : Entry.t :=
  {| Entry.period :=
       (Number_toString (Doc._id item).1 ++ "-"
        ++ padStart 2 "0" (Number_toString (Doc._id item).2))%string;
     Entry.total := Doc.count item;
     Entry.statuses := tally_statuses (Doc.statuses item) |}.

(** [now] is what [new Date()] returns in the handler. *)
Definition handler (now : Z) (req : Request) : Query (Response (list Entry.t)) :=
  let errors := validationResult (query req) "query" chains in
  if negb (isEmpty errors) then resolve (res_validation_failed errors)
  else
    let months := or_default (parseInt (query req !! "months")) 6 in
    let startDate := setMonth now (getMonth now - months) in
    await timeline ← aggregate (pipeline (req_user req) startDate);
    resolve (res_json (format <$> timeline)).

End Timeline.

(** The statuses that count as a success in the per-group views. *)
Definition successful_of (statuses : list Status) : nat :=
  length (filter (λ status, status ∈ [offered; interviewing]) statuses).

(** [total > 0 ? (successful / total) * 100 : 0] *)
Definition success_percentage (total successful : nat) : JSNum :=
  if (0 <? total)%nat
  then js_mul (js_div (of_nat successful) (of_nat total)) (of_nat 100)
  else Fin 0.

(** ** GET /analytics/companies *)

Module Companies.

Definition chains : list Chain :=
  [{| field := "limit"; optional := true; validator := isInt 1 50;
      withMessage := "Limit must be between 1 and 50" |}].

Module Doc.
Record t : Type := {
  _id : string;
  count : nat;
  statuses : list Status;
  avgDaysSinceApplication : option Q
}.
End Doc.

Module Entry.
Record t : Type := {
  company : string;
  totalApplications : nat;
  successRate : JSNum;
  avgDaysSinceApplication : JSNum;
  statusBreakdown : gmap string nat
}.
End Entry.

(** [{ count: -1 }] *)
Definition by_count_desc (a b : Doc.t) : Prop := (Doc.count b ≤ Doc.count a)%nat.

#[global] Instance by_count_desc_dec a b : Decision (by_count_desc a b).
Proof. unfold by_count_desc. solve_decision. Defined.

(** [{ $divide: [{ $subtract: [new Date(), '$applicationDate'] }, 1000 * 60 * 60 * 24] }] *)
Definition days_since (now : Z) (j : Job) : Q :=
  (inject_Z (now - applicationDate j) / inject_Z msPerDay)%Q.

Definition pipeline (userId : ObjectId) (now : Z) (limit : Z) (db : list Job)
  : list Doc.t :=
  let matched := filter (λ j, user j = userId) db in
  let grouped :=
    (λ g, {| Doc._id := g.1;
             Doc.count := acc_count g.2;
             Doc.statuses := acc_push status g.2;
             Doc.avgDaysSinceApplication := acc_avg (days_since now) g.2 |})
    <$> group_by company matched in
  take (Z.to_nat limit) (sort_stage by_count_desc grouped).

(** A number of the store as an operand of [*]: [null] counts as 0. *)
Definition number_of (v : option Q) : JSNum :=
  match v with Some q => Fin (Qred q) | None => Fin 0 end.

Definition with_success_rate (c : Doc.t) : Entry.t :=
  let total := Doc.count c in
  let successful := successful_of (Doc.statuses c) in
  let successRate := success_percentage total successful in
  {| Entry.company := Doc._id c;
     Entry.totalApplications := total;
     Entry.successRate := round2 successRate;
     Entry.avgDaysSinceApplication :=
       round2 (number_of (Doc.avgDaysSinceApplication c));
     Entry.statusBreakdown := tally_statuses (Doc.statuses c) |}.

Definition handler (now : Z) (req : Request) : Query (Response (list Entry.t)) :=
  let errors := validationResult (query req) "query" chains in
  if negb (isEmpty errors) then resolve (res_validation_failed errors)
  else
    let limit := or_default (parseInt (query req !! "limit")) 10 in
    await companies ← aggregate (pipeline (req_user req) now limit);
    resolve (res_json (with_success_rate <$> companies)).

End Companies.

(** ** GET /analytics/locations *)

Module Locations.

Module Doc.
Record t : Type := { _id : option string; count : nat; statuses : list Status }.
End Doc.

Module Entry.
Record t : Type := {
  location : option string;
  totalApplications : nat;
  successRate : JSNum;
  statusBreakdown : gmap string nat
}.
End Entry.

Definition by_count_desc (a b : Doc.t) : Prop := (Doc.count b ≤ Doc.count a)%nat.

#[global] Instance by_count_desc_dec a b : Decision (by_count_desc a b).
Proof. unfold by_count_desc. solve_decision. Defined.

(** [{ $exists: true, $ne: '' }] *)
Definition has_location (j : Job) : Prop :=
  match location j with Some l => l ≠ ""%string | None => False end.

#[global] Instance has_location_dec j : Decision (has_location j).
Proof. unfold has_location. destruct (location j); solve_decision. Defined.

Definition pipeline (userId : ObjectId) (db : list Job) : list Doc.t :=
  let matched := filter (λ j, user j = userId ∧ has_location j) db in
  let grouped :=
    (λ g, {| Doc._id := g.1;
             Doc.count := acc_count g.2;
             Doc.statuses := acc_push status g.2 |})
    <$> group_by location matched in
  sort_stage by_count_desc grouped.

Definition with_success_rate (l : Doc.t) : Entry.t :=
  let total := Doc.count l in
  let successful := successful_of (Doc.statuses l) in
  let successRate := success_percentage total successful in
  {| Entry.location := Doc._id l;
     Entry.totalApplications := total;
     Entry.successRate := round2 successRate;
     Entry.statusBreakdown := tally_statuses (Doc.statuses l) |}.

Definition handler (req : Request) : Query (Response (list Entry.t)) :=
  await locations ← aggregate (pipeline (req_user req));
  resolve (res_json (with_success_rate <$> locations)).

End Locations.

(** ** GET /analytics/interviews *)

Module Interviews.

(** A document after [$unwind] and [$group]; [_id] is [(type, outcome)]. *)
Module Doc.
Record t : Type := { _id : InterviewType * Outcome; count : nat }.
End Doc.

(** The object kept per interview type; [successRate] is absent until
    the second pass writes it. *)
Module Perf.
Record t : Type := {
  total : nat;
  passed : nat;
  failed : nat;
  pending : nat;
  successRate : option JSNum
}.
End Perf.

(** [{ '_id.type': 1, '_id.outcome': 1 }], on the strings stored. *)
Definition by_type_outcome (a b : Doc.t) : Prop :=
  let ta := type_name (Doc._id a).1 in
  let tb := type_name (Doc._id b).1 in
  (ta ≠ tb ∧ string_le ta tb)
  ∨ (ta = tb ∧ string_le (outcome_name (Doc._id a).2) (outcome_name (Doc._id b).2)).

#[global] Instance by_type_outcome_dec a b : Decision (by_type_outcome a b).
Proof. unfold by_type_outcome. solve_decision. Defined.

(** [{ $unwind: '$interviewDates' }]: one document per array element. *)
Definition unwind (docs : list Job) : list (Job * Interview) :=
  docs ≫= (λ j, (λ i, (j, i)) <$> interviewDates j).

Definition pipeline (userId : ObjectId) (db : list Job) : list Doc.t :=
  let matched := filter (λ j, user j = userId ∧ interviewDates j ≠ []) db in
  let unwound := unwind matched in
  let grouped :=
    (λ g, {| Doc._id := g.1; Doc.count := acc_count g.2 |})
    <$> group_by (λ d, (type d.2, outcome d.2)) unwound in
  sort_stage by_type_outcome grouped.

Definition fresh : Perf.t :=
  {| Perf.total := 0; Perf.passed := 0; Perf.failed := 0; Perf.pending := 0;
     Perf.successRate := None |}.

(** [stats.total += n] *)
Definition add_total (n : nat) (stats : Perf.t) : Perf.t :=
  {| Perf.total := Perf.total stats + n;
     Perf.passed := Perf.passed stats;
     Perf.failed := Perf.failed stats;
     Perf.pending := Perf.pending stats;
     Perf.successRate := Perf.successRate stats |}.

(** [stats[outcome] = n] *)
Definition set_outcome (o : Outcome) (n : nat) (stats : Perf.t) : Perf.t :=
  {| Perf.total := Perf.total stats;
     Perf.passed := if decide (o = passed) then n else Perf.passed stats;
     Perf.failed := if decide (o = failed) then n else Perf.failed stats;
     Perf.pending := if decide (o = pending) then n else Perf.pending stats;
     Perf.successRate := Perf.successRate stats |}.

(** The body of [interviews.forEach]. *)
Definition step (interviewPerformance : gmap string Perf.t) (interview : Doc.t)
  : gmap string Perf.t :=
  let '(type, outcome) := Doc._id interview in
  let interviewPerformance :=
    match interviewPerformance !! type_name type with
    | None => <[type_name type := fresh]> interviewPerformance
    | Some _ => interviewPerformance
    end in
  let interviewPerformance :=
    alter (add_total (Doc.count interview)) (type_name type) interviewPerformance in
  alter (set_outcome outcome (Doc.count interview)) (type_name type)
    interviewPerformance.

(** [stats.total > 0 ? Math.round((stats.passed / stats.total) * 100 * 100) / 100 : 0] *)
Definition rate_of (stats : Perf.t) : JSNum :=
  if (0 <? Perf.total stats)%nat
  then js_div
         (Math_round
            (js_mul (js_mul (js_div (of_nat (Perf.passed stats))
                                    (of_nat (Perf.total stats)))
                            (of_nat 100))
                    (of_nat 100)))
         (of_nat 100)
  else Fin 0.

(** The body of the pass over [Object.keys(interviewPerformance)]. *)
Definition with_success_rate (stats : Perf.t) : Perf.t :=
  {| Perf.total := Perf.total stats;
     Perf.passed := Perf.passed stats;
     Perf.failed := Perf.failed stats;
     Perf.pending := Perf.pending stats;
     Perf.successRate := Some (rate_of stats) |}.

Definition handler (req : Request) : Query (Response (gmap string Perf.t)) :=
  await interviews ← aggregate (pipeline (req_user req));
  let interviewPerformance := foldl step ∅ interviews in
  let interviewPerformance := with_success_rate <$> interviewPerformance in
  resolve (res_json interviewPerformance).

End Interviews.

(** ** GET /analytics/trends *)

Module Trends.

Definition chains : list Chain :=
  [{| field := "period"; optional := true;
      validator := isIn ["week"; "month"; "quarter"; "year"]%string;
      withMessage := "Period must be week, month, quarter, or year" |}].

Module Doc.
Record t : Type := { _id : Z; applications : nat; statuses : list Status }.
End Doc.

Module Entry.
Record t : Type := {
  period : Z;
  totalApplications : nat;
  applied : nat;
  interviewing : nat;
  offered : nat;
  applicationToInterviewRate : JSNum;
  interviewToOfferRate : JSNum;
  overallSuccessRate : JSNum
}.
End Entry.

Record Data : Type := { period : string; trends : list Entry.t }.

(** [{ _id: 1 }] *)
Definition by_id (a b : Doc.t) : Prop := Doc._id a ≤ Doc._id b.

#[global] Instance by_id_dec a b : Decision (by_id a b).
Proof. unfold by_id. solve_decision. Defined.

(** [d > 0 ? Math.round((n / d) * 100 * 100) / 100 : 0] *)
Definition rate (n d : nat) : JSNum :=
  if (0 <? d)%nat
  then js_div
         (Math_round
            (js_mul (js_mul (js_div (of_nat n) (of_nat d)) (of_nat 100))
                    (of_nat 100)))
         (of_nat 100)
  else Fin 0.

Definition count_status (s : Status) (statuses : list Status) : nat :=
  length (filter (λ status, status = s) statuses).

Definition with_conversion (trend : Doc.t) : Entry.t :=
  let total := Doc.applications trend in
  let applied := count_status applied (Doc.statuses trend) in
  let interviewing := count_status interviewing (Doc.statuses trend) in
  let offered := count_status offered (Doc.statuses trend) in
  {| Entry.period := Doc._id trend;
     Entry.totalApplications := total;
     Entry.applied := applied;
     Entry.interviewing := interviewing;
     Entry.offered := offered;
     Entry.applicationToInterviewRate := rate interviewing total;
     Entry.interviewToOfferRate := rate offered interviewing;
     Entry.overallSuccessRate := rate offered total |}.

Section Handler.
(** What the store computes for [{ $week: d }], the numbering of weeks
    being the store's, and what the expression [{ $quarter: d }] of the
    route stands for; the store does not evaluate the second one, see
    [unrecognized_expression]. *)
Variable mongo_week mongo_quarter : Z → Z.

(** The [switch (period)]: the date operator and the start of the
    window; [None] when no case applies. *)
Definition window (now : Z) (period : string) : option ((Z → Z) * Z) :=
  if decide (period = "week"%string)
  then Some (mongo_week, setDate now (getDate now - 7))
  else if decide (period = "month"%string)
  then Some (mongo_month, setMonth now (getMonth now - 1))
  else if decide (period = "quarter"%string)
  then Some (mongo_quarter, setMonth now (getMonth now - 3))
  else if decide (period = "year"%string)
  then Some (mongo_year, setFullYear now (getFullYear now - 1))
  else None.

Definition pipeline (userId : ObjectId) (dateFormat : Z → Z) (startDate : Z)
  (db : list Job) : list Doc.t :=
  let matched :=
    filter (λ j, user j = userId ∧ startDate ≤ applicationDate j) db in
  let grouped :=
    (λ g, {| Doc._id := g.1;
             Doc.applications := acc_count g.2;
             Doc.statuses := acc_push status g.2 |})
    <$> group_by (λ j, dateFormat (applicationDate j)) matched in
  sort_stage by_id grouped.

(** [req.query.period || 'month'] *)
Definition period_of (req : Request) : string :=
  match query req !! "period" with
  | Some p => if decide (p = ""%string) then "month"%string else p
  | None => "month"%string
  end.

(** The reply of a request whose period none of the cases of the
    [switch] covers: the pipeline would be built from undefined
    values.  The validator admits no such period, see
    [Trends_window_defined]. *)
Definition no_window : Response Data :=
  {| statusCode := 500; success := false; message := None;
     errors := []; data := None |}.

(** The store has no operator [$quarter]: it does not parse a pipeline
    that names it, so [Job.aggregate] rejects whatever the collection
    holds; the error reaches the global error handler of the server,
    which answers with the status 500 and the message of the error. *)
Definition unrecognized_expression : Response Data :=
  {| statusCode := 500; success := false;
     message := Some "Unrecognized expression '$quarter'";
     errors := []; data := None |}.

(** A call of [Job.aggregate] that the store rejects: one query. *)
Definition aggregate_rejected (reply : Response Data) : Query (Response Data) :=
  λ _, (1%nat, reply).

Definition handler (now : Z) (req : Request) : Query (Response Data) :=
  let errors := validationResult (query req) "query" chains in
  if negb (isEmpty errors) then resolve (res_validation_failed errors)
  else
    let period := period_of req in
    match window now period with
    | None => resolve no_window
    | Some (dateFormat, startDate) =>
        if decide (period = "quarter"%string)
        then aggregate_rejected unrecognized_expression
        else
          await trends ← aggregate (pipeline (req_user req) dateFormat startDate);
          resolve (res_json {| period := period;
                               trends := with_conversion <$> trends |})
    end.
End Handler.

End Trends.

(** ** POST /jobs/:id/interviews *)

Module Jobs.

(** The request: the caller, [req.params.id] and [req.body]. *)
Record Request : Type := {
  req_user : ObjectId;
  id : ObjectId;
  body : gmap string string
}.

Inductive Reply : Type :=
  | Ok (message : string) (job : Job)
  | ValidationFailed (errors : list ValidationError)
  | Thrown (message : string) (statusCode : nat)
  | SaveRejected.

Fixpoint string_rev (s acc : string) : string :=
  match s with
  | EmptyString => acc
  | String c rest => string_rev rest (String c acc)
  end.

(** [trim]: white space removed at both ends. *)
Definition trim (s : string) : string :=
  string_rev (skip_whitespace (string_rev (skip_whitespace s) "")) "".

Definition interview_types : list InterviewType :=
  [phone; video; onsite; technical; behavioral].
Definition outcomes : list Outcome := [passed; failed; pending].

Definition type_of_name (s : string) : option InterviewType :=
  head (filter (λ t, type_name t = s) interview_types).
Definition outcome_of_name (s : string) : option Outcome :=
  head (filter (λ o, outcome_name o = s) outcomes).

(** [Job.findById(id)] *)
Definition findById (id : ObjectId) (db : list Job) : option Job :=
  head (filter (λ j, _id j = id) db).

(** Writes a document back over the stored one of the same [_id]. *)
Fixpoint store (job : Job) (db : list Job) : list Job :=
  match db with
  | [] => []
  | j :: rest =>
      if decide (_id j = _id job) then job :: rest else j :: store job rest
  end.

(** [jobSchema.pre('save', ...)] *)
Definition pre_save (now : Z) (job : Job) : Job :=
  match status job, followUpDate job with
  | interviewing, None =>
      {| _id := _id job; user := user job; title := title job;
         company := company job; location := location job;
         status := status job; applicationDate := applicationDate job;
         followUpDate := Some (now + 7 * 24 * 60 * 60 * 1000);
         interviewDates := interviewDates job |}
  | _, _ => job
  end.

Section AddInterview.
(** [isISO8601] of validator.js, and the cast of a date string the
    model applies to an element pushed on [interviewDates] ([None]:
    the cast fails and [save] rejects). *)
Variable isISO8601 : string → bool.
Variable castDate : string → option Z.

(** The sanitizer [trim()] of the [notes] chain is applied by the
    validator here and by [pushed] below.  The length of the notes is
    the length of the byte string, which is the number of characters
    [isLength] counts when the text is ASCII. *)
Definition chains : list Chain :=
  [{| field := "date"; optional := false; validator := isISO8601;
      withMessage := "Valid interview date is required" |};
   {| field := "type"; optional := false;
      validator := isIn (type_name <$> interview_types);
      withMessage := "Valid interview type is required" |};
   {| field := "notes"; optional := true;
      validator := λ s, (String.length (trim s) <=? 500)%nat;
      withMessage := "Invalid value" |};
   {| field := "outcome"; optional := true;
      validator := isIn (outcome_name <$> outcomes);
      withMessage := "Invalid value" |}].

(** The element [{ date, type, notes, outcome: outcome || 'pending' }]
    as the schema casts it. *)
Definition pushed (body : gmap string string) : option Interview :=
  d ← body !! "date" ≫= castDate;
  t ← body !! "type" ≫= type_of_name;
  o ← outcome_of_name
        (match body !! "outcome" with
         | Some o => if decide (o = ""%string) then "pending"%string else o
         | None => "pending"%string
         end);
  Some {| date := d; type := t; notes := trim <$> body !! "notes";
          outcome := o |}.

(** The handler: the store after the request and the reply. *)
Definition add_interview (now : Z) (req : Request) (db : list Job)
  : list Job * Reply :=
  let errors := validationResult (body req) "body" chains in
  if negb (isEmpty errors) then (db, ValidationFailed errors)
  else
    match findById (id req) db with
    | None => (db, Thrown "Job not found" 404)
    | Some job =>
        if negb (bool_decide (user job = req_user req))
        then (db, Thrown "Not authorized to update this job" 403)
        else
          match pushed (body req) with
          | None => (db, SaveRejected)
          | Some interview =>
              let job :=
                {| _id := _id job; user := user job; title := title job;
                   company := company job; location := location job;
                   status := if decide (status job = applied)
                             then interviewing else status job;
                   applicationDate := applicationDate job;
                   followUpDate := followUpDate job;
                   interviewDates := interviewDates job ++ [interview] |} in
              let job := pre_save now job in
              (store job db, Ok "Interview added successfully" job)
          end
    end.
End AddInterview.

End Jobs.

(** ** The Job model: virtuals, hooks and methods *)

Module JobModel.

(** [Math.abs] and [Math.ceil] *)
Definition Math_abs (x : JSNum) : JSNum :=
  match x with
  | Fin q => Fin (Qabs q)
  | NaN => NaN
  | PInf | NInf => PInf
  end.

Definition Math_ceil (x : JSNum) : JSNum :=
  match x with
  | Fin q => Fin (inject_Z (Qceiling q))
  | other => other
  end.

(** [jobSchema.virtual('daysSinceApplication')], [now] being what
    [new Date()] returns.  The schema requires [applicationDate] and the
    record always holds it, so the branch that returns [null] for a
    missing date is not taken. *)
Definition daysSinceApplication (now : Z) (job : Job) : JSNum :=
  let diffTime := Math_abs (Fin (inject_Z (now - applicationDate job))) in
  Math_ceil (js_div diffTime (Fin (inject_Z msPerDay))).

(** [.sort((a, b) => a.date - b.date)]: the sort of arrays keeps the
    order of elements that compare equal. *)
Fixpoint insert_by_date (i : Interview) (sorted : list Interview) : list Interview :=
  match sorted with
  | [] => [i]
  | j :: rest =>
      if decide (date i ≤ date j) then i :: sorted
      else j :: insert_by_date i rest
  end.

Definition sort_by_date (interviews : list Interview) : list Interview :=
  foldr insert_by_date [] interviews.

(** [jobSchema.virtual('nextInterview')]; [None] is [null]. *)
Definition nextInterview (now : Z) (job : Job) : option Interview :=
  match interviewDates job with
  | [] => None
  | _ =>
      let upcomingInterviews :=
        sort_by_date (filter (λ interview, now < date interview)
                        (interviewDates job)) in
      head upcomingInterviews
  end.

(** [jobSchema.methods.updateStatus] up to its call of [save]; the
    record has no [updatedAt], which the method also writes. *)
Definition updateStatus (now : Z) (newStatus : Status) (job : Job) : Job :=
  {| _id := _id job; user := user job; title := title job;
     company := company job; location := location job;
     status := newStatus; applicationDate := applicationDate job;
     followUpDate :=
       match newStatus, followUpDate job with
       | interviewing, None => Some (now + 7 * 24 * 60 * 60 * 1000)
       | _, kept => kept
       end;
     interviewDates := interviewDates job |}.

(** [this.save()]: the pre-save hook runs, then the document replaces
    the stored one. *)
Definition save (now : Z) (job : Job) (db : list Job) : list Job * Job :=
  let job := Jobs.pre_save now job in
  (Jobs.store job db, job).

End JobModel.

(** ** The jobs router: reading, listing, changing the status, deleting *)

Module JobsRoutes.

(** A reply: a JSON body [{ success, message, data: { job } }] sent with
    a status code (an [AppError] thrown reaches the global error handler,
    which sends its code and message), the validation reply, or a [save]
    that rejects. *)
Inductive Reply : Type :=
  | Json (statusCode : nat) (success : bool) (message : option string)
      (job : option Job)
  | ValidationFailed (errors : list ValidationError)
  | SaveRejected.

(** [throw new AppError(message, statusCode)] *)
Definition thrown (message : string) (statusCode : nat) : Reply :=
  Json statusCode false (Some message) None.

(** GET /:id *)
Definition get_job (req : Jobs.Request) (db : list Job) : Reply :=
  match Jobs.findById (Jobs.id req) db with
  | None => thrown "Job not found" 404
  | Some job =>
      if negb (bool_decide (user job = Jobs.req_user req))
      then thrown "Not authorized to access this job" 403
      else Json 200 true None (Some job)
  end.

Definition status_of_name (s : string) : option Status :=
  head (filter (λ st, status_name st = s) all_statuses).

Definition status_chains : list Chain :=
  [{| field := "status"; optional := false;
      validator := isIn (status_name <$> all_statuses);
      withMessage := "Valid status is required" |}].

(** PATCH /:id/status; the two clock readings are the one of
    [updateStatus] and the one of the pre-save hook. *)
Definition update_status (now now' : Z) (req : Jobs.Request) (db : list Job)
  : list Job * Reply :=
  let errors := validationResult (Jobs.body req) "body" status_chains in
  if negb (isEmpty errors) then (db, ValidationFailed errors)
  else
    match Jobs.findById (Jobs.id req) db with
    | None => (db, thrown "Job not found" 404)
    | Some job =>
        if negb (bool_decide (user job = Jobs.req_user req))
        then (db, thrown "Not authorized to update this job" 403)
        else
          match Jobs.body req !! "status"%string ≫= status_of_name with
          | None => (db, SaveRejected)
          | Some status =>
              let '(db, job) :=
                JobModel.save now' (JobModel.updateStatus now status job) db in
              (db, Json 200 true (Some "Job status updated successfully"%string)
                     (Some job))
          end
    end.

(** [Job.findByIdAndDelete(id)] *)
Fixpoint findByIdAndDelete (id : ObjectId) (db : list Job) : list Job :=
  match db with
  | [] => []
  | j :: rest =>
      if decide (_id j = id) then rest else j :: findByIdAndDelete id rest
  end.

(** DELETE /:id *)
Definition delete_job (req : Jobs.Request) (db : list Job) : list Job * Reply :=
  match Jobs.findById (Jobs.id req) db with
  | None => (db, Json 404 false (Some "Job not found"%string) None)
  | Some job =>
      if negb (bool_decide (user job = Jobs.req_user req))
      then (db, Json 403 false (Some "Not authorized to delete this job"%string) None)
      else (findByIdAndDelete (Jobs.id req) db,
            Json 200 true (Some "Job deleted successfully"%string) None)
  end.

(** [isInt(str, { min })] *)
Definition isInt_min (min : Z) (str : string) : bool :=
  match int_literal str with
  | Some n => min <=? n
  | None => false
  end.

(** The number a string stands for in an arithmetic expression, for the
    strings [isInt] accepts; [None] is NaN.  As for [parseInt], it is
    the integer denoted, the number of the source up to 2^53. *)
Definition ToNumber (s : string) : option Z := int_literal s.

Definition list_chains : list Chain :=
  [{| field := "status"; optional := true;
      validator := isIn (status_name <$> all_statuses);
      withMessage := "Invalid value" |};
   {| field := "search"; optional := true; validator := λ _, true;
      withMessage := "Invalid value" |};
   {| field := "sortBy"; optional := true;
      validator := isIn ["createdAt"; "updatedAt"; "applicationDate"; "title";
                         "company"]%string;
      withMessage := "Invalid value" |};
   {| field := "sortOrder"; optional := true;
      validator := isIn ["asc"; "desc"]%string;
      withMessage := "Invalid value" |};
   {| field := "page"; optional := true; validator := isInt_min 1;
      withMessage := "Invalid value" |};
   {| field := "limit"; optional := true; validator := isInt 1 100;
      withMessage := "Invalid value" |}].

(** The reply of GET /: the page of jobs and the [pagination] object. *)
Record Listing : Type := {
  jobs : list Job;
  page : Z;
  limit : Z;
  total : nat;
  pages : JSNum
}.

Inductive ListReply : Type :=
  | Listed (listing : Listing)
  | ListRejected (errors : list ValidationError)
  | NotANumber.

(** A parameter of the query string that is present and not empty. *)
Definition truthy (v : option string) : option string :=
  match v with
  | Some s => if decide (s = ""%string) then None else Some s
  | None => None
  end.

Section ListJobs.
(** The timestamps mongoose keeps and the [description] of a document,
    which the record does not hold, and the test of a string against a
    [$regex] with the option [i]. *)
Variable createdAt updatedAt : Job → Z.
Variable description : Job → option string.
Variable regex_i : string → string → bool.

(** [query.$or] *)
Definition matches_search (search : string) (j : Job) : bool :=
  regex_i search (title j)
  || regex_i search (company j)
  || from_option (regex_i search) false (location j)
  || from_option (regex_i search) false (description j).

(** The [query] object as a predicate on documents: the owner, the
    status when one is asked for, the search when one is given. *)
Definition selects (userId : ObjectId) (wanted search : option string)
  (j : Job) : Prop :=
  user j = userId
  ∧ match truthy wanted with
    | Some s => status_name (status j) = s
    | None => True
    end
  ∧ match truthy search with
    | Some s => matches_search s j = true
    | None => True
    end.

#[global] Instance selects_dec userId wanted search j :
  Decision (selects userId wanted search j).
Proof.
  unfold selects. destruct (truthy wanted), (truthy search); solve_decision.
Defined.

(** The order [sort[sortBy] = 1] asks for; a [sortBy] outside the five
    names does not pass validation. *)
Definition sort_le (sortBy : string) (a b : Job) : Prop :=
  if decide (sortBy = "title"%string) then string_le (title a) (title b)
  else if decide (sortBy = "company"%string)
  then string_le (company a) (company b)
  else if decide (sortBy = "applicationDate"%string)
  then applicationDate a ≤ applicationDate b
  else if decide (sortBy = "createdAt"%string) then createdAt a ≤ createdAt b
  else updatedAt a ≤ updatedAt b.

(** [sortOrder === 'asc' ? 1 : -1] *)
Definition sort_order (sortBy sortOrder : string) (a b : Job) : Prop :=
  if decide (sortOrder = "asc"%string) then sort_le sortBy a b
  else sort_le sortBy b a.

#[global] Instance sort_order_dec sortBy sortOrder a b :
  Decision (sort_order sortBy sortOrder a b).
Proof. unfold sort_order, sort_le. repeat case_decide; solve_decision. Defined.

(** GET /; [NotANumber] stands for a page or limit that is not a number,
    which validation excludes.  The number of jobs skipped and the
    number of pages are computed on integers, as the source does on
    doubles up to 2^53.  The store is taken to accept every pattern
    ([regex_i] is total; the store rejects a string that is not a
    regular expression) and to return jobs with equal sort keys in the
    order of [sort_stage] (the store promises none). *)
Definition list_jobs (req : Request) (db : list Job) : ListReply :=
  let errors := validationResult (query req) "query" list_chains in
  if negb (isEmpty errors) then ListRejected errors
  else
    let wanted := query req !! "status"%string in
    let search := query req !! "search"%string in
    let sortBy := default "updatedAt"%string (query req !! "sortBy"%string) in
    let sortOrder := default "desc"%string (query req !! "sortOrder"%string) in
    let number_of v dflt :=
      match v with Some s => ToNumber s | None => Some dflt end in
    let parsed v dflt :=
      match v with Some s => parseInt (Some s) | None => Some dflt end in
    match number_of (query req !! "page"%string) 1,
          number_of (query req !! "limit"%string) 20,
          parsed (query req !! "page"%string) 1,
          parsed (query req !! "limit"%string) 20 with
    | Some page_n, Some limit_n, Some page_i, Some limit_i =>
        let matching := filter (selects (req_user req) wanted search) db in
        let skip := (page_n - 1) * limit_n in
        let found :=
          take (Z.to_nat limit_i)
            (drop (Z.to_nat skip)
               (sort_stage (sort_order sortBy sortOrder) matching)) in
        Listed {| jobs := found; page := page_i; limit := limit_i;
                  total := length matching;
                  pages := JobModel.Math_ceil
                             (js_div (of_nat (length matching))
                                (Fin (inject_Z limit_n))) |}
    | _, _, _, _ => NotANumber
    end.
End ListJobs.

End JobsRoutes.

(** ** The rate expression on doubles *)

Module Binary64.

(** A number is an IEEE 754 binary64 value: 53 bits of precision,
    exponents below 1024; the operations round to nearest, ties to
    even. *)
Definition Number : Type := SpecFloat.spec_float.

Definition of_Z (n : Z) : Number := SpecFloat.binary_normalize 53 1024 n 0 false.

(** [a * b] and [a / b] *)
Definition mul (a b : Number) : Number := SpecFloat.SFmul 53 1024 a b.
Definition div (a b : Number) : Number := SpecFloat.SFdiv 53 1024 a b.

(** The rational a finite number is. *)
Definition to_Q (x : Number) : option Q :=
  match x with
  | SpecFloat.S754_zero _ => Some 0%Q
  | SpecFloat.S754_finite s m e =>
      let v := if 0 <=? e then inject_Z (Zpos m * 2 ^ e)
               else (Zpos m # Z.to_pos (2 ^ (- e)))%Q in
      Some (if s then Qopp v else v)
  | _ => None
  end.

(** The integer [Math.round] gives for a finite number: the nearest
    one, a tie going towards +infinity (the sign of a zero result is
    not kept). *)
Definition rounded (x : Number) : option Z :=
  (λ q, Qfloor (q + (1 # 2))) <$> to_Q x.

Definition Math_round (x : Number) : Number :=
  match rounded x with
  | Some n => of_Z n
  | None => x
  end.

(** [(n / d) * 100 * 100], the argument of [Math.round] in every rate
    of the analytics routes. *)
Definition scaled (n d : nat) : Number :=
  mul (mul (div (of_Z (Z.of_nat n)) (of_Z (Z.of_nat d))) (of_Z 100)) (of_Z 100).

(** [d > 0 ? Math.round((n / d) * 100 * 100) / 100 : 0] *)
Definition rate (n d : nat) : Number :=
  if (0 <? d)%nat then div (Math_round (scaled n d)) (of_Z 100) else of_Z 0.

(** The number a decimal with two decimals denotes, [m / 100] rounded
    to the nearest double; it is printed as that decimal. *)
Definition hundredths (m : Z) : Number := div (of_Z m) (of_Z 100).

(** Whether [Math.round] of the scaled ratio is an integer nearest to
    the exact [10000 * n / d], and the one the exact evaluation gives
    unless that value is half-way between two integers. *)
Definition nearest (n d : nat) : bool :=
  match rounded (scaled n d) with
  | Some m =>
      let off := 2 * (m * Z.of_nat d - 10000 * Z.of_nat n) in
      bool_decide (Z.abs off ≤ Z.of_nat d)
      && (bool_decide (m = (20000 * Z.of_nat n + Z.of_nat d) / (2 * Z.of_nat d))
          || bool_decide (Z.abs off = Z.of_nat d))
  | None => false
  end.

End Binary64.

(** ** Notions the properties are stated with *)

(** The records of the store a user owns. *)
Definition owned (userId : ObjectId) (db : list Job) : list Job :=
  filter (λ j, user j = userId) db.

(** How many of the records have a status. *)
Definition with_status (s : Status) (jobs : list Job) : nat :=
  length (filter (λ j, status j = s) jobs).

(** The members of the bucket of a key, none when there is no bucket. *)
Fixpoint bucket_of {D K} `{EqDecision K} (k : K) (gs : list (K * list D)) : list D :=
  match gs with
  | [] => []
  | (k', ds) :: rest => if decide (k = k') then ds else bucket_of k rest
  end.


(** The same, the larger one when two are as near (half up). *)
Definition rounds_half_up_2dp (x r : Q) : Prop :=
  ∃ n : Z, (r == inject_Z n / 100)%Q
    ∧ (Qabs (r - x) <= 1 # 200)%Q
    ∧ ((Qabs (r - x) == 1 # 200)%Q → (x < r)%Q).

(** [r] is [x] rounded to two decimals: a hundredth at most half a
    hundredth from [x].  When two hundredths are as near, either one
    will do: no rule for ties is part of it. *)
Definition rounds_2dp (x r : Q) : Prop :=
  ∃ n : Z, (r == inject_Z n / 100)%Q ∧ (Qabs (r - x) <= 1 # 200)%Q.

(** The percentage [100 * n / d] as a rational. *)
Definition percentage (n d : nat) : Q :=
  (100 * inject_Z (Z.of_nat n) / inject_Z (Z.of_nat d))%Q.

(** What [Math.round(x * 100) / 100] computes on a rational. *)
Definition half_up_2dp (x : Q) : Q :=
  Qred (inject_Z (Qfloor (x * 100 + (1 # 2))) / 100).

(** An integer parameter that is absent or that [isInt] accepts. *)
Definition valid_int_param (lo hi : Z) (v : option string) : Prop :=
  match v with Some s => isInt lo hi s = true | None => True end.

(** A period that is absent or one of the four units. *)
Definition valid_period (v : option string) : Prop :=
  match v with
  | Some s => isIn ["week"; "month"; "quarter"; "year"]%string s = true
  | None => True
  end.

(** A number below 100 in two digits, one from 1000 to 9999 in four. *)
Definition two_digits (n : Z) : string :=
  String (digit_char (n / 10)) (String (digit_char (n mod 10)) "").

Definition four_digits (n : Z) : string :=
  String (digit_char (n / 1000)) (String (digit_char (n / 100 mod 10))
    (String (digit_char (n / 10 mod 10)) (String (digit_char (n mod 10)) ""))).

(** A string that is not the notation of an integer from [lo] to [hi]:
    not a number at all, or a number outside the range. *)
Definition invalid_int (lo hi : Z) (s : string) : Prop :=
  ∀ n, int_literal s = Some n → ¬ (lo ≤ n ≤ hi).

(** The reply to a request that fails validation on one parameter. *)
Definition validation_reply {A} (message parameter given : string) : Response A :=
  {| statusCode := 400; success := false; message := Some "Validation failed";
     errors := [{| msg := message; param := parameter; value := Some given;
                   where_ := "query" |}];
     data := None |}.

(** The records of a company, and those at a location. *)
Definition in_company (c : string) (jobs : list Job) : list Job :=
  filter (λ j, company j = c) jobs.

Definition at_location (l : option string) (jobs : list Job) : list Job :=
  filter (λ j, location j = l) jobs.

(** How many of the records are offers or in the interviewing stage. *)
Definition successes (jobs : list Job) : nat :=
  length (filter (λ j, status j = offered ∨ status j = interviewing) jobs).

(** [rate] is the success rate of a group of records: the percentage of
    successes among them, rounded to two decimals, a number from 0 to
    100. *)
Definition rate_of_group (members : list Job) (rate : JSNum) : Prop :=
  ∃ r : Q, rate = Fin r
    ∧ rounds_2dp (percentage (successes members) (length members)) r
    ∧ (0 <= r)%Q ∧ (r <= 100)%Q.

(** The documents of the company pipeline before [$limit]. *)
Definition company_docs (u : ObjectId) (now : Z) (db : list Job)
  : list Companies.Doc.t :=
  sort_stage Companies.by_count_desc
    ((λ g, {| Companies.Doc._id := g.1;
              Companies.Doc.count := acc_count g.2;
              Companies.Doc.statuses := acc_push status g.2;
              Companies.Doc.avgDaysSinceApplication :=
                acc_avg (Companies.days_since now) g.2 |})
     <$> group_by company (owned u db)).

(** The interview entries of a list of records, and how many of them
    have a type, or a type and an outcome. *)
Definition interview_entries (jobs : list Job) : list Interview :=
  jobs ≫= interviewDates.

Definition entries_of_type (t : InterviewType) (entries : list Interview) : nat :=
  length (filter (λ i, type i = t) entries).

Definition entries_of (t : InterviewType) (o : Outcome)
  (entries : list Interview) : nat :=
  length (filter (λ i, type i = t ∧ outcome i = o) entries).

(** The count the documents of the interview pipeline give for a type
    and an outcome, and the object built from these counts. *)
Definition tallied (docs : list Interviews.Doc.t) (t : InterviewType)
  (o : Outcome) : nat :=
  sum_list (Interviews.Doc.count
            <$> filter (λ d, Interviews.Doc._id d = (t, o)) docs).

Definition tally_of (docs : list Interviews.Doc.t) (t : InterviewType)
  : Interviews.Perf.t :=
  {| Interviews.Perf.total :=
       tallied docs t passed + tallied docs t failed + tallied docs t pending;
     Interviews.Perf.passed := tallied docs t passed;
     Interviews.Perf.failed := tallied docs t failed;
     Interviews.Perf.pending := tallied docs t pending;
     Interviews.Perf.successRate := None |}.

(** The records applied for at or after a date, and those applied for
    in a calendar month (UTC). *)
Definition since (start : Z) (jobs : list Job) : list Job :=
  filter (λ j, start ≤ applicationDate j) jobs.

Definition in_month (y m : Z) (jobs : list Job) : list Job :=
  filter (λ j, mongo_year (applicationDate j) = y
               ∧ mongo_month (applicationDate j) = m) jobs.

(** The records applied for from a date to another. *)
Definition between (start stop : Z) (jobs : list Job) : list Job :=
  filter (λ j, start ≤ applicationDate j ∧ applicationDate j ≤ stop) jobs.

(** A calendar month before another. *)
Definition year_month_lt (a b : Z * Z) : Prop :=
  a.1 < b.1 ∨ (a.1 = b.1 ∧ a.2 < b.2).

(** The records of a trend bucket: those whose application date the
    date operator sends to the key.  The records with a location that
    is present and not empty. *)
Definition in_bucket (dateFormat : Z → Z) (k : Z) (jobs : list Job) : list Job :=
  filter (λ j, dateFormat (applicationDate j) = k) jobs.

Definition located (jobs : list Job) : list Job :=
  filter Locations.has_location jobs.

(** The count of a status in a status breakdown: the key is absent for
    a status that does not occur. *)
Definition breakdown_of (n : nat) : option nat :=
  if decide (n = 0%nat) then None else Some n.

(** The value of an integer parameter of the query string: the number
    it denotes, or the default when it is absent. *)
Definition int_param (dflt : Z) (v : option string) : Z :=
  match v with
  | Some s => default dflt (int_literal s)
  | None => dflt
  end.

(** [total] records in pages of [limit]: the number of pages. *)
Definition ceil_div (total : nat) (limit : Z) : Z :=
  (Z.of_nat total + limit - 1) / limit.

(** The jobs of a reply of the listing, none for a rejected request,
    and a request with the [page] parameter set to a number. *)
Definition jobs_of (reply : JobsRoutes.ListReply) : list Job :=
  match reply with
  | JobsRoutes.Listed listing => JobsRoutes.jobs listing
  | _ => []
  end.

Definition with_page (p : Z) (req : Request) : Request :=
  {| req_user := req_user req;
     query := <["page"%string := Number_toString p]> (query req) |}.

(** [Number.MAX_SAFE_INTEGER]: up to it every integer is a double, and
    the arithmetic of the source on integers is the arithmetic of
    integers. *)
Definition MAX_SAFE_INTEGER : Z := 2 ^ 53 - 1.

(** A page, a limit and a total within which the numbers the listing
    computes (the page parsed, the number of jobs skipped, the number
    of pages) are exact. *)
Definition listing_exact (page limit : Z) (total : nat) : Prop :=
  page * limit ≤ MAX_SAFE_INTEGER ∧ 100 * Z.of_nat total ≤ MAX_SAFE_INTEGER.

(** No two different jobs of a list have the same place in an order:
    the order leaves the store no choice. *)
Definition keys_distinct (order : relation Job) (jobs : list Job) : Prop :=
  ∀ a b, a ∈ jobs → b ∈ jobs → order a b → order b a → a = b.

(** Every job in the interview stage has a follow-up date. *)
Definition follow_up_set (db : list Job) : Prop :=
  ∀ j, j ∈ db → status j = interviewing → is_Some (followUpDate j).

(** What the chains of the listing accept: a status and a sort field
    and direction among those listed, a page of at least 1 and a limit
    from 1 to 100, each when passed. *)
Definition listing_parameters_valid (q : gmap string string) : Prop :=
  (∀ s, q !! "status"%string = Some s → ∃ st, s = status_name st)
  ∧ (∀ s, q !! "sortBy"%string = Some s →
          s ∈ ["createdAt"; "updatedAt"; "applicationDate"; "title";
               "company"]%string)
  ∧ (∀ s, q !! "sortOrder"%string = Some s → s ∈ ["asc"; "desc"]%string)
  ∧ (∀ s, q !! "page"%string = Some s → ∃ n, int_literal s = Some n ∧ 1 ≤ n)
  ∧ (∀ s, q !! "limit"%string = Some s →
          ∃ n, int_literal s = Some n ∧ 1 ≤ n ≤ 100).

(** ** A small store used to exercise the statements *)

Definition example_job (id owner : ObjectId) (c : string) (l : option string)
  (s : Status) (applied_on : Z) (interviews : list Interview) : Job :=
  {| _id := id; user := owner; title := "Engineer"; company := c;
     location := l; status := s; applicationDate := applied_on;
     followUpDate := None; interviewDates := interviews |}.

Arguments example_job (id owner)%_nat c l s applied_on interviews.

Definition example_interview (t : InterviewType) (o : Outcome) : Interview :=
  {| date := 0; type := t; notes := None; outcome := o |}.

(** 1 November 2026, 16:00 UTC. *)
Definition example_now : Z := 1793548800000.

(** Records of user 7, and one of user 8. *)
Definition example_db : list Job :=
  [ example_job 1 7 "Acme" (Some "Paris"%string) offered
      (example_now - 3 * msPerDay)
      [example_interview phone passed; example_interview phone passed;
       example_interview phone pending; example_interview video failed];
    example_job 2 7 "Acme" None rejected (example_now - 40 * msPerDay) [];
    example_job 3 8 "Acme" (Some "Paris"%string) applied (example_now - 5)
      [example_interview phone failed];
    example_job 4 7 "Bolt" (Some ""%string) interviewing
      (example_now - 10 * msPerDay) [];
    example_job 5 7 "Bolt" (Some "Rome"%string) applied
      (example_now - 70 * msPerDay) [example_interview onsite pending] ].

(** The same records of user 7, among other records of user 8. *)
Definition example_db_other : list Job :=
  [ example_job 1 7 "Acme" (Some "Paris"%string) offered
      (example_now - 3 * msPerDay)
      [example_interview phone passed; example_interview phone passed;
       example_interview phone pending; example_interview video failed];
    example_job 9 8 "Bolt" (Some "Rome"%string) offered (example_now - 7)
      [example_interview onsite passed];
    example_job 2 7 "Acme" None rejected (example_now - 40 * msPerDay) [];
    example_job 4 7 "Bolt" (Some ""%string) interviewing
      (example_now - 10 * msPerDay) [];
    example_job 5 7 "Bolt" (Some "Rome"%string) applied
      (example_now - 70 * msPerDay) [example_interview onsite pending] ].

Definition example_request (owner : ObjectId) (params : list (string * string))
  : Request :=
  {| req_user := owner; query := list_to_map params |}.

Arguments example_request owner%_nat params.

(** Week and quarter numbers as the store could compute them: weeks
    counted from the first Sunday of the year, quarters of three months. *)
Definition example_week (t : Z) : Z :=
  let day := Day t in
  let day_of_year := day - days_from_civil (mongo_year t) 1 1 in
  let day_of_week := (day + 4) mod 7 in
  (day_of_year + 7 - day_of_week) / 7.

Definition example_quarter (t : Z) : Z := (mongo_month t - 1) / 3 + 1.


(** The trend bucket of the year 2026 and the location group of Paris
    for user 7 in [example_db]. *)
Definition example_trend : Trends.Doc.t :=
  {| Trends.Doc._id := 2026; Trends.Doc.applications := 4;
     Trends.Doc.statuses := [offered; rejected; interviewing; applied] |}.

Definition example_paris : Locations.Doc.t :=
  {| Locations.Doc._id := Some "Paris"%string; Locations.Doc.count := 1;
     Locations.Doc.statuses := [offered] |}.

(** A date validator and a date cast that know one date, 5 November
    2026, and a request to add a video interview on it to job 5. *)
Definition example_isISO8601 (s : string) : bool :=
  bool_decide (s = "2026-11-05"%string).

Definition example_castDate (s : string) : option Z :=
  if decide (s = "2026-11-05"%string) then Some 1793836800000 else None.

Definition example_add : Jobs.Request :=
  {| Jobs.req_user := 7%nat; Jobs.id := 5%nat;
     Jobs.body := list_to_map [("date", "2026-11-05"); ("type", "video")]%string |}.

(** One application dated forty days after [example_now]. *)
Definition example_db_ahead : list Job :=
  [ example_job 1 7 "Acme" None applied (example_now + 40 * msPerDay) [] ].

(** The three records of the example of the specification, and the two
    records of its company "Acme". *)
Definition example_db_three : list Job :=
  [ example_job 1 7 "Initech" None applied example_now [];
    example_job 2 7 "Initech" None interviewing example_now [];
    example_job 3 7 "Initech" None offered example_now [] ].

Definition example_db_acme : list Job :=
  [ example_job 1 7 "Acme" None offered example_now [];
    example_job 2 7 "Acme" None rejected example_now [] ].

(** Requests on single jobs: user 7 moves job 5 to the interview
    stage, user 7 asks for job 2 with an empty body, and user 8 asks
    for job 5, which is not theirs. *)
Definition example_patch : Jobs.Request :=
  {| Jobs.req_user := 7%nat; Jobs.id := 5%nat;
     Jobs.body := list_to_map [("status", "interviewing")]%string |}.

Definition example_own : Jobs.Request :=
  {| Jobs.req_user := 7%nat; Jobs.id := 2%nat; Jobs.body := ∅ |}.

Definition example_foreign : Jobs.Request :=
  {| Jobs.req_user := 8%nat; Jobs.id := 5%nat;
     Jobs.body := list_to_map [("status", "interviewing")]%string |}.

(** The listing of user 7, two jobs to a page: timestamps that follow
    the identifiers, no descriptions, a search that finds a text equal
    to the pattern; and the first page, the two jobs last updated. *)
Definition example_stamp (j : Job) : Z := Z.of_nat (_id j).

Definition example_description (j : Job) : option string := None.

Definition example_regex_i (pattern text : string) : bool :=
  bool_decide (pattern = text).

Definition example_list : Request := example_request 7 [("limit", "2")]%string.

Definition example_listing : JobsRoutes.Listing :=
  {| JobsRoutes.jobs :=
       [ example_job 5 7 "Bolt" (Some "Rome"%string) applied
           (example_now - 70 * msPerDay) [example_interview onsite pending];
         example_job 4 7 "Bolt" (Some ""%string) interviewing
           (example_now - 10 * msPerDay) [] ];
     JobsRoutes.page := 1; JobsRoutes.limit := 2; JobsRoutes.total := 4;
     JobsRoutes.pages := Fin (inject_Z 2) |}.

(** ** The monad of store reads *)

Lemma query_bind_aggregate {A B} (p : list Job → A) (k : A → Query B) db :
  query_bind (aggregate p) k db = ((1 + (k (p db) db).1)%nat, (k (p db) db).2).
Proof. unfold query_bind, aggregate. by destruct (k (p db) db). Qed.

(** ** Facts about [$group] *)

Section GroupFacts.
Context {D K : Type} `{EqDecision K}.
Implicit Types (k : K) (d : D) (gs : list (K * list D)).

Lemma bucket_keys k d gs k' :
  k' ∈ (bucket k d gs).*1 ↔ k' = k ∨ k' ∈ gs.*1.
Proof.
  induction gs as [|[k0 ds] gs IH]; simpl.
  - rewrite list_elem_of_singleton, elem_of_nil. tauto.
  - case_decide; subst; simpl; rewrite !elem_of_cons; [tauto|].
    rewrite IH. tauto.
Qed.

Lemma bucket_NoDup k d gs : NoDup gs.*1 → NoDup (bucket k d gs).*1.
Proof.
  induction gs as [|[k0 ds] gs IH]; simpl; intros Hnd.
  - apply NoDup_singleton.
  - apply NoDup_cons in Hnd as [Hnotin Hnd].
    case_decide; subst; simpl; apply NoDup_cons; split; auto.
    rewrite bucket_keys. intros [-> | Hin]; auto.
Qed.

Lemma bucket_of_bucket k d gs k' :
  bucket_of k' (bucket k d gs)
  = bucket_of k' gs ++ (if decide (k' = k) then [d] else []).
Proof.
  induction gs as [|[k0 ds] gs IH]; simpl.
  - by case_decide.
  - destruct (decide (k = k0)) as [->|Hne]; simpl.
    + destruct (decide (k' = k0)) as [->|Hne']; [done|].
      by rewrite app_nil_r.
    + destruct (decide (k' = k0)) as [->|Hne']; [|done].
      rewrite decide_False by done. by rewrite app_nil_r.
Qed.

Lemma bucket_sizes k d gs :
  sum_list (length <$> (bucket k d gs).*2) = S (sum_list (length <$> gs.*2)).
Proof.
  induction gs as [|[k0 ds] gs IH]; simpl; [done|].
  case_decide; simpl.
  - rewrite length_app. simpl. lia.
  - change (sum_list (length <$> (bucket k d gs).*2)
            = S (sum_list (length <$> gs.*2))) in IH.
    change (length ds + sum_list (length <$> (bucket k d gs).*2)
            = S (length ds + sum_list (length <$> gs.*2)))%nat.
    lia.
Qed.

Lemma bucket_of_elem k ds gs :
  NoDup gs.*1 → (k, ds) ∈ gs ↔ k ∈ gs.*1 ∧ bucket_of k gs = ds.
Proof.
  induction gs as [|[k0 ds0] gs IH]; simpl; intros Hnd.
  - rewrite !elem_of_nil. tauto.
  - apply NoDup_cons in Hnd as [Hnotin Hnd]. specialize (IH Hnd).
    rewrite elem_of_cons, elem_of_cons, IH. case_decide; subst.
    + split.
      * intros [Heq | [Hin _]]; [inversion Heq; auto | by destruct Hnotin].
      * intros [_ ->]. by left.
    + split.
      * intros [Heq | [Hin Hb]]; [inversion Heq; by subst | auto].
      * intros [[Heq | Hin] Hb]; [done | auto].
Qed.

Lemma bucket_of_absent k gs : k ∉ gs.*1 → bucket_of k gs = [].
Proof.
  induction gs as [|[k0 ds0] gs IH]; simpl; [done|].
  intros Hnotin. apply not_elem_of_cons in Hnotin as [Hne Hnotin].
  rewrite decide_False by done. auto.
Qed.

Variable key : D → K.

Lemma group_by_snoc docs d :
  group_by key (docs ++ [d]) = bucket (key d) d (group_by key docs).
Proof. unfold group_by. by rewrite foldl_app. Qed.

Lemma group_by_NoDup docs : NoDup (group_by key docs).*1.
Proof.
  induction docs as [|d docs IH] using rev_ind.
  - apply NoDup_nil_2.
  - rewrite group_by_snoc. by apply bucket_NoDup.
Qed.

Lemma group_by_bucket_of docs k :
  bucket_of k (group_by key docs) = filter (λ d, key d = k) docs.
Proof.
  induction docs as [|d docs IH] using rev_ind; [done|].
  rewrite group_by_snoc, bucket_of_bucket, IH, filter_app.
  f_equal. rewrite filter_cons, filter_nil.
  repeat case_decide; congruence.
Qed.

Lemma group_by_keys docs k :
  k ∈ (group_by key docs).*1 ↔ ∃ d, d ∈ docs ∧ key d = k.
Proof.
  induction docs as [|d docs IH] using rev_ind.
  - simpl. rewrite elem_of_nil. split; [done|].
    intros (d & Hd & _). by apply elem_of_nil in Hd.
  - rewrite group_by_snoc, bucket_keys, IH. split.
    + intros [-> | (d' & Hd' & Hk)].
      * exists d. split; [|done]. apply elem_of_app. right. left.
      * exists d'. split; [|done]. apply elem_of_app. by left.
    + intros (d' & Hd' & Hk). apply elem_of_app in Hd' as [Hd' | Hd'].
      * right. eauto.
      * left. apply list_elem_of_singleton in Hd'. by subst.
Qed.

Lemma group_by_sizes docs :
  sum_list (length <$> (group_by key docs).*2) = length docs.
Proof.
  induction docs as [|d docs IH] using rev_ind; [done|].
  rewrite group_by_snoc, bucket_sizes, IH, length_app. simpl. lia.
Qed.

(** The buckets are the non-empty classes of the documents by key,
    each in document order, and no key has two buckets. *)
Lemma group_by_spec docs k ds :
  (k, ds) ∈ group_by key docs
  ↔ ds = filter (λ d, key d = k) docs ∧ ds ≠ [].
Proof.
  rewrite bucket_of_elem by apply group_by_NoDup.
  rewrite group_by_keys, group_by_bucket_of. split.
  - intros [(d & Hin & Hk) <-]. split; [done|].
    intros Hnil. assert (d ∈ filter (λ d, key d = k) docs) as Hd
      by (apply list_elem_of_filter; auto).
    rewrite Hnil in Hd. by apply not_elem_of_nil in Hd.
  - intros [-> Hne]. split; [|done].
    destruct (filter (λ d, key d = k) docs) as [|d l] eqn:Hf; [done|].
    exists d. assert (d ∈ filter (λ d, key d = k) docs) as Hd
      by (rewrite Hf; left).
    by apply list_elem_of_filter in Hd as [? ?].
Qed.
End GroupFacts.

(** ** Facts about the enumerations *)

Lemma status_name_inj s1 s2 : status_name s1 = status_name s2 → s1 = s2.
Proof. by destruct s1, s2. Qed.

Lemma status_name_not_total s : status_name s ≠ "total"%string.
Proof. by destruct s. Qed.

Lemma type_name_inj t1 t2 : type_name t1 = type_name t2 → t1 = t2.
Proof. by destruct t1, t2. Qed.

Lemma length_by_status (jobs : list Job) :
  length jobs
  = (with_status applied jobs + with_status interviewing jobs
     + with_status offered jobs + with_status rejected jobs
     + with_status withdrawn jobs)%nat.
Proof.
  unfold with_status. induction jobs as [|j jobs IH]; [done|].
  rewrite !filter_cons. simpl.
  destruct (status j); repeat case_decide; try done; simpl; lia.
Qed.

(** ** The stats view *)

Section StatsFacts.
Implicit Types (o : gmap string nat) (L : list (Status * nat)).

Lemma stats_step_other o s c s' :
  s' ≠ s → Stats.step o (s, c) !! status_name s' = o !! status_name s'.
Proof.
  intros Hne. unfold Stats.step. simpl.
  rewrite lookup_insert_ne by (by intros Heq; apply (status_name_not_total s')).
  rewrite lookup_insert_ne; [done|].
  intros Heq. by apply status_name_inj in Heq.
Qed.

Lemma stats_step_same o s c :
  Stats.step o (s, c) !! status_name s = Some c.
Proof.
  unfold Stats.step. simpl.
  rewrite lookup_insert_ne by (by intros Heq; apply (status_name_not_total s)).
  by rewrite lookup_insert_eq.
Qed.

Lemma stats_step_total o s c t :
  o !! "total"%string = Some t →
  Stats.step o (s, c) !! "total"%string = Some (t + c)%nat.
Proof.
  intros Ht. unfold Stats.step. simpl. rewrite lookup_insert_eq.
  rewrite lookup_insert_ne by apply status_name_not_total.
  by rewrite Ht.
Qed.

Lemma stats_step_dom o s c :
  "total"%string ∈ dom o → status_name s ∈ dom o →
  dom (Stats.step o (s, c)) = dom o.
Proof.
  intros Ht Hs. unfold Stats.step. simpl. rewrite !dom_insert_L.
  apply set_eq. intros x. rewrite !elem_of_union, !elem_of_singleton.
  split; [|tauto]. intros [-> | [-> | Hx]]; done.
Qed.

Lemma stats_fold_absent L : ∀ o s,
  s ∉ L.*1 → foldl Stats.step o L !! status_name s = o !! status_name s.
Proof.
  induction L as [|[s0 c0] L IH]; intros o s Hnotin; [done|].
  simpl in Hnotin. apply not_elem_of_cons in Hnotin as [Hne Hnotin].
  simpl. rewrite IH by done. by apply stats_step_other.
Qed.

Lemma stats_fold_present L : ∀ o s c,
  NoDup L.*1 → (s, c) ∈ L → foldl Stats.step o L !! status_name s = Some c.
Proof.
  induction L as [|[s0 c0] L IH]; intros o s c Hnd Hin.
  - by apply elem_of_nil in Hin.
  - simpl in Hnd. apply NoDup_cons in Hnd as [Hnotin Hnd].
    apply elem_of_cons in Hin as [Heq | Hin]; simpl.
    + inversion Heq; subst. rewrite stats_fold_absent by done.
      apply stats_step_same.
    + by apply IH.
Qed.

Lemma stats_fold_total L : ∀ o t,
  o !! "total"%string = Some t →
  foldl Stats.step o L !! "total"%string = Some (t + sum_list L.*2)%nat.
Proof.
  induction L as [|[s0 c0] L IH]; intros o t Ht; simpl.
  - by rewrite Nat.add_0_r.
  - rewrite (IH _ (t + c0)%nat) by (by apply stats_step_total).
    f_equal. unfold fmap. lia.
Qed.

Lemma stats_fold_dom L : ∀ o,
  "total"%string ∈ dom o → (∀ s, status_name s ∈ dom o) →
  dom (foldl Stats.step o L) = dom o.
Proof.
  induction L as [|[s0 c0] L IH]; intros o Ht Hs; [done|].
  simpl. assert (dom (Stats.step o (s0, c0)) = dom o) as Hd
    by (by apply stats_step_dom).
  rewrite IH; rewrite ?Hd; done.
Qed.
End StatsFacts.

(** What [getUserStats] returns: one document per status that occurs
    among the user's records, with the number of those records. *)
Lemma getUserStats_spec (userId : ObjectId) (db : list Job) :
  let stats := (Stats.getUserStats userId db).2 in
  NoDup stats.*1
  ∧ (∀ s c, (s, c) ∈ stats
            ↔ c = with_status s (owned userId db) ∧ c ≠ 0%nat)
  ∧ sum_list stats.*2 = length (owned userId db).
Proof.
  unfold Stats.getUserStats, aggregate, owned, with_status. simpl.
  set (docs := filter (λ j, user j = userId) db).
  split; [|split].
  - rewrite <- list_fmap_compose.
    rewrite (list_fmap_ext _ fst (group_by status docs)) by done.
    apply group_by_NoDup.
  - intros s c. rewrite list_elem_of_fmap. split.
    + intros ([s' ds] & Heq & Hin). simpl in Heq. inversion Heq; subst.
      apply group_by_spec in Hin as [-> Hne]. split; [done|].
      unfold acc_count. by destruct (filter _ docs).
    + intros [-> Hne]. exists (s, filter (λ j, status j = s) docs).
      split; [done|]. apply group_by_spec. split; [done|].
      intros Hnil. by rewrite Hnil in Hne.
  - rewrite <- group_by_sizes with (key := status).
    f_equal. rewrite <- !list_fmap_compose. by apply list_fmap_ext.
Qed.

(** C2. The stats view holds exactly the six fields [total], [applied],
    [interviewing], [offered], [rejected] and [withdrawn]; each status
    field is the number of the caller's records with that status (0 when
    there is none), and [total] is the number of the caller's records,
    which is the sum of the five status fields. *)
Theorem stats_fields_and_totals (req : Request) (db : list Job) :
  ∃ statsObj : gmap string nat,
    (Stats.handler req db).2 = res_json statsObj
    ∧ dom statsObj
      = ({[ "total"; "applied"; "interviewing"; "offered"; "rejected";
            "withdrawn" ]}%string : gset string)
    ∧ (∀ s, statsObj !! status_name s
            = Some (with_status s (owned (req_user req) db)))
    ∧ statsObj !! "total"%string = Some (length (owned (req_user req) db))
    ∧ length (owned (req_user req) db)
      = (with_status applied (owned (req_user req) db)
         + with_status interviewing (owned (req_user req) db)
         + with_status offered (owned (req_user req) db)
         + with_status rejected (owned (req_user req) db)
         + with_status withdrawn (owned (req_user req) db))%nat.
Proof.
  destruct (getUserStats_spec (req_user req) db) as (Hnd & Hin & Hsum).
  set (stats := (Stats.getUserStats (req_user req) db).2) in *.
  exists (foldl Stats.step Stats.statsObj_init stats).
  split; [done|]. split; [|split; [|split]].
  - rewrite stats_fold_dom.
    + unfold Stats.statsObj_init. rewrite !dom_insert_L, dom_empty_L.
      set_solver.
    + apply elem_of_dom. by exists 0%nat.
    + intros s. apply elem_of_dom. exists 0%nat. by destruct s.
  - intros s.
    destruct (decide (with_status s (owned (req_user req) db) = 0%nat)) as [Hz|Hnz].
    + rewrite stats_fold_absent.
      * rewrite Hz. by destruct s.
      * intros Hs. apply list_elem_of_fmap in Hs as ([s' c] & -> & Hsc).
        apply Hin in Hsc as [-> Hc]. done.
    + apply stats_fold_present; [done|]. by apply Hin.
  - erewrite stats_fold_total by (by vm_compute). by rewrite Hsum.
  - apply length_by_status.
Qed.

(** ** Rounding to two decimals *)

Lemma of_nat_pos_compare (d : nat) :
  (0 < d)%nat → (inject_Z (Z.of_nat d) ?= 0)%Q = Gt.
Proof.
  intros Hd. apply Qgt_alt. change 0%Q with (inject_Z 0).
  rewrite <- Zlt_Qlt. lia.
Qed.

Lemma round2_Fin (q : Q) : round2 (Fin q) = Fin (half_up_2dp q).
Proof.
  unfold round2, half_up_2dp, js_mul, Math_round, js_div, of_nat.
  rewrite of_nat_pos_compare by lia. f_equal. apply Qred_complete.
  rewrite (Qfloor_comp (Qred (q * inject_Z (Z.of_nat 100)) + (1 # 2))
                       (q * 100 + (1 # 2))); [reflexivity|].
  rewrite Qred_correct. reflexivity.
Qed.

Lemma half_up_2dp_rounds (x : Q) : rounds_half_up_2dp x (half_up_2dp x).
Proof.
  unfold rounds_half_up_2dp, half_up_2dp.
  pose proof (Qfloor_le (x * 100 + (1 # 2))) as Hlo.
  pose proof (Qlt_floor (x * 100 + (1 # 2))) as Hhi.
  rewrite inject_Z_plus in Hhi.
  set (n := Qfloor (x * 100 + (1 # 2))) in *.
  set (N := inject_Z n) in *. change (inject_Z 1) with 1%Q in Hhi.
  exists n. fold N. split; [apply Qred_correct|].
  rewrite Qred_correct. clearbody N. unfold Qdiv.
  change (/ 100)%Q with (1 # 100)%Q. split.
  - apply Qabs_Qle_condition. split; lra.
  - apply Qabs_case; intros; lra.
Qed.

Lemma half_up_2dp_rounds_nearest (x : Q) : rounds_2dp x (half_up_2dp x).
Proof.
  destruct (half_up_2dp_rounds x) as (n & Hn & Hnear & _). by exists n.
Qed.

Lemma half_up_2dp_range (x : Q) :
  (0 <= x)%Q → (x <= 100)%Q → (0 <= half_up_2dp x)%Q ∧ (half_up_2dp x <= 100)%Q.
Proof.
  intros H0 H100. unfold half_up_2dp. rewrite Qred_correct.
  assert (0 ≤ Qfloor (x * 100 + (1 # 2)) ≤ 10000) as [Hlo Hhi].
  { split.
    - change 0 with (Qfloor (inject_Z 0)). apply Qfloor_resp_le.
      change (inject_Z 0) with 0%Q. lra.
    - change 10000 with (Qfloor (inject_Z 10000 + (1 # 2))).
      apply Qfloor_resp_le. change (inject_Z 10000) with 10000%Q. lra. }
  rewrite Zle_Qle in Hlo, Hhi.
  change (inject_Z 0) with 0%Q in Hlo. change (inject_Z 10000) with 10000%Q in Hhi.
  unfold Qdiv. change (/ 100)%Q with (1 # 100)%Q.
  split; lra.
Qed.

(** [percentage n d] approached the way the handlers compute it. *)
Lemma ratio_times_100 (n d : nat) :
  (0 < d)%nat →
  js_mul (js_div (of_nat n) (of_nat d)) (of_nat 100)
  = Fin (Qred (Qred (inject_Z (Z.of_nat n) / inject_Z (Z.of_nat d)) * 100)).
Proof.
  intros Hd. unfold js_div, js_mul, of_nat.
  by rewrite of_nat_pos_compare.
Qed.

Lemma ratio_is_percentage (n d : nat) :
  (0 < d)%nat →
  (Qred (Qred (inject_Z (Z.of_nat n) / inject_Z (Z.of_nat d)) * 100)
   == percentage n d)%Q.
Proof.
  intros Hd. unfold percentage. rewrite !Qred_correct.
  assert (~ inject_Z (Z.of_nat d) == 0)%Q as Hnz.
  { intros Heq. change 0%Q with (inject_Z 0) in Heq.
    apply (proj1 (inject_Z_injective _ _)) in Heq. lia. }
  field. done.
Qed.

Lemma half_up_2dp_comp (x y : Q) : (x == y)%Q → half_up_2dp x = half_up_2dp y.
Proof.
  intros Heq. unfold half_up_2dp. apply Qred_complete.
  rewrite (Qfloor_comp (x * 100 + (1 # 2)) (y * 100 + (1 # 2))); [reflexivity|].
  by rewrite Heq.
Qed.

Lemma percentage_range (n d : nat) :
  (0 < d)%nat → (n ≤ d)%nat → (0 <= percentage n d)%Q ∧ (percentage n d <= 100)%Q.
Proof.
  intros Hd Hn. unfold percentage.
  assert (0 < inject_Z (Z.of_nat d))%Q as Hpos.
  { change 0%Q with (inject_Z 0). rewrite <- Zlt_Qlt. lia. }
  assert (0 <= inject_Z (Z.of_nat n))%Q as Hn0.
  { change 0%Q with (inject_Z 0). rewrite <- Zle_Qle. lia. }
  assert (inject_Z (Z.of_nat n) <= inject_Z (Z.of_nat d))%Q as Hnd.
  { rewrite <- Zle_Qle. lia. }
  split.
  - apply Qle_shift_div_l; [done|]. lra.
  - apply Qle_shift_div_r; [done|]. lra.
Qed.

(** The success rate of a company or location group. *)
Lemma success_rate_spec (total successful : nat) :
  (0 < total)%nat →
  round2 (success_percentage total successful)
  = Fin (half_up_2dp (percentage successful total)).
Proof.
  intros Hd. unfold success_percentage.
  rewrite (proj2 (Nat.ltb_lt 0 total)) by done.
  rewrite ratio_times_100, round2_Fin by done.
  f_equal. apply half_up_2dp_comp. by apply ratio_is_percentage.
Qed.

(** The rates of the interview and trend views:
    [Math.round((n / d) * 100 * 100) / 100]. *)
Lemma rate_expression_spec (n d : nat) :
  (0 < d)%nat →
  js_div
    (Math_round
       (js_mul (js_mul (js_div (of_nat n) (of_nat d)) (of_nat 100)) (of_nat 100)))
    (of_nat 100)
  = Fin (half_up_2dp (percentage n d)).
Proof.
  intros Hd. rewrite ratio_times_100 by done.
  change (js_div (Math_round (js_mul ?x (of_nat 100))) (of_nat 100))
    with (round2 x).
  rewrite round2_Fin. f_equal. apply half_up_2dp_comp.
  by apply ratio_is_percentage.
Qed.

Lemma successful_of_le (statuses : list Status) :
  (successful_of statuses ≤ length statuses)%nat.
Proof. unfold successful_of. apply length_filter. Qed.

(** ** Facts about [$sort] and [$limit] *)

Lemma sort_stage_elem {A} (R : relation A) `{∀ x y, Decision (R x y)}
  (l : list A) (x : A) : x ∈ sort_stage R l ↔ x ∈ l.
Proof. unfold sort_stage. by rewrite merge_sort_Permutation. Qed.

Lemma sort_stage_length {A} (R : relation A) `{∀ x y, Decision (R x y)}
  (l : list A) : length (sort_stage R l) = length l.
Proof. unfold sort_stage. by rewrite merge_sort_Permutation. Qed.

Lemma sort_stage_NoDup {A B} (f : A → B) (R : relation A)
  `{∀ x y, Decision (R x y)} (l : list A) :
  NoDup (f <$> l) → NoDup (f <$> sort_stage R l).
Proof. unfold sort_stage. by rewrite merge_sort_Permutation. Qed.


(** A list sorted by a preorder on keys that has no key twice is
    strictly sorted. *)
Lemma StronglySorted_strict {A} (R : relation A) (l : list A) :
  StronglySorted R l → NoDup l → StronglySorted (λ a b, R a b ∧ a ≠ b) l.
Proof.
  induction 1 as [|x l Hs IH Hall]; intros Hnd; constructor.
  - apply IH. by apply NoDup_cons in Hnd as [_ ?].
  - apply NoDup_cons in Hnd as [Hnotin _].
    rewrite Forall_forall in Hall |- *. intros y Hy. split; [by apply Hall|].
    intros ->. done.
Qed.

#[local] Instance by_count_desc_total : Total Companies.by_count_desc.
Proof. intros a b. unfold Companies.by_count_desc. lia. Qed.
#[local] Instance by_count_desc_trans : Transitive Companies.by_count_desc.
Proof. intros a b c. unfold Companies.by_count_desc. lia. Qed.
#[local] Instance loc_by_count_desc_total : Total Locations.by_count_desc.
Proof. intros a b. unfold Locations.by_count_desc. lia. Qed.
#[local] Instance loc_by_count_desc_trans : Transitive Locations.by_count_desc.
Proof. intros a b c. unfold Locations.by_count_desc. lia. Qed.
#[local] Instance by_year_month_total : Total Timeline.by_year_month.
Proof. intros a b. unfold Timeline.by_year_month. lia. Qed.
#[local] Instance by_year_month_trans : Transitive Timeline.by_year_month.
Proof. intros a b c. unfold Timeline.by_year_month. lia. Qed.

(** ** Facts about the grouped documents *)

Lemma grouped_elem {D K X} `{EqDecision K} (key : D → K)
  (mk : K * list D → X) (docs : list D) (x : X) :
  x ∈ mk <$> group_by key docs
  ↔ ∃ k, x = mk (k, filter (λ d, key d = k) docs)
         ∧ filter (λ d, key d = k) docs ≠ [].
Proof.
  rewrite list_elem_of_fmap. split.
  - intros ([k ds] & -> & Hin). apply group_by_spec in Hin as [-> Hne]. eauto.
  - intros (k & -> & Hne). eexists. split; [done|]. by apply group_by_spec.
Qed.

Lemma filter_nonempty {A} (P : A → Prop) `{∀ x, Decision (P x)} (l : list A) :
  filter P l ≠ [] ↔ ∃ x, x ∈ l ∧ P x.
Proof.
  split.
  - destruct (filter P l) as [|x l'] eqn:Hf; [done|]. intros _.
    assert (x ∈ filter P l) as Hx by (rewrite Hf; left).
    apply list_elem_of_filter in Hx as [? ?]. eauto.
  - intros (x & Hin & HP) Hnil.
    assert (x ∈ filter P l) as Hx by (by apply list_elem_of_filter).
    rewrite Hnil in Hx. by apply elem_of_nil in Hx.
Qed.

(** ** The status breakdown of a group *)

Lemma tally_statuses_lookup (statuses : list Status) (s : Status) :
  tally_statuses statuses !! status_name s
  = let n := length (filter (λ x, x = s) statuses) in
    if decide (n = 0%nat) then None else Some n.
Proof.
  unfold tally_statuses.
  induction statuses as [|x statuses IH] using rev_ind; [done|].
  rewrite foldl_snoc, filter_app, length_app, filter_cons, filter_nil.
  simpl in *. destruct (decide (x = s)) as [->|Hne].
  - rewrite lookup_insert_eq, IH. simpl.
    repeat case_decide; simpl; try lia; f_equal; lia.
  - rewrite lookup_insert_ne by (intros Heq; by apply status_name_inj in Heq).
    rewrite IH. simpl. repeat case_decide; simpl; try lia; f_equal; lia.
Qed.

Lemma tally_statuses_keys (statuses : list Status) (k : string) :
  is_Some (tally_statuses statuses !! k) → ∃ s, k = status_name s.
Proof.
  unfold tally_statuses.
  induction statuses as [|x statuses IH] using rev_ind.
  - simpl. rewrite lookup_empty. by intros [? ?].
  - rewrite foldl_snoc. destruct (decide (status_name x = k)) as [<-|Hne].
    + eauto.
    + by rewrite lookup_insert_ne.
Qed.

(** ** Calendar facts *)

Lemma civil_month_range (z : Z) : 1 ≤ (civil_from_days z).1.2 ≤ 12.
Proof.
  unfold civil_from_days. simpl.
  set (doe := z + 719468 - (z + 719468) / 146097 * 146097).
  assert (0 ≤ doe ≤ 146096) as Hdoe
    by (subst doe; Z.to_euclidean_division_equations; lia).
  clearbody doe.
  set (yoe := (doe - doe / 1460 + doe / 36524 - doe / 146096) / 365).
  set (doy := doe - (365 * yoe + yoe / 4 - yoe / 100)).
  assert (0 ≤ doy ≤ 365) as Hdoy
    by (subst doy yoe; Z.to_euclidean_division_equations; lia).
  clearbody doy.
  assert (0 ≤ (5 * doy + 2) / 153 ≤ 11) as Hmp
    by (Z.to_euclidean_division_equations; lia).
  destruct ((5 * doy + 2) / 153 <? 10) eqn:Hlt; lia.
Qed.

Lemma mongo_month_range (t : Z) : 1 ≤ mongo_month t ≤ 12.
Proof. apply civil_month_range. Qed.

(** ** Rendering of periods *)

Lemma month_padded (m : Z) :
  1 ≤ m ≤ 12 → padStart 2 "0" (Number_toString m) = two_digits m.
Proof.
  intros Hm.
  assert (m ∈ seqZ 1 12) as Hin by (apply elem_of_seqZ; lia).
  clear Hm. revert m Hin. apply Forall_forall.
  apply (bool_decide_unpack _). by vm_compute.
Qed.

Lemma year_four_digits (y : Z) :
  1000 ≤ y ≤ 9999 → Number_toString y = four_digits y.
Proof.
  intros Hy.
  assert (y ∈ seqZ 1000 9000) as Hin by (apply elem_of_seqZ; lia).
  clear Hy. revert y Hin. apply Forall_forall.
  apply (bool_decide_unpack _). by vm_compute.
Qed.

(** ** Decimal notation read back *)

Lemma digit_of_digit_char (d : Z) : 0 ≤ d ≤ 9 → digit_of (digit_char d) = Some d.
Proof.
  intros Hd. assert (d ∈ seqZ 0 10) as Hin by (apply elem_of_seqZ; lia).
  clear Hd. revert d Hin. apply Forall_forall.
  apply (bool_decide_unpack _). by vm_compute.
Qed.

(** The digits [decimal_digits] puts in front of [acc] denote [n]: read
    back, they shift what was read before and add [n].  The fuel given
    by the number of binary digits suffices. *)
Lemma decimal_digits_value (fuel : nat) : ∀ (n : Z) (acc : string) (a : Z),
  0 ≤ n < 2 ^ Z.of_nat fuel → (0 < fuel)%nat →
  ∃ k : Z, 0 < k
    ∧ digits_value (decimal_digits fuel n acc) a
      = digits_value acc (a * 10 ^ k + n).
Proof.
  induction fuel as [|fuel IH]; intros n acc a Hn Hfuel; [lia|].
  simpl decimal_digits.
  assert (0 ≤ n mod 10 ≤ 9) as Hmod by (pose proof (Z.mod_pos_bound n 10); lia).
  destruct (n <? 10) eqn:Hlt.
  - apply Z.ltb_lt in Hlt. exists 1. split; [lia|].
    simpl. rewrite digit_of_digit_char by done.
    rewrite Z.mod_small by lia. f_equal. lia.
  - apply Z.ltb_ge in Hlt.
    assert (0 < fuel)%nat as Hpos.
    { destruct fuel; [|lia]. simpl in Hn. lia. }
    destruct (IH (n / 10) (String (digit_char (n mod 10)) acc) a) as (k & Hk & Heq);
      [|done|].
    { rewrite Nat2Z.inj_succ, Z.pow_succ_r in Hn by lia.
      split; [apply Z.div_pos; lia|].
      apply Z.div_lt_upper_bound; lia. }
    exists (k + 1). split; [lia|]. rewrite Heq. simpl.
    rewrite digit_of_digit_char by done. f_equal.
    rewrite Z.pow_add_r by lia.
    pose proof (Z.div_mod n 10). lia.
Qed.

Lemma unsigned_of_digits (s : string) (n : Z) :
  digits_value s 0 = Some n → s ≠ EmptyString →
  int_literal s = Some n ∧ unsigned_literal s = Some n.
Proof.
  intros Hv Hne. destruct s as [|c s]; [done|].
  assert (unsigned_literal (String c s) = Some n) as Hu by done.
  split; [|done]. rewrite <- Hu.
  simpl in Hv. destruct (digit_of c) as [d|] eqn:Hd; [|done].
  assert (c ≠ "+"%char ∧ c ≠ "-"%char) as [Hplus Hminus]
    by (split; intros ->; done).
  unfold int_literal. destruct c as [[] [] [] [] [] [] [] []]; done.
Qed.

Lemma decimal_digits_nonempty (fuel : nat) (n : Z) (acc : string) :
  (0 < fuel)%nat → decimal_digits fuel n acc ≠ EmptyString.
Proof.
  revert n acc. induction fuel as [|fuel IH]; intros n acc Hfuel; [lia|].
  simpl. destruct (n <? 10); [done|].
  destruct fuel as [|fuel']; [done|]. apply IH. lia.
Qed.

Lemma natural_digits (n : Z) :
  0 ≤ n →
  digits_value (decimal_digits (S (Z.to_nat (Z.log2 n))) n "") 0 = Some n.
Proof.
  intros Hn.
  destruct (decimal_digits_value (S (Z.to_nat (Z.log2 n))) n "" 0)
    as (k & _ & ->); [|lia|simpl; f_equal; lia].
  split; [done|].
  rewrite Nat2Z.inj_succ, Z2Nat.id by apply Z.log2_nonneg.
  destruct (decide (n = 0)) as [->|]; [done|].
  apply Z.log2_spec. lia.
Qed.

(** What [Number_toString] prints, [int_literal] reads back. *)
Lemma int_literal_Number_toString (n : Z) :
  int_literal (Number_toString n) = Some n.
Proof.
  unfold Number_toString. destruct (n <? 0) eqn:Hneg.
  - apply Z.ltb_lt in Hneg.
    change (int_literal (String "-" ?s)) with (Z.opp <$> unsigned_literal s).
    destruct (unsigned_of_digits _ (Z.abs n) (natural_digits _ (Z.abs_nonneg n)))
      as [_ ->]; [apply decimal_digits_nonempty; lia|].
    simpl. f_equal. lia.
  - apply Z.ltb_ge in Hneg. rewrite Z.abs_eq by done.
    apply unsigned_of_digits; [by apply natural_digits|].
    apply decimal_digits_nonempty. lia.
Qed.

(** The decimal notation of a number outside a range is not accepted
    for the range. *)
Lemma number_out_of_range (lo hi n : Z) :
  ¬ (lo ≤ n ≤ hi) → invalid_int lo hi (Number_toString n).
Proof.
  intros Hout m Hm. rewrite int_literal_Number_toString in Hm.
  by inversion Hm; subst.
Qed.

(** ** Validation and parameters *)

Lemma digit_not_whitespace (c : ascii) (d : Z) :
  digit_of c = Some d → is_whitespace c = false.
Proof.
  unfold digit_of, is_whitespace. intros Hd.
  destruct (48 <=? Z.of_N (N_of_ascii c)) eqn:Hlo; [|done].
  apply Z.leb_le in Hlo.
  apply orb_false_intro.
  - apply andb_false_intro2. apply N.leb_gt. lia.
  - apply N.eqb_neq. lia.
Qed.

Lemma digits_prefix_all (s : string) : ∀ (acc : option Z) (v : Z),
  digits_value s (default 0 acc) = Some v →
  s ≠ EmptyString ∨ is_Some acc →
  digits_prefix s acc = Some v.
Proof.
  induction s as [|c s IH]; intros acc v Hv Hne; simpl in *.
  - destruct Hne as [? | [a ->]]; [done|]. simpl in Hv. by inversion Hv.
  - destruct (digit_of c) as [d|]; [|done].
    apply IH; [done|]. right. eauto.
Qed.

(** On a string [isInt] accepts, [parseInt] returns the number the
    string denotes. *)
Lemma parseInt_int_literal (s : string) (n : Z) :
  int_literal s = Some n → parseInt (Some s) = Some n.
Proof.
  assert (∀ r v, unsigned_literal r = Some v → digits_prefix r None = Some v)
    as Hu.
  { intros r v Hr. destruct r as [|c r]; [done|].
    apply digits_prefix_all; [done | by left]. }
  destruct s as [|c s]; [done|].
  destruct (decide (c = "+"%char)) as [-> | Hplus]; [by apply Hu|].
  destruct (decide (c = "-"%char)) as [-> | Hminus].
  { change (int_literal (String "-" s)) with (Z.opp <$> unsigned_literal s).
    change (parseInt (Some (String "-" s)))
      with (Z.opp <$> digits_prefix s None).
    destruct (unsigned_literal s) as [v|] eqn:Hv; [|done].
    by rewrite (Hu _ _ Hv). }
  assert (int_literal (String c s) = unsigned_literal (String c s)) as ->.
  { unfold int_literal.
    destruct c as [[] [] [] [] [] [] [] []]; try done. }
  intros Hlit. pose proof Hlit as Hdig. simpl in Hdig.
  destruct (digit_of c) as [d|] eqn:Hd; [|done].
  simpl. rewrite (digit_not_whitespace _ _ Hd).
  transitivity (digits_prefix (String c s) None).
  - destruct c as [[] [] [] [] [] [] [] []]; try done.
  - by apply Hu.
Qed.

Lemma isInt_spec (lo hi : Z) (s : string) :
  isInt lo hi s = true ↔ ∃ n, int_literal s = Some n ∧ lo ≤ n ≤ hi.
Proof.
  unfold isInt. destruct (int_literal s) as [n|]; split.
  - intros Hb. apply andb_true_iff in Hb as [?%Z.leb_le ?%Z.leb_le]. eauto.
  - intros (n' & Heq & Hr). inversion Heq; subst.
    apply andb_true_iff. split; apply Z.leb_le; lia.
  - done.
  - by intros (n' & Heq & _).
Qed.

(** The value a validated integer parameter takes in a handler: the
    number passed, or the default when the parameter is absent. *)
Lemma validated_parameter (lo hi dflt : Z) (v : option string) :
  0 < lo →
  match v with Some s => isInt lo hi s = true | None => True end →
  or_default (parseInt v) dflt
  = match v with
    | Some s => default dflt (int_literal s)
    | None => dflt
    end
  ∧ (is_Some v → lo ≤ or_default (parseInt v) dflt ≤ hi).
Proof.
  intros Hlo Hv. destruct v as [s|]; [|split; [done | by intros [? ?]]].
  apply isInt_spec in Hv as (n & Hn & Hr).
  rewrite (parseInt_int_literal _ _ Hn), Hn. simpl.
  destruct (n =? 0) eqn:Hz; [apply Z.eqb_eq in Hz; lia|].
  split; [done | by intros _].
Qed.

Lemma validation_single (fields : gmap string string) (l : string) (c : Chain) :
  validationResult fields l [c] = run_chain fields l c.
Proof. unfold validationResult. simpl. by rewrite app_nil_r. Qed.

(** A route with one optional chain: no error exactly when the parameter
    is absent or passes the validator. *)
Lemma optional_chain_passes (fields : gmap string string) (l : string)
  (c : Chain) :
  optional c = true →
  isEmpty (validationResult fields l [c])
  = match fields !! field c with
    | Some v => validator c v
    | None => true
    end.
Proof.
  intros Hopt. rewrite validation_single. unfold run_chain.
  destruct (fields !! field c) as [v|]; [|by rewrite Hopt].
  by destruct (validator c v).
Qed.

(** ** The handlers on accepted and on rejected requests *)

Lemma timeline_accepted (now : Z) (req : Request) (db : list Job) :
  valid_int_param 1 24 (query req !! "months"%string) →
  Timeline.handler now req db
  = (1%nat,
     res_json (Timeline.format
               <$> Timeline.pipeline (req_user req)
                     (setMonth now
                        (getMonth now
                         - or_default (parseInt (query req !! "months"%string)) 6))
                     db)).
Proof.
  intros Hv. unfold Timeline.handler, Timeline.chains.
  rewrite optional_chain_passes by done. simpl.
  destruct (query req !! "months"%string) as [s|]; simpl in *.
  - by rewrite Hv.
  - done.
Qed.

Lemma timeline_rejected (now : Z) (req : Request) (db : list Job) (s : string) :
  query req !! "months"%string = Some s → isInt 1 24 s = false →
  Timeline.handler now req db
  = (0%nat,
     res_validation_failed
       [{| msg := "Months must be between 1 and 24"; param := "months";
           value := Some s; where_ := "query" |}]).
Proof.
  intros Hq Hv. unfold Timeline.handler, Timeline.chains.
  rewrite validation_single. unfold run_chain. simpl. by rewrite Hq, Hv.
Qed.

Lemma companies_accepted (now : Z) (req : Request) (db : list Job) :
  valid_int_param 1 50 (query req !! "limit"%string) →
  Companies.handler now req db
  = (1%nat,
     res_json (Companies.with_success_rate
               <$> Companies.pipeline (req_user req) now
                     (or_default (parseInt (query req !! "limit"%string)) 10) db)).
Proof.
  intros Hv. unfold Companies.handler, Companies.chains.
  rewrite optional_chain_passes by done. simpl.
  destruct (query req !! "limit"%string) as [s|]; simpl in *.
  - by rewrite Hv.
  - done.
Qed.

Lemma companies_rejected (now : Z) (req : Request) (db : list Job) (s : string) :
  query req !! "limit"%string = Some s → isInt 1 50 s = false →
  Companies.handler now req db
  = (0%nat,
     res_validation_failed
       [{| msg := "Limit must be between 1 and 50"; param := "limit";
           value := Some s; where_ := "query" |}]).
Proof.
  intros Hq Hv. unfold Companies.handler, Companies.chains.
  rewrite validation_single. unfold run_chain. simpl. by rewrite Hq, Hv.
Qed.

(** Every period the validator admits is a case of the [switch]. *)
Lemma Trends_window_defined (mongo_week mongo_quarter : Z → Z) (now : Z)
  (req : Request) :
  valid_period (query req !! "period"%string) →
  ∃ dateFormat startDate,
    Trends.window mongo_week mongo_quarter now (Trends.period_of req)
    = Some (dateFormat, startDate).
Proof.
  unfold valid_period, Trends.period_of, Trends.window.
  destruct (query req !! "period"%string) as [p|]; [|intros _; simpl; eauto].
  intros Hp. apply bool_decide_eq_true in Hp.
  repeat (apply elem_of_cons in Hp as [-> | Hp]; [simpl; eauto|]).
  by apply elem_of_nil in Hp.
Qed.

Lemma trends_accepted (mongo_week mongo_quarter : Z → Z) (now : Z)
  (req : Request) (db : list Job) :
  valid_period (query req !! "period"%string) →
  Trends.period_of req ≠ "quarter"%string →
  ∃ dateFormat startDate,
    Trends.window mongo_week mongo_quarter now (Trends.period_of req)
    = Some (dateFormat, startDate)
    ∧ Trends.handler mongo_week mongo_quarter now req db
      = (1%nat,
         res_json
           {| Trends.period := Trends.period_of req;
              Trends.trends :=
                Trends.with_conversion
                <$> Trends.pipeline (req_user req) dateFormat startDate db |}).
Proof.
  intros Hv Hq.
  destruct (Trends_window_defined mongo_week mongo_quarter now req Hv)
    as (dateFormat & startDate & Hw).
  exists dateFormat, startDate. split; [done|].
  unfold Trends.handler, Trends.chains.
  rewrite optional_chain_passes by done. simpl.
  replace (match query req !! "period"%string with
           | Some v => isIn ["week"; "month"; "quarter"; "year"]%string v
           | None => true
           end) with true.
  - simpl. rewrite Hw. by rewrite decide_False.
  - unfold valid_period in Hv.
    by destruct (query req !! "period"%string).
Qed.

(** The period [quarter]: the store rejects the pipeline, whatever it
    holds. *)
Lemma trends_quarter_rejected (mongo_week mongo_quarter : Z → Z) (now : Z)
  (req : Request) (db : list Job) :
  Trends.period_of req = "quarter"%string →
  Trends.handler mongo_week mongo_quarter now req db
  = (1%nat, Trends.unrecognized_expression).
Proof.
  intros Hq. unfold Trends.handler, Trends.chains.
  rewrite optional_chain_passes by done. simpl.
  assert (query req !! "period"%string = Some "quarter"%string) as Hp.
  { unfold Trends.period_of in Hq.
    destruct (query req !! "period"%string) as [p|]; [|done].
    destruct (decide (p = ""%string)); [done | by rewrite Hq]. }
  rewrite Hp, Hq. done.
Qed.

Lemma trends_rejected (mongo_week mongo_quarter : Z → Z) (now : Z)
  (req : Request) (db : list Job) (s : string) :
  query req !! "period"%string = Some s →
  isIn ["week"; "month"; "quarter"; "year"]%string s = false →
  Trends.handler mongo_week mongo_quarter now req db
  = (0%nat,
     res_validation_failed
       [{| msg := "Period must be week, month, quarter, or year";
           param := "period"; value := Some s; where_ := "query" |}]).
Proof.
  intros Hq Hv. unfold Trends.handler, Trends.chains.
  rewrite validation_single. unfold run_chain. simpl. by rewrite Hq, Hv.
Qed.

(** ** Scoping by owner *)

Lemma match_owned (userId : ObjectId) (P : Job → Prop) `{∀ j, Decision (P j)}
  (db : list Job) :
  filter (λ j, user j = userId ∧ P j) db = filter P (owned userId db).
Proof.
  unfold owned. induction db as [|j db IH]; [done|].
  rewrite !filter_cons. destruct (decide (user j = userId)) as [Hu|Hu].
  - rewrite filter_cons. destruct (decide (P j)) as [HP|HP].
    + rewrite decide_True by done. by rewrite IH.
    + rewrite decide_False by tauto. done.
  - rewrite decide_False by tauto. done.
Qed.

Lemma stats_scoped u db1 db2 :
  owned u db1 = owned u db2 → Stats.getUserStats u db1 = Stats.getUserStats u db2.
Proof.
  intros Ho. unfold Stats.getUserStats, aggregate.
  change (filter (λ j, user j = u) db1) with (owned u db1).
  change (filter (λ j, user j = u) db2) with (owned u db2).
  by rewrite Ho.
Qed.

Lemma timeline_scoped u start db1 db2 :
  owned u db1 = owned u db2 →
  Timeline.pipeline u start db1 = Timeline.pipeline u start db2.
Proof. intros Ho. unfold Timeline.pipeline. by rewrite !match_owned, Ho. Qed.

Lemma companies_scoped u now limit db1 db2 :
  owned u db1 = owned u db2 →
  Companies.pipeline u now limit db1 = Companies.pipeline u now limit db2.
Proof.
  intros Ho. unfold Companies.pipeline.
  change (filter (λ j, user j = u) db1) with (owned u db1).
  change (filter (λ j, user j = u) db2) with (owned u db2).
  by rewrite Ho.
Qed.

Lemma locations_scoped u db1 db2 :
  owned u db1 = owned u db2 → Locations.pipeline u db1 = Locations.pipeline u db2.
Proof. intros Ho. unfold Locations.pipeline. by rewrite !match_owned, Ho. Qed.

Lemma interviews_scoped u db1 db2 :
  owned u db1 = owned u db2 → Interviews.pipeline u db1 = Interviews.pipeline u db2.
Proof. intros Ho. unfold Interviews.pipeline. by rewrite !match_owned, Ho. Qed.

Lemma trends_scoped u dateFormat start db1 db2 :
  owned u db1 = owned u db2 →
  Trends.pipeline u dateFormat start db1 = Trends.pipeline u dateFormat start db2.
Proof. intros Ho. unfold Trends.pipeline. by rewrite !match_owned, Ho. Qed.

(** C1. Each of the six analytics endpoints gives the same reply on two
    stores that hold the same records of the requesting user, whatever
    records of other users they hold. *)
Theorem analytics_scoped_to_owner (mongo_week mongo_quarter : Z → Z) (now : Z)
  (req : Request) (db1 db2 : list Job) :
  owned (req_user req) db1 = owned (req_user req) db2 →
  Stats.handler req db1 = Stats.handler req db2
  ∧ Timeline.handler now req db1 = Timeline.handler now req db2
  ∧ Companies.handler now req db1 = Companies.handler now req db2
  ∧ Locations.handler req db1 = Locations.handler req db2
  ∧ Interviews.handler req db1 = Interviews.handler req db2
  ∧ Trends.handler mongo_week mongo_quarter now req db1
    = Trends.handler mongo_week mongo_quarter now req db2.
Proof.
  intros Ho. repeat split.
  - unfold Stats.handler, query_bind.
    by rewrite (stats_scoped _ _ _ Ho).
  - unfold Timeline.handler.
    destruct (negb _); [done|]. rewrite !query_bind_aggregate. simpl.
    by rewrite (timeline_scoped _ _ _ _ Ho).
  - unfold Companies.handler.
    destruct (negb _); [done|]. rewrite !query_bind_aggregate. simpl.
    by rewrite (companies_scoped _ _ _ _ _ Ho).
  - unfold Locations.handler. rewrite !query_bind_aggregate. simpl.
    by rewrite (locations_scoped _ _ _ Ho).
  - unfold Interviews.handler. rewrite !query_bind_aggregate. simpl.
    by rewrite (interviews_scoped _ _ _ Ho).
  - unfold Trends.handler.
    destruct (negb _); [done|].
    destruct (Trends.window _ _ _ _) as [[dateFormat startDate]|]; [|done].
    destruct (decide _); [done|].
    rewrite !query_bind_aggregate. simpl.
    by rewrite (trends_scoped _ _ _ _ _ Ho).
Qed.

Lemma analytics_scoped_to_owner_witness :
  owned 7%nat example_db = owned 7%nat example_db_other
  ∧ example_db ≠ example_db_other
  ∧ Stats.handler (example_request 7 []) example_db
    = Stats.handler (example_request 7 []) example_db_other
  ∧ Companies.handler example_now (example_request 7 []) example_db
    = Companies.handler example_now (example_request 7 []) example_db_other.
Proof.
  assert (owned 7%nat example_db = owned 7%nat example_db_other) as Ho
    by (vm_compute; reflexivity).
  split; [exact Ho|]. split; [discriminate|].
  destruct (analytics_scoped_to_owner example_week example_quarter example_now
              (example_request 7 []) example_db example_db_other Ho)
    as (Hs & _ & Hc & _).
  split; [exact Hs | exact Hc].
Defined.

Lemma invalid_int_rejected (lo hi : Z) (s : string) :
  invalid_int lo hi s → isInt lo hi s = false.
Proof.
  intros Hinv. destruct (isInt lo hi s) eqn:Hv; [|done].
  apply isInt_spec in Hv as (n & Hn & Hr). by destruct (Hinv n Hn).
Qed.

(** C8. A [limit] that is not an integer from 1 to 50, a [months] that
    is not an integer from 1 to 24 and a [period] that is not one of the
    four units are answered with status 400 and
    [{ success: false, message: 'Validation failed', errors }] without a
    query to the store; when [limit] or [months] is absent the pipeline
    runs with 10 or 6.  In particular the decimal notation of any number
    outside the range is rejected. *)
Theorem invalid_parameters_rejected (mongo_week mongo_quarter : Z → Z)
  (now : Z) (req : Request) (db : list Job) :
  (∀ s, query req !! "limit"%string = Some s → invalid_int 1 50 s →
        Companies.handler now req db
        = (0%nat, validation_reply "Limit must be between 1 and 50" "limit" s))
  ∧ (∀ s, query req !! "months"%string = Some s → invalid_int 1 24 s →
          Timeline.handler now req db
          = (0%nat, validation_reply "Months must be between 1 and 24" "months" s))
  ∧ (∀ s, query req !! "period"%string = Some s →
          s ∉ ["week"; "month"; "quarter"; "year"]%string →
          Trends.handler mongo_week mongo_quarter now req db
          = (0%nat,
             validation_reply "Period must be week, month, quarter, or year"
               "period" s))
  ∧ (query req !! "limit"%string = None →
     Companies.handler now req db
     = (1%nat,
        res_json (Companies.with_success_rate
                  <$> Companies.pipeline (req_user req) now 10 db)))
  ∧ (query req !! "months"%string = None →
     Timeline.handler now req db
     = (1%nat,
        res_json (Timeline.format
                  <$> Timeline.pipeline (req_user req)
                        (setMonth now (getMonth now - 6)) db)))
  ∧ (∀ n, ¬ (1 ≤ n ≤ 50) →
          query req !! "limit"%string = Some (Number_toString n) →
          Companies.handler now req db
          = (0%nat,
             validation_reply "Limit must be between 1 and 50" "limit"
               (Number_toString n)))
  ∧ (∀ n, ¬ (1 ≤ n ≤ 24) →
          query req !! "months"%string = Some (Number_toString n) →
          Timeline.handler now req db
          = (0%nat,
             validation_reply "Months must be between 1 and 24" "months"
               (Number_toString n))).
Proof.
  assert (∀ s, query req !! "limit"%string = Some s → invalid_int 1 50 s →
               Companies.handler now req db
               = (0%nat,
                  validation_reply "Limit must be between 1 and 50" "limit" s))
    as Hlimit.
  { intros s Hq Hinv.
    by rewrite (companies_rejected _ _ _ _ Hq (invalid_int_rejected _ _ _ Hinv)). }
  assert (∀ s, query req !! "months"%string = Some s → invalid_int 1 24 s →
               Timeline.handler now req db
               = (0%nat,
                  validation_reply "Months must be between 1 and 24" "months" s))
    as Hmonths.
  { intros s Hq Hinv.
    by rewrite (timeline_rejected _ _ _ _ Hq (invalid_int_rejected _ _ _ Hinv)). }
  split; [done|]. split; [done|]. split; [|split; [|split; [|split]]].
  - intros s Hq Hnotin.
    rewrite (trends_rejected _ _ _ _ _ _ Hq); [done|].
    unfold isIn. by apply bool_decide_eq_false.
  - intros Hq. rewrite companies_accepted by (by rewrite Hq). by rewrite Hq.
  - intros Hq. rewrite timeline_accepted by (by rewrite Hq). by rewrite Hq.
  - intros n Hout Hq. apply Hlimit; [done|]. by apply number_out_of_range.
  - intros n Hout Hq. apply Hmonths; [done|]. by apply number_out_of_range.
Qed.

Lemma invalid_parameters_rejected_witness :
  Companies.handler example_now
    (example_request 7 [("limit", "51"); ("months", "0"); ("period", "day")]%string)
    example_db
  = (0%nat, validation_reply "Limit must be between 1 and 50" "limit" "51")
  ∧ Timeline.handler example_now
      (example_request 7 [("limit", "51"); ("months", "0"); ("period", "day")]%string)
      example_db
    = (0%nat, validation_reply "Months must be between 1 and 24" "months" "0")
  ∧ Trends.handler example_week example_quarter example_now
      (example_request 7 [("limit", "51"); ("months", "0"); ("period", "day")]%string)
      example_db
    = (0%nat,
       validation_reply "Period must be week, month, quarter, or year"
         "period" "day")
  ∧ Companies.handler example_now (example_request 7 []) example_db
    = (1%nat,
       res_json (Companies.with_success_rate
                 <$> Companies.pipeline 7%nat example_now 10 example_db))
  ∧ Timeline.handler example_now (example_request 7 []) example_db
    = (1%nat,
       res_json (Timeline.format
                 <$> Timeline.pipeline 7%nat
                       (setMonth example_now (getMonth example_now - 6))
                       example_db)).
Proof.
  destruct (invalid_parameters_rejected example_week example_quarter example_now
              (example_request 7
                 [("limit", "51"); ("months", "0"); ("period", "day")]%string)
              example_db) as (Hl & Hm & Hp & _).
  destruct (invalid_parameters_rejected example_week example_quarter example_now
              (example_request 7 []) example_db) as (_ & _ & _ & Hdl & Hdm & _).
  split; [|split; [|split; [|split]]].
  - apply Hl; [reflexivity|]. intros n Hn. vm_compute in Hn.
    inversion Hn. lia.
  - apply Hm; [reflexivity|]. intros n Hn. vm_compute in Hn.
    inversion Hn. lia.
  - apply Hp; [reflexivity|].
    apply (bool_decide_unpack _). by vm_compute.
  - apply Hdl. reflexivity.
  - apply Hdm. reflexivity.
Defined.

(** ** The views of a user without records *)

Lemma no_records_no_match (u : ObjectId) (P : Job → Prop) `{∀ j, Decision (P j)}
  (db : list Job) :
  owned u db = [] → filter (λ j, user j = u ∧ P j) db = [].
Proof. intros Ho. by rewrite match_owned, Ho. Qed.

(** C3, as the code has it.  For a user who owns no record and
    parameters that pass validation, the stats fields are all 0, the
    timeline, the companies and the locations are empty lists and the
    interview performance is the empty object, each with success; the
    trends are the empty list for the periods week, month and year and
    when no period is passed.  For the period quarter the trends route
    does not succeed: the store rejects the pipeline and the reply has
    the status 500 and no data. *)
Theorem empty_store_zero_aggregates (mongo_week mongo_quarter : Z → Z)
  (now : Z) (req : Request) (db : list Job) :
  owned (req_user req) db = [] →
  valid_int_param 1 24 (query req !! "months"%string) →
  valid_int_param 1 50 (query req !! "limit"%string) →
  valid_period (query req !! "period"%string) →
  (∃ statsObj : gmap string nat,
      (Stats.handler req db).2 = res_json statsObj
      ∧ ∀ k, k ∈ ["total"; "applied"; "interviewing"; "offered"; "rejected";
                  "withdrawn"]%string → statsObj !! k = Some 0%nat)
  ∧ (Timeline.handler now req db).2 = res_json []
  ∧ (Companies.handler now req db).2 = res_json []
  ∧ (Locations.handler req db).2 = res_json []
  ∧ (Interviews.handler req db).2 = res_json ∅
  ∧ (Trends.period_of req ≠ "quarter"%string →
     (Trends.handler mongo_week mongo_quarter now req db).2
     = res_json {| Trends.period := Trends.period_of req; Trends.trends := [] |})
  ∧ (Trends.period_of req = "quarter"%string →
     let reply := (Trends.handler mongo_week mongo_quarter now req db).2 in
     statusCode reply = 500%nat ∧ success reply = false ∧ data reply = None).
Proof.
  intros Ho Hm Hl Hp. split; [|split; [|split; [|split; [|split; [|split]]]]].
  - exists Stats.statsObj_init. split.
    + unfold Stats.handler, query_bind, Stats.getUserStats, aggregate.
      change (filter (λ j, user j = req_user req) db)
        with (owned (req_user req) db).
      by rewrite Ho.
    + intros k Hk.
      repeat (apply elem_of_cons in Hk as [-> | Hk]; [done|]).
      by apply elem_of_nil in Hk.
  - rewrite timeline_accepted by done. unfold Timeline.pipeline.
    by rewrite no_records_no_match.
  - rewrite companies_accepted by done. unfold Companies.pipeline.
    change (filter (λ j, user j = req_user req) db)
      with (owned (req_user req) db).
    rewrite Ho. simpl.
    change (sort_stage Companies.by_count_desc []) with (@nil Companies.Doc.t).
    by rewrite take_nil.
  - unfold Locations.handler. rewrite query_bind_aggregate.
    unfold Locations.pipeline. by rewrite no_records_no_match.
  - unfold Interviews.handler. rewrite query_bind_aggregate.
    unfold Interviews.pipeline. rewrite no_records_no_match by done.
    simpl. by rewrite fmap_empty.
  - intros Hq.
    destruct (trends_accepted mongo_week mongo_quarter now req db Hp Hq)
      as (dateFormat & startDate & _ & ->).
    unfold Trends.pipeline. by rewrite no_records_no_match.
  - intros Hq. by rewrite trends_quarter_rejected.
Qed.

Lemma empty_store_zero_aggregates_witness :
  (Timeline.handler example_now
     (example_request 9 [("months", "12"); ("period", "quarter")]%string)
     example_db).2 = res_json []
  ∧ (Interviews.handler
       (example_request 9 [("months", "12"); ("period", "quarter")]%string)
       example_db).2 = res_json ∅
  ∧ statusCode
      (Trends.handler example_week example_quarter example_now
         (example_request 9 [("months", "12"); ("period", "quarter")]%string)
         example_db).2 = 500%nat.
Proof.
  assert (owned 9%nat example_db = []) as Ho by reflexivity.
  assert (valid_int_param 1 24 (Some "12"%string)) as Hm by reflexivity.
  destruct (empty_store_zero_aggregates example_week example_quarter example_now
              (example_request 9 [("months", "12"); ("period", "quarter")]%string)
              example_db Ho Hm I eq_refl) as (_ & Ht & _ & _ & Hi & _ & Htr).
  split; [exact Ht|]. split; [exact Hi|].
  destruct Htr as [Hcode _]; [reflexivity | exact Hcode].
Defined.

(** ** The company and location views *)

Lemma successful_of_statuses (members : list Job) :
  successful_of (status <$> members) = successes members.
Proof.
  unfold successful_of, successes.
  induction members as [|j members IH]; [done|].
  rewrite fmap_cons, !filter_cons.
  destruct (status j) eqn:Hs; simpl;
    repeat case_decide; simpl; try (by rewrite IH); exfalso;
    match goal with
    | H : ¬ (_ ∨ _) |- _ => apply H; auto
    | H : ¬ (_ ∈ _) |- _ => apply H; repeat constructor
    | H : _ ∨ _ |- _ => by destruct H
    | H : _ ∈ _ |- _ =>
        repeat (apply elem_of_cons in H as [? | H]; [done|]);
        by apply elem_of_nil in H
    end.
Qed.

Lemma successes_le (members : list Job) : (successes members ≤ length members)%nat.
Proof. unfold successes. apply length_filter. Qed.

(** The rate the per-group views report for a group that is not empty. *)
Lemma group_rate (members : list Job) :
  members ≠ [] →
  rate_of_group members
    (round2 (success_percentage (acc_count members)
               (successful_of (acc_push status members)))).
Proof.
  intros Hne. unfold acc_count, acc_push.
  assert (0 < length members)%nat as Hpos by (destruct members; simpl; [done | lia]).
  rewrite successful_of_statuses, success_rate_spec by done.
  pose proof (percentage_range _ _ Hpos (successes_le members)) as [H0 H100].
  eexists. split; [done|]. split.
  - by apply half_up_2dp_rounds_nearest.
  - by apply half_up_2dp_range.
Qed.

Lemma NoDup_take {A} (n : nat) (l : list A) : NoDup l → NoDup (take n l).
Proof.
  intros Hnd. rewrite <- (take_drop n l) in Hnd.
  by apply NoDup_app in Hnd as (? & _ & _).
Qed.

Lemma companies_pipeline_limit u now limit db :
  Companies.pipeline u now limit db = take (Z.to_nat limit) (company_docs u now db).
Proof. done. Qed.

Lemma company_docs_elem u now db (d : Companies.Doc.t) :
  d ∈ company_docs u now db →
  let members := in_company (Companies.Doc._id d) (owned u db) in
  members ≠ []
  ∧ Companies.Doc.count d = length members
  ∧ Companies.Doc.statuses d = status <$> members
  ∧ Companies.Doc.avgDaysSinceApplication d
    = acc_avg (Companies.days_since now) members.
Proof.
  unfold company_docs. rewrite sort_stage_elem, grouped_elem.
  intros (c & -> & Hne). simpl. done.
Qed.

Lemma company_docs_ids u now db :
  Companies.Doc._id <$> company_docs u now db
  ≡ₚ (group_by company (owned u db)).*1.
Proof.
  unfold company_docs, sort_stage. rewrite merge_sort_Permutation.
  rewrite <- list_fmap_compose.
  by rewrite (list_fmap_ext _ fst (group_by company _)).
Qed.

Lemma company_docs_sorted u now db :
  StronglySorted Companies.by_count_desc (company_docs u now db).
Proof. unfold company_docs, sort_stage. apply StronglySorted_merge_sort; apply _. Qed.

(** The documents of the location pipeline. *)
Lemma with_location_at (l : option string) (mine : list Job) :
  (∃ s, l = Some s ∧ s ≠ ""%string) →
  filter (λ j, location j = l) (filter Locations.has_location mine)
  = at_location l mine.
Proof.
  intros (s & -> & Hs). unfold at_location.
  induction mine as [|j mine IH]; [done|].
  rewrite !filter_cons.
  destruct (decide (location j = Some s)) as [Heq|Hne].
  - assert (Locations.has_location j) as Hhas
      by (unfold Locations.has_location; by rewrite Heq).
    rewrite decide_True by done.
    rewrite filter_cons, decide_True by done. by rewrite IH.
  - destruct (decide (Locations.has_location j)); [|done].
    by rewrite filter_cons, decide_False by done.
Qed.

Lemma location_docs_elem u db (d : Locations.Doc.t) :
  d ∈ Locations.pipeline u db →
  let members := at_location (Locations.Doc._id d) (owned u db) in
  (∃ s, Locations.Doc._id d = Some s ∧ s ≠ ""%string)
  ∧ members ≠ []
  ∧ Locations.Doc.count d = length members
  ∧ Locations.Doc.statuses d = status <$> members.
Proof.
  unfold Locations.pipeline. rewrite sort_stage_elem, match_owned, grouped_elem.
  intros (l & -> & Hne). simpl.
  assert (∃ s, l = Some s ∧ s ≠ ""%string) as Hl.
  { apply filter_nonempty in Hne as (j & Hj & Hloc).
    apply list_elem_of_filter in Hj as [Hhas _].
    unfold Locations.has_location in Hhas. rewrite Hloc in Hhas.
    destruct l as [s|]; [eauto | done]. }
  rewrite with_location_at in * by done. done.
Qed.

Lemma location_docs_ids u db (l : option string) :
  l ∈ Locations.Doc._id <$> Locations.pipeline u db
  ↔ ∃ j, j ∈ owned u db ∧ location j = l ∧ Locations.has_location j.
Proof.
  unfold Locations.pipeline, sort_stage.
  rewrite merge_sort_Permutation, match_owned, <- list_fmap_compose.
  rewrite (list_fmap_ext _ fst (group_by location _)) by done.
  rewrite group_by_keys. split.
  - intros (j & Hj & Hl). apply list_elem_of_filter in Hj as [? ?]. eauto.
  - intros (j & Hj & Hl & Hhas). exists j. split; [|done].
    by apply list_elem_of_filter.
Qed.

Lemma location_docs_NoDup u db :
  NoDup (Locations.Doc._id <$> Locations.pipeline u db).
Proof.
  unfold Locations.pipeline. apply sort_stage_NoDup.
  rewrite <- list_fmap_compose.
  rewrite (list_fmap_ext _ fst (group_by location _)) by done.
  apply group_by_NoDup.
Qed.

Lemma company_entry_spec u now db (d : Companies.Doc.t) :
  d ∈ company_docs u now db →
  let e := Companies.with_success_rate d in
  let members := in_company (Companies.Entry.company e) (owned u db) in
  members ≠ []
  ∧ Companies.Entry.totalApplications e = length members
  ∧ rate_of_group members (Companies.Entry.successRate e)
  ∧ Companies.Entry.statusBreakdown e = tally_statuses (status <$> members).
Proof.
  intros Hd. apply company_docs_elem in Hd as (Hne & Hc & Hs & _).
  simpl. rewrite Hc, Hs. repeat split; try done.
  by apply group_rate.
Qed.

Lemma location_entry_spec u db (d : Locations.Doc.t) :
  d ∈ Locations.pipeline u db →
  let e := Locations.with_success_rate d in
  let members := at_location (Locations.Entry.location e) (owned u db) in
  members ≠ []
  ∧ Locations.Entry.totalApplications e = length members
  ∧ rate_of_group members (Locations.Entry.successRate e).
Proof.
  intros Hd. apply location_docs_elem in Hd as (_ & Hne & Hc & Hs).
  simpl. rewrite Hc, Hs. repeat split; try done.
  by apply group_rate.
Qed.

(** C5. In the companies and locations views every group reports the
    number of the caller's records in it and, as success rate, the
    percentage of them that are offered or interviewing, rounded to two
    decimals, from 0 to 100.  The companies are the first N, by
    descending count, of the caller's companies, N being the [limit]
    passed (1 to 50) or 10; the locations are all the locations of the
    caller's records that are present and not empty, by descending
    count. *)
Theorem group_views_rates_and_order (now : Z) (req : Request) (db : list Job) :
  valid_int_param 1 50 (query req !! "limit"%string) →
  let mine := owned (req_user req) db in
  let N := match query req !! "limit"%string with
           | Some s => default 10 (int_literal s)
           | None => 10
           end in
  1 ≤ N ≤ 50
  ∧ (∃ all : list Companies.Entry.t,
       (Companies.handler now req db).2 = res_json (take (Z.to_nat N) all)
       ∧ StronglySorted
           (λ a b, (Companies.Entry.totalApplications b
                    ≤ Companies.Entry.totalApplications a)%nat) all
       ∧ NoDup (Companies.Entry.company <$> all)
       ∧ (∀ c, c ∈ Companies.Entry.company <$> all
               ↔ ∃ j, j ∈ mine ∧ company j = c)
       ∧ ∀ e, e ∈ all →
           Companies.Entry.totalApplications e
           = length (in_company (Companies.Entry.company e) mine)
           ∧ rate_of_group (in_company (Companies.Entry.company e) mine)
               (Companies.Entry.successRate e))
  ∧ (∃ entries : list Locations.Entry.t,
       (Locations.handler req db).2 = res_json entries
       ∧ StronglySorted
           (λ a b, (Locations.Entry.totalApplications b
                    ≤ Locations.Entry.totalApplications a)%nat) entries
       ∧ NoDup (Locations.Entry.location <$> entries)
       ∧ (∀ l, l ∈ Locations.Entry.location <$> entries
               ↔ ∃ j s, j ∈ mine ∧ location j = l ∧ l = Some s
                        ∧ s ≠ ""%string)
       ∧ ∀ e, e ∈ entries →
           Locations.Entry.totalApplications e
           = length (at_location (Locations.Entry.location e) mine)
           ∧ rate_of_group (at_location (Locations.Entry.location e) mine)
               (Locations.Entry.successRate e)).
Proof.
  intros Hv mine N.
  destruct (validated_parameter 1 50 10 (query req !! "limit"%string))
    as [HN Hrange]; [lia | done |].
  fold N in HN. split; [|split].
  - destruct (query req !! "limit"%string) as [s|] eqn:Hq.
    + rewrite <- HN. apply Hrange. eauto.
    + subst N. lia.
  - exists (Companies.with_success_rate <$> company_docs (req_user req) now db).
    split; [|split; [|split; [|split]]].
    + rewrite companies_accepted by done.
      rewrite companies_pipeline_limit, HN. simpl. by rewrite fmap_take.
    + apply (StronglySorted_fmap _ Companies.by_count_desc); [done|].
      apply company_docs_sorted.
    + rewrite <- list_fmap_compose.
      rewrite (list_fmap_ext _ Companies.Doc._id (company_docs _ _ _)) by done.
      rewrite company_docs_ids. apply group_by_NoDup.
    + intros c. rewrite <- list_fmap_compose.
      rewrite (list_fmap_ext _ Companies.Doc._id (company_docs _ _ _)) by done.
      rewrite company_docs_ids. apply group_by_keys.
    + intros e He. apply list_elem_of_fmap in He as (d & -> & Hd).
      destruct (company_entry_spec _ _ _ _ Hd) as (_ & Ht & Hr & _). done.
  - exists (Locations.with_success_rate <$> Locations.pipeline (req_user req) db).
    split; [|split; [|split; [|split]]].
    + unfold Locations.handler. by rewrite query_bind_aggregate.
    + apply (StronglySorted_fmap _ Locations.by_count_desc); [done|].
      unfold Locations.pipeline, sort_stage.
      apply StronglySorted_merge_sort; apply _.
    + rewrite <- list_fmap_compose.
      rewrite (list_fmap_ext _ Locations.Doc._id (Locations.pipeline _ _)) by done.
      apply location_docs_NoDup.
    + intros l. rewrite <- list_fmap_compose.
      rewrite (list_fmap_ext _ Locations.Doc._id (Locations.pipeline _ _)) by done.
      rewrite location_docs_ids. split.
      * intros (j & Hj & Hl & Hhas). unfold Locations.has_location in Hhas.
        rewrite Hl in Hhas. destruct l as [s|]; [|done]. exists j, s. done.
      * intros (j & s & Hj & Hl & -> & Hs). exists j.
        unfold Locations.has_location. by rewrite Hl.
    + intros e He. apply list_elem_of_fmap in He as (d & -> & Hd).
      destruct (location_entry_spec _ _ _ Hd) as (_ & Ht & Hr). done.
Qed.

Lemma group_views_rates_and_order_witness :
  valid_int_param 1 50
    (query (example_request 7 [("limit", "1")]%string) !! "limit"%string)
  ∧ ∃ all : list Companies.Entry.t,
      (Companies.handler example_now (example_request 7 [("limit", "1")]%string)
         example_db).2 = res_json (take 1 all)
      ∧ NoDup (Companies.Entry.company <$> all)
      ∧ ∀ c, c ∈ Companies.Entry.company <$> all
             ↔ ∃ j, j ∈ owned 7%nat example_db ∧ company j = c.
Proof.
  assert (valid_int_param 1 50
            (query (example_request 7 [("limit", "1")]%string) !! "limit"%string))
    as Hv by reflexivity.
  split; [exact Hv|].
  destruct (group_views_rates_and_order example_now
              (example_request 7 [("limit", "1")]%string) example_db Hv)
    as (_ & (all & Hreply & _ & Hnd & Hall & _) & _).
  exists all. split; [exact Hreply|]. split; [exact Hnd | exact Hall].
Defined.

(** ** Zero denominators and finite numbers *)

Lemma success_percentage_finite (total successful : nat) :
  is_finite (success_percentage total successful).
Proof.
  unfold success_percentage. destruct (0 <? total)%nat eqn:Hpos; [|done].
  apply Nat.ltb_lt in Hpos. by rewrite ratio_times_100.
Qed.

Lemma round2_finite (x : JSNum) : is_finite x → is_finite (round2 x).
Proof. by destruct x. Qed.

Lemma trends_rate_finite (n d : nat) : is_finite (Trends.rate n d).
Proof.
  unfold Trends.rate. destruct (0 <? d)%nat eqn:Hpos; [|done].
  apply Nat.ltb_lt in Hpos. by rewrite rate_expression_spec.
Qed.

Lemma interviews_rate_finite (stats : Interviews.Perf.t) :
  is_finite (Interviews.rate_of stats).
Proof.
  unfold Interviews.rate_of.
  destruct (0 <? Interviews.Perf.total stats)%nat eqn:Hpos; [|done].
  apply Nat.ltb_lt in Hpos. by rewrite rate_expression_spec.
Qed.

Lemma companies_data (now : Z) (req : Request) (db : list Job)
  (entries : list Companies.Entry.t) :
  data (Companies.handler now req db).2 = Some entries →
  ∃ docs, entries = Companies.with_success_rate <$> docs.
Proof.
  unfold Companies.handler. destruct (negb _); [done|].
  rewrite query_bind_aggregate. simpl. intros [= <-]. eauto.
Qed.

Lemma interviews_data (req : Request) (db : list Job)
  (perf : gmap string Interviews.Perf.t) :
  data (Interviews.handler req db).2 = Some perf →
  ∃ m : gmap string Interviews.Perf.t, perf = Interviews.with_success_rate <$> m.
Proof.
  unfold Interviews.handler. rewrite query_bind_aggregate. simpl.
  intros [= <-]. eauto.
Qed.

Lemma trends_data (mongo_week mongo_quarter : Z → Z) (now : Z) (req : Request)
  (db : list Job) (d : Trends.Data) :
  data (Trends.handler mongo_week mongo_quarter now req db).2 = Some d →
  ∃ docs, Trends.trends d = Trends.with_conversion <$> docs.
Proof.
  unfold Trends.handler. destruct (negb _); [done|].
  destruct (Trends.window _ _ _ _) as [[dateFormat startDate]|]; [|done].
  destruct (decide _); [done|].
  rewrite query_bind_aggregate. simpl. intros [= <-]. simpl. eauto.
Qed.

(** C6. Each rate is 0 when its denominator is 0 (the total of a company
    or location group, the total of an interview type, the total of a
    trend bucket and its interviewing count), and every rate and mean in
    every analytics reply is a finite number. *)
Theorem rates_guard_zero_denominators (mongo_week mongo_quarter : Z → Z)
  (now : Z) (req : Request) (db : list Job) :
  (∀ c, Companies.Doc.count c = 0%nat →
        Companies.Entry.successRate (Companies.with_success_rate c) = Fin 0)
  ∧ (∀ l, Locations.Doc.count l = 0%nat →
          Locations.Entry.successRate (Locations.with_success_rate l) = Fin 0)
  ∧ (∀ stats, Interviews.Perf.total stats = 0%nat →
              Interviews.Perf.successRate (Interviews.with_success_rate stats)
              = Some (Fin 0))
  ∧ (∀ t, Trends.Doc.applications t = 0%nat →
          Trends.Entry.applicationToInterviewRate (Trends.with_conversion t) = Fin 0
          ∧ Trends.Entry.overallSuccessRate (Trends.with_conversion t) = Fin 0)
  ∧ (∀ t, Trends.Entry.interviewing (Trends.with_conversion t) = 0%nat →
          Trends.Entry.interviewToOfferRate (Trends.with_conversion t) = Fin 0)
  ∧ (∀ entries, data (Companies.handler now req db).2 = Some entries →
       ∀ e, e ∈ entries →
         is_finite (Companies.Entry.successRate e)
         ∧ is_finite (Companies.Entry.avgDaysSinceApplication e))
  ∧ (∀ entries, data (Locations.handler req db).2 = Some entries →
       ∀ e, e ∈ entries → is_finite (Locations.Entry.successRate e))
  ∧ (∀ perf, data (Interviews.handler req db).2 = Some perf →
       ∀ k stats, perf !! k = Some stats →
         ∃ r, Interviews.Perf.successRate stats = Some r ∧ is_finite r)
  ∧ (∀ d, data (Trends.handler mongo_week mongo_quarter now req db).2 = Some d →
       ∀ e, e ∈ Trends.trends d →
         is_finite (Trends.Entry.applicationToInterviewRate e)
         ∧ is_finite (Trends.Entry.interviewToOfferRate e)
         ∧ is_finite (Trends.Entry.overallSuccessRate e)).
Proof.
  split; [|split; [|split; [|split; [|split; [|split; [|split; [|split]]]]]]].
  - intros c Hc. simpl. by rewrite Hc.
  - intros l Hl. simpl. by rewrite Hl.
  - intros stats Ht. simpl. unfold Interviews.rate_of. by rewrite Ht.
  - intros t Ht. simpl. rewrite Ht. by destruct (Trends.count_status _ _).
  - intros t Ht. simpl in *. by rewrite Ht.
  - intros entries Hd e He. apply companies_data in Hd as (docs & ->).
    apply list_elem_of_fmap in He as (c & -> & _). simpl. split.
    + apply round2_finite, success_percentage_finite.
    + apply round2_finite. by destruct (Companies.Doc.avgDaysSinceApplication c).
  - intros entries Hd e He. unfold Locations.handler in Hd.
    rewrite query_bind_aggregate in Hd. simpl in Hd. injection Hd as <-.
    apply list_elem_of_fmap in He as (l & -> & _). simpl.
    apply round2_finite, success_percentage_finite.
  - intros perf Hd k stats Hk. apply interviews_data in Hd as (m & ->).
    rewrite lookup_fmap in Hk.
    destruct (m !! k) as [s|]; [|done]. simpl in Hk. injection Hk as <-.
    eexists. split; [done|]. apply interviews_rate_finite.
  - intros d Hd e He. apply trends_data in Hd as (docs & Hdocs).
    rewrite Hdocs in He. apply list_elem_of_fmap in He as (t & -> & _).
    simpl. repeat split; apply trends_rate_finite.
Qed.

Lemma rates_guard_zero_denominators_witness :
  Companies.Entry.successRate
    (Companies.with_success_rate
       {| Companies.Doc._id := "Acme"; Companies.Doc.count := 0;
          Companies.Doc.statuses := [];
          Companies.Doc.avgDaysSinceApplication := None |}) = Fin 0
  ∧ Trends.Entry.interviewToOfferRate
      (Trends.with_conversion
         {| Trends.Doc._id := 11; Trends.Doc.applications := 2;
            Trends.Doc.statuses := [offered; applied] |}) = Fin 0
  ∧ is_finite (Locations.Entry.successRate (Locations.with_success_rate example_paris)).
Proof.
  destruct (rates_guard_zero_denominators example_week example_quarter
              example_now (example_request 7 []) example_db)
    as (Hc & _ & _ & _ & Ht & _ & Hl & _).
  split; [|split].
  - apply Hc. reflexivity.
  - apply Ht. reflexivity.
  - refine (Hl _ eq_refl (Locations.with_success_rate example_paris) _).
    vm_compute. left.
Defined.

(** ** The rounding rule *)

Lemma percentage_nonneg (n d : nat) : (0 < d)%nat → (0 <= percentage n d)%Q.
Proof.
  intros Hd. unfold percentage.
  assert (0 < inject_Z (Z.of_nat d))%Q as Hpos.
  { change 0%Q with (inject_Z 0). rewrite <- Zlt_Qlt. lia. }
  assert (0 <= inject_Z (Z.of_nat n))%Q as Hn0.
  { change 0%Q with (inject_Z 0). rewrite <- Zle_Qle. lia. }
  apply Qle_shift_div_l; [done|]. lra.
Qed.






(** ** The interview performance view *)

Lemma sum_list_snoc (l : list nat) (n : nat) :
  sum_list (l ++ [n]) = (sum_list l + n)%nat.
Proof. induction l as [|x l IH]; simpl; lia. Qed.

Lemma tallied_snoc (docs : list Interviews.Doc.t) (d : Interviews.Doc.t) t o :
  tallied (docs ++ [d]) t o
  = (tallied docs t o
     + if decide (Interviews.Doc._id d = (t, o)) then Interviews.Doc.count d else 0)%nat.
Proof.
  unfold tallied. rewrite filter_app, filter_cons, filter_nil.
  case_decide.
  - rewrite fmap_app. apply sum_list_snoc.
  - by rewrite app_nil_r, Nat.add_0_r.
Qed.

Lemma tallied_absent (docs : list Interviews.Doc.t) t o :
  (t, o) ∉ Interviews.Doc._id <$> docs → tallied docs t o = 0%nat.
Proof.
  intros Hnotin. unfold tallied.
  induction docs as [|d docs IH]; [done|].
  rewrite fmap_cons in Hnotin. apply not_elem_of_cons in Hnotin as [Hne Hnotin].
  rewrite filter_cons, decide_False by done. by apply IH.
Qed.

Lemma tallied_present (docs : list Interviews.Doc.t) (d : Interviews.Doc.t) t o :
  NoDup (Interviews.Doc._id <$> docs) → d ∈ docs →
  Interviews.Doc._id d = (t, o) →
  tallied docs t o = Interviews.Doc.count d.
Proof.
  intros Hnd Hin Hid.
  induction docs as [|d' docs IH]; [by apply elem_of_nil in Hin|].
  rewrite fmap_cons in Hnd. apply NoDup_cons in Hnd as [Hnotin Hnd].
  apply elem_of_cons in Hin as [<- | Hin].
  - rewrite Hid in Hnotin.
    pose proof (tallied_absent docs t o Hnotin) as Hz. unfold tallied in *.
    rewrite filter_cons, decide_True by done. rewrite fmap_cons. simpl.
    rewrite Hz. lia.
  - specialize (IH Hnd Hin). unfold tallied in *.
    rewrite filter_cons, decide_False; [done|].
    intros Heq. apply Hnotin. rewrite Heq, <- Hid.
    by apply list_elem_of_fmap_2.
Qed.

Lemma tallied_no_type (docs : list Interviews.Doc.t) t o :
  t ∉ (λ d, (Interviews.Doc._id d).1) <$> docs → tallied docs t o = 0%nat.
Proof.
  intros Hnotin. apply tallied_absent. intros Hin. apply Hnotin.
  apply list_elem_of_fmap in Hin as (d & Hd & Hin).
  apply list_elem_of_fmap. exists d. split; [by rewrite <- Hd | done].
Qed.

(** The object the first pass builds from documents with distinct keys. *)
Lemma interviews_fold (docs : list Interviews.Doc.t) :
  NoDup (Interviews.Doc._id <$> docs) →
  ∀ t, foldl Interviews.step ∅ docs !! type_name t
       = if decide (t ∈ (λ d, (Interviews.Doc._id d).1) <$> docs)
         then Some (tally_of docs t) else None.
Proof.
  induction docs as [|d docs IH] using rev_ind; intros Hnd t.
  - simpl. by rewrite lookup_empty.
  - rewrite fmap_app in Hnd. apply NoDup_app in Hnd as (Hnd & Hfresh & _).
    specialize (IH Hnd). rewrite foldl_snoc.
    set (m := foldl Interviews.step ∅ docs) in *.
    destruct d as [[t0 o0] c]. unfold Interviews.step. simpl.
    assert ((t0, o0) ∉ Interviews.Doc._id <$> docs) as Hnew.
    { intros Hin. apply (Hfresh _ Hin). simpl. left. }
    destruct (decide (t = t0)) as [->|Hne].
    + rewrite decide_True
        by (rewrite fmap_app; apply elem_of_app; right; simpl; left).
      rewrite lookup_alter_eq, IH.
      assert (tally_of (docs ++ [{| Interviews.Doc._id := (t0, o0);
                                   Interviews.Doc.count := c |}]) t0
              = Interviews.set_outcome o0 c
                  (Interviews.add_total c
                     (if decide (t0 ∈ (λ d, (Interviews.Doc._id d).1) <$> docs)
                      then tally_of docs t0 else Interviews.fresh))) as ->.
      { pose proof (tallied_absent docs t0 o0 Hnew) as Hz.
        transitivity (Interviews.set_outcome o0 c
                        (Interviews.add_total c (tally_of docs t0))).
        - unfold tally_of, Interviews.set_outcome, Interviews.add_total. simpl.
          rewrite !tallied_snoc. simpl.
          destruct o0; repeat case_decide; try congruence; f_equal; lia.
        - destruct (decide (t0 ∈ (λ d, (Interviews.Doc._id d).1) <$> docs))
            as [Hpresent|Hpresent]; [done|].
          unfold tally_of. by rewrite !tallied_no_type. }
      case_decide.
      * by rewrite lookup_alter_eq, IH, decide_True.
      * by rewrite lookup_alter_eq, lookup_insert_eq.
    + assert (type_name t0 ≠ type_name t) as Hname
        by (intros Heq; by apply type_name_inj in Heq).
      rewrite !lookup_alter_ne by done.
      assert (t ∈ (λ d, (Interviews.Doc._id d).1)
                  <$> docs ++ [{| Interviews.Doc._id := (t0, o0);
                                  Interviews.Doc.count := c |}]
              ↔ t ∈ (λ d, (Interviews.Doc._id d).1) <$> docs) as Hiff.
      { rewrite fmap_app, elem_of_app. simpl.
        rewrite list_elem_of_singleton. tauto. }
      assert (tally_of (docs ++ [{| Interviews.Doc._id := (t0, o0);
                                   Interviews.Doc.count := c |}]) t
              = tally_of docs t) as Hsame.
      { unfold tally_of. rewrite !tallied_snoc. simpl.
        repeat case_decide; try congruence. f_equal; lia. }
      destruct (m !! type_name t0) eqn:Hm.
      * rewrite IH. repeat case_decide; try tauto. by rewrite Hsame.
      * rewrite lookup_insert_ne by done. rewrite IH.
        repeat case_decide; try tauto. by rewrite Hsame.
Qed.

Lemma unwind_entries (docs : list Job) :
  snd <$> Interviews.unwind docs = interview_entries docs.
Proof.
  unfold Interviews.unwind, interview_entries.
  induction docs as [|j docs IH]; [done|].
  simpl. rewrite fmap_app. f_equal; [|exact IH].
  rewrite <- list_fmap_compose. simpl.
  induction (interviewDates j) as [|i l IHl]; [done|].
  rewrite fmap_cons. by f_equal.
Qed.

Lemma entries_of_matched (mine : list Job) :
  interview_entries (filter (λ j, interviewDates j ≠ []) mine)
  = interview_entries mine.
Proof.
  unfold interview_entries. induction mine as [|j mine IH]; [done|].
  rewrite filter_cons. destruct (decide (interviewDates j ≠ [])) as [Hne|He].
  - simpl. f_equal. exact IH.
  - simpl. destruct (interviewDates j); [exact IH|]. by destruct He.
Qed.

Lemma unwound_of_key (unwound : list (Job * Interview)) t o :
  length (filter (λ d, (type d.2, outcome d.2) = (t, o)) unwound)
  = entries_of t o (snd <$> unwound).
Proof.
  unfold entries_of. induction unwound as [|d unwound IH]; [done|].
  rewrite fmap_cons, !filter_cons.
  destruct (decide ((type d.2, outcome d.2) = (t, o))) as [Heq|Hne].
  - inversion Heq; subst. rewrite decide_True by done. simpl. by rewrite IH.
  - rewrite decide_False; [done|]. intros [? ?]. apply Hne. congruence.
Qed.

Lemma entries_by_outcome (t : InterviewType) (entries : list Interview) :
  entries_of_type t entries
  = (entries_of t passed entries + entries_of t failed entries
     + entries_of t pending entries)%nat.
Proof.
  unfold entries_of_type, entries_of.
  induction entries as [|i entries IH]; [done|].
  rewrite !filter_cons.
  destruct (decide (type i = t)) as [Ht|Ht], (outcome i) eqn:Ho;
    repeat case_decide; simpl; try lia; exfalso; intuition congruence.
Qed.

Lemma entries_by_type (entries : list Interview) :
  length entries
  = (entries_of_type phone entries + entries_of_type video entries
     + entries_of_type onsite entries + entries_of_type technical entries
     + entries_of_type behavioral entries)%nat.
Proof.
  unfold entries_of_type. induction entries as [|i entries IH]; [done|].
  rewrite !filter_cons. simpl.
  destruct (type i); repeat case_decide; try done; simpl; lia.
Qed.

Lemma entries_per_record (jobs : list Job) :
  length (interview_entries jobs)
  = sum_list ((λ j, length (interviewDates j)) <$> jobs).
Proof.
  unfold interview_entries. induction jobs as [|j jobs IH]; [done|].
  simpl. rewrite length_app. f_equal. exact IH.
Qed.

(** The documents of the interview pipeline: distinct keys, and for each
    type and outcome the number of entries of the caller's records. *)
Lemma interview_docs_spec (u : ObjectId) (db : list Job) :
  let docs := Interviews.pipeline u db in
  let entries := interview_entries (owned u db) in
  NoDup (Interviews.Doc._id <$> docs)
  ∧ ∀ t o, tallied docs t o = entries_of t o entries.
Proof.
  intros docs entries. subst docs.
  unfold Interviews.pipeline. rewrite match_owned.
  set (unwound := Interviews.unwind (filter (λ j, interviewDates j ≠ []) (owned u db))).
  assert (snd <$> unwound = entries) as Hent
    by (subst unwound entries; by rewrite unwind_entries, entries_of_matched).
  set (key := λ d : Job * Interview, (type d.2, outcome d.2)).
  set (mk := λ g : (InterviewType * Outcome) * list (Job * Interview),
               {| Interviews.Doc._id := g.1; Interviews.Doc.count := acc_count g.2 |}).
  assert (NoDup (Interviews.Doc._id
                 <$> sort_stage Interviews.by_type_outcome
                       (mk <$> group_by key unwound))) as Hnd.
  { apply sort_stage_NoDup. rewrite <- list_fmap_compose.
    rewrite (list_fmap_ext _ fst (group_by key unwound)) by done.
    apply group_by_NoDup. }
  split; [done|]. intros t o.
  rewrite <- Hent, <- unwound_of_key.
  change (tallied (sort_stage Interviews.by_type_outcome
                     (mk <$> group_by key unwound)) t o
          = length (filter (λ d, key d = (t, o)) unwound)).
  destruct (decide (filter (λ d, key d = (t, o)) unwound = [])) as [Hnil|Hne].
  - rewrite Hnil. apply tallied_absent. intros Hin.
    apply list_elem_of_fmap in Hin as (d & Hd & Hin).
    apply sort_stage_elem, grouped_elem in Hin as (k & -> & Hk).
    simpl in Hd. subst k. done.
  - apply (tallied_present _ (mk ((t, o), filter (λ d, key d = (t, o)) unwound)));
      [done | | done].
    apply sort_stage_elem, grouped_elem. eauto.
Qed.

Lemma interview_types_present (u : ObjectId) (db : list Job) (t : InterviewType) :
  t ∈ (λ d, (Interviews.Doc._id d).1) <$> Interviews.pipeline u db
  ↔ entries_of_type t (interview_entries (owned u db)) ≠ 0%nat.
Proof.
  destruct (interview_docs_spec u db) as [Hnd Htally].
  rewrite entries_by_outcome, <- !Htally. split.
  - intros Hin Hz. apply list_elem_of_fmap in Hin as (d & -> & Hin).
    destruct d as [[t o] c]. simpl in *.
    pose proof (tallied_present _ _ t o Hnd Hin eq_refl) as Hc. simpl in Hc.
    assert (c ≠ 0%nat) as Hpos.
    { unfold Interviews.pipeline in Hin.
      apply sort_stage_elem, grouped_elem in Hin as (k & Heq & Hk).
      inversion Heq; subst. unfold acc_count. by destruct (filter _ _). }
    destruct o; lia.
  - intros Hnz.
    destruct (decide (t ∈ (λ d, (Interviews.Doc._id d).1)
                          <$> Interviews.pipeline u db)) as [|Hnotin]; [done|].
    rewrite !tallied_no_type in Hnz by done. done.
Qed.

Lemma interviews_fold_keys (docs : list Interviews.Doc.t) :
  ∀ (m : gmap string Interviews.Perf.t) (k : string),
    is_Some (foldl Interviews.step m docs !! k) →
    is_Some (m !! k) ∨ ∃ t, k = type_name t.
Proof.
  induction docs as [|d docs IH]; intros m k Hk; [by left|].
  simpl in Hk. apply IH in Hk as [Hk | Hk]; [|by right].
  destruct d as [[t o] c]. unfold Interviews.step in Hk. simpl in Hk.
  destruct (decide (type_name t = k)) as [<-|Hne]; [right; eauto|].
  rewrite !lookup_alter_ne in Hk by done.
  destruct (m !! type_name t); [by left|].
  rewrite lookup_insert_ne in Hk by done. by left.
Qed.

(** C4. The interview performance view counts interview entries, not
    records: a type is present exactly when the caller's records hold an
    entry of that type; its [total] is the number of these entries, its
    [passed], [failed] and [pending] the numbers of them with each
    outcome, [total] is their sum, and [successRate] is the percentage
    passed of total rounded to two decimals (and 0 for a total of 0).
    All entries of all the caller's records are counted, each once. *)
Theorem interview_performance_by_entry (req : Request) (db : list Job) :
  let mine := owned (req_user req) db in
  let entries := interview_entries mine in
  ∃ perf : gmap string Interviews.Perf.t,
    (Interviews.handler req db).2 = res_json perf
    ∧ (∀ k, is_Some (perf !! k) → ∃ t, k = type_name t)
    ∧ (∀ t, entries_of_type t entries = 0%nat → perf !! type_name t = None)
    ∧ (∀ t, entries_of_type t entries ≠ 0%nat →
         ∃ stats r,
           perf !! type_name t = Some stats
           ∧ Interviews.Perf.total stats = entries_of_type t entries
           ∧ Interviews.Perf.passed stats = entries_of t passed entries
           ∧ Interviews.Perf.failed stats = entries_of t failed entries
           ∧ Interviews.Perf.pending stats = entries_of t pending entries
           ∧ Interviews.Perf.total stats
             = (Interviews.Perf.passed stats + Interviews.Perf.failed stats
                + Interviews.Perf.pending stats)%nat
           ∧ Interviews.Perf.successRate stats = Some (Fin r)
           ∧ rounds_2dp
               (percentage (Interviews.Perf.passed stats)
                  (Interviews.Perf.total stats)) r)
    ∧ (∀ stats, Interviews.Perf.total stats = 0%nat →
                Interviews.rate_of stats = Fin 0)
    ∧ interview_entries (filter (λ j, interviewDates j ≠ []) mine) = entries
    ∧ length entries = sum_list ((λ j, length (interviewDates j)) <$> mine)
    ∧ length entries
      = (entries_of_type phone entries + entries_of_type video entries
         + entries_of_type onsite entries + entries_of_type technical entries
         + entries_of_type behavioral entries)%nat.
Proof.
  intros mine entries.
  destruct (interview_docs_spec (req_user req) db) as [Hnd Htally].
  pose proof (interviews_fold _ Hnd) as Hfold.
  set (docs := Interviews.pipeline (req_user req) db) in *.
  exists (Interviews.with_success_rate <$> foldl Interviews.step ∅ docs).
  split; [|split; [|split; [|split; [|split; [|split; [|split]]]]]].
  - unfold Interviews.handler. by rewrite query_bind_aggregate.
  - intros k Hk. rewrite lookup_fmap in Hk. apply fmap_is_Some in Hk.
    apply interviews_fold_keys in Hk as [Hk | Hk]; [|done].
    rewrite lookup_empty in Hk. by destruct Hk.
  - intros t Hz. rewrite lookup_fmap, Hfold.
    rewrite decide_False; [done|].
    intros Hin. by apply interview_types_present in Hin.
  - intros t Hnz. rewrite lookup_fmap, Hfold.
    rewrite decide_True by (by apply interview_types_present).
    assert (Interviews.Perf.total (tally_of docs t) = entries_of_type t entries)
      as Htotal by (simpl; rewrite !Htally; symmetry; apply entries_by_outcome).
    exists (Interviews.with_success_rate (tally_of docs t)),
           (half_up_2dp (percentage (Interviews.Perf.passed (tally_of docs t))
                           (Interviews.Perf.total (tally_of docs t)))).
    split; [done|]. split; [done|].
    split; [apply Htally|]. split; [apply Htally|]. split; [apply Htally|].
    split; [done|].
    assert (0 < Interviews.Perf.total (tally_of docs t))%nat as Hpos
      by (rewrite Htotal; lia).
    split.
    + cbn [Interviews.with_success_rate Interviews.Perf.successRate].
      unfold Interviews.rate_of.
      rewrite (proj2 (Nat.ltb_lt 0 _)) by done.
      by rewrite rate_expression_spec.
    + apply half_up_2dp_rounds_nearest.
  - intros stats Hz. unfold Interviews.rate_of. by rewrite Hz.
  - apply entries_of_matched.
  - apply entries_per_record.
  - apply entries_by_type.
Qed.

Lemma interview_performance_by_entry_witness :
  ∃ perf : gmap string Interviews.Perf.t,
    (Interviews.handler (example_request 7 []) example_db).2 = res_json perf
    ∧ perf !! "technical"%string = None
    ∧ ∃ stats r,
        perf !! "phone"%string = Some stats
        ∧ Interviews.Perf.total stats = 3%nat
        ∧ Interviews.Perf.passed stats = 2%nat
        ∧ Interviews.Perf.failed stats = 0%nat
        ∧ Interviews.Perf.pending stats = 1%nat
        ∧ Interviews.Perf.successRate stats = Some (Fin r).
Proof.
  destruct (interview_performance_by_entry (example_request 7 []) example_db)
    as (perf & Hreply & _ & Hnone & Hsome & _).
  exists perf. split; [exact Hreply|]. split.
  - apply (Hnone technical). reflexivity.
  - destruct (Hsome phone) as (stats & r & Hl & Ht & Hp & Hf & Hpe & _ & Hr & _).
    + vm_compute. discriminate.
    + exists stats, r. repeat split; assumption.
Defined.

(** ** The timeline *)

Lemma StronglySorted_mono {A} (R1 R2 : relation A) (l : list A) :
  (∀ x y, R1 x y → R2 x y) → StronglySorted R1 l → StronglySorted R2 l.
Proof.
  intros Himpl. induction 1 as [|x l Hs IH Hall]; constructor; [done|].
  eapply Forall_impl; [exact Hall|]. auto.
Qed.

Lemma month_members (y m : Z) (jobs : list Job) :
  filter (λ j, (mongo_year (applicationDate j), mongo_month (applicationDate j))
               = (y, m)) jobs
  = in_month y m jobs.
Proof.
  unfold in_month. induction jobs as [|j jobs IH]; [done|].
  rewrite !filter_cons, IH.
  repeat case_decide; try done; exfalso.
  - match goal with H : (_, _) = (_, _) |- _ => inversion H end. tauto.
  - match goal with H : _ ∧ _ |- _ => destruct H end. congruence.
Qed.

Lemma statuses_with (s : Status) (members : list Job) :
  length (filter (λ x, x = s) (status <$> members)) = with_status s members.
Proof.
  unfold with_status. induction members as [|j members IH]; [done|].
  rewrite fmap_cons, !filter_cons. case_decide; simpl; by rewrite IH.
Qed.

Lemma timeline_docs_elem u start db (d : Timeline.Doc.t) :
  d ∈ Timeline.pipeline u start db →
  let members :=
    in_month (Timeline.Doc._id d).1 (Timeline.Doc._id d).2
      (since start (owned u db)) in
  members ≠ []
  ∧ Timeline.Doc.count d = length members
  ∧ Timeline.Doc.statuses d = status <$> members.
Proof.
  unfold Timeline.pipeline. rewrite sort_stage_elem, match_owned, grouped_elem.
  intros ([y m] & -> & Hne). simpl.
  fold (since start (owned u db)) in *. rewrite month_members in *. done.
Qed.

Lemma timeline_docs_ids u start db :
  Timeline.Doc._id <$> Timeline.pipeline u start db
  ≡ₚ (group_by (λ j, (mongo_year (applicationDate j),
                      mongo_month (applicationDate j)))
        (since start (owned u db))).*1.
Proof.
  unfold Timeline.pipeline, sort_stage.
  rewrite merge_sort_Permutation, match_owned, <- list_fmap_compose.
  by rewrite (list_fmap_ext _ fst (group_by _ _)).
Qed.

Lemma timeline_docs_ascending u start db :
  StronglySorted year_month_lt (Timeline.Doc._id <$> Timeline.pipeline u start db).
Proof.
  assert (NoDup (Timeline.Doc._id <$> Timeline.pipeline u start db)) as Hnd
    by (rewrite timeline_docs_ids; apply group_by_NoDup).
  assert (StronglySorted
            (λ a b : Z * Z, a.1 < b.1 ∨ (a.1 = b.1 ∧ a.2 ≤ b.2))
            (Timeline.Doc._id <$> Timeline.pipeline u start db)) as Hs.
  { apply (StronglySorted_fmap _ Timeline.by_year_month); [done|].
    unfold Timeline.pipeline, sort_stage.
    apply StronglySorted_merge_sort; apply _. }
  apply (StronglySorted_strict _ _ Hs) in Hnd.
  eapply StronglySorted_mono; [|exact Hnd].
  intros [y1 m1] [y2 m2] [Hle Hne]. unfold year_month_lt. simpl in *.
  destruct (decide (m1 = m2)) as [->|]; [|lia].
  destruct Hle as [? | [-> _]]; [by left | done].
Qed.

(** C9, as the code has it.  For a lookback of N months (the [months]
    passed, 1 to 24, or 6) the timeline has one entry per calendar month
    in which the caller has a record applied for at or after the start
    of the lookback, records dated after the request included; the
    entries are in strictly ascending order of year then month; each
    gives the period as the year, a dash and the month in two digits
    ("YYYY-MM" for a year of four digits), the number of these records
    in that month, and their number per status. *)
Theorem timeline_by_calendar_month (now : Z) (req : Request) (db : list Job) :
  valid_int_param 1 24 (query req !! "months"%string) →
  let months := match query req !! "months"%string with
                | Some s => default 6 (int_literal s)
                | None => 6
                end in
  let window :=
    since (setMonth now (getMonth now - months)) (owned (req_user req) db) in
  1 ≤ months ≤ 24
  ∧ ∃ docs : list Timeline.Doc.t,
      (Timeline.handler now req db).2 = res_json (Timeline.format <$> docs)
      ∧ StronglySorted year_month_lt (Timeline.Doc._id <$> docs)
      ∧ (∀ y m, (y, m) ∈ Timeline.Doc._id <$> docs ↔ in_month y m window ≠ [])
      ∧ ∀ d, d ∈ docs →
          let y := (Timeline.Doc._id d).1 in
          let m := (Timeline.Doc._id d).2 in
          let entry := Timeline.format d in
          1 ≤ m ≤ 12
          ∧ Timeline.Entry.period entry
            = (Number_toString y ++ "-" ++ two_digits m)%string
          ∧ (1000 ≤ y ≤ 9999 →
             Timeline.Entry.period entry
             = (four_digits y ++ "-" ++ two_digits m)%string)
          ∧ Timeline.Entry.total entry = length (in_month y m window)
          ∧ (∀ s, Timeline.Entry.statuses entry !! status_name s
                  = let n := with_status s (in_month y m window) in
                    if decide (n = 0%nat) then None else Some n)
          ∧ ∀ k, is_Some (Timeline.Entry.statuses entry !! k) →
                 ∃ s, k = status_name s.
Proof.
  intros Hv months window.
  destruct (validated_parameter 1 24 6 (query req !! "months"%string))
    as [HN Hrange]; [lia | done |].
  fold months in HN. split.
  { destruct (query req !! "months"%string) as [s|] eqn:Hq.
    - rewrite <- HN. apply Hrange. eauto.
    - subst months. lia. }
  set (start := setMonth now (getMonth now - months)) in *.
  exists (Timeline.pipeline (req_user req) start db).
  split; [|split; [|split]].
  - rewrite timeline_accepted by done. simpl. by rewrite HN.
  - apply timeline_docs_ascending.
  - intros y m. rewrite timeline_docs_ids, group_by_keys.
    rewrite <- month_members, filter_nonempty. done.
  - intros d Hd. apply timeline_docs_elem in Hd as (Hne & Hc & Hs).
    fold window in Hne, Hc, Hs. simpl.
    destruct (Timeline.Doc._id d) as [y m] eqn:Hid. simpl in *.
    assert (1 ≤ m ≤ 12) as Hm.
    { apply filter_nonempty in Hne as (j & _ & _ & <-).
      apply mongo_month_range. }
    split; [done|]. split; [by rewrite month_padded|].
    split; [intros Hy; by rewrite month_padded, year_four_digits|].
    split; [done|]. split.
    + intros s. rewrite tally_statuses_lookup, Hs. simpl.
      by rewrite statuses_with.
    + intros k. apply tally_statuses_keys.
Qed.

Lemma timeline_by_calendar_month_witness :
  valid_int_param 1 24
    (query (example_request 7 [("months", "2")]%string) !! "months"%string)
  ∧ ∃ docs : list Timeline.Doc.t,
      (Timeline.handler example_now (example_request 7 [("months", "2")]%string)
         example_db).2 = res_json (Timeline.format <$> docs)
      ∧ StronglySorted year_month_lt (Timeline.Doc._id <$> docs)
      ∧ Timeline.Entry.period <$> (Timeline.format <$> docs)
        = ["2026-09"; "2026-10"]%string.
Proof.
  assert (valid_int_param 1 24
            (query (example_request 7 [("months", "2")]%string) !! "months"%string))
    as Hv by reflexivity.
  split; [exact Hv|].
  destruct (timeline_by_calendar_month example_now
              (example_request 7 [("months", "2")]%string) example_db Hv)
    as (_ & docs & Hreply & Hsorted & _).
  exists docs. split; [exact Hreply|]. split; [exact Hsorted|].
  change (Timeline.format <$> docs)
    with (default [] (data (res_json (Timeline.format <$> docs)))).
  rewrite <- Hreply. vm_compute. reflexivity.
Defined.

(** C9 as stated does not hold for a record dated after the request:
    with one application dated forty days ahead, the timeline of the last
    six months has the period of next month, in which no record of the
    caller lies between the start of the lookback and now. *)
Lemma timeline_has_no_upper_bound :
  ∃ e,
    data (Timeline.handler example_now (example_request 7 []) example_db_ahead).2
    = Some [e]
    ∧ Timeline.Entry.period e = "2026-12"%string
    ∧ Timeline.Entry.total e = 1%nat
    ∧ between (setMonth example_now (getMonth example_now - 6)) example_now
        (owned 7%nat example_db_ahead) = [].
Proof.
  eexists. split; [vm_compute; reflexivity|].
  split; [reflexivity|]. split; [reflexivity|]. vm_compute. reflexivity.
Qed.

(** ** Adding an interview *)

Lemma findById_id (k : ObjectId) (db : list Job) (job : Job) :
  Jobs.findById k db = Some job → _id job = k ∧ job ∈ db.
Proof.
  unfold Jobs.findById. intros Hh.
  assert (job ∈ filter (λ j, _id j = k) db) as Hin
    by (destruct (filter _ db); [done | inversion Hh; left]).
  by apply list_elem_of_filter in Hin.
Qed.

Lemma findById_store (k : ObjectId) (db : list Job) (old job : Job) :
  Jobs.findById k db = Some old → _id job = k →
  Jobs.findById k (Jobs.store job db) = Some job.
Proof.
  unfold Jobs.findById. intros Hold Hid.
  induction db as [|j db IH]; [done|].
  simpl. rewrite filter_cons in Hold. rewrite Hid.
  destruct (decide (_id j = k)) as [Hj|Hj].
  - by rewrite filter_cons, decide_True.
  - rewrite filter_cons, decide_False by done. by apply IH.
Qed.

Lemma pre_save_keeps (now : Z) (job : Job) :
  _id (Jobs.pre_save now job) = _id job
  ∧ status (Jobs.pre_save now job) = status job
  ∧ interviewDates (Jobs.pre_save now job) = interviewDates job.
Proof.
  unfold Jobs.pre_save.
  by destruct (status job) eqn:Hs, (followUpDate job).
Qed.

(** C10. A request that adds an interview to a job of the caller turns
    the status [applied] into [interviewing] and leaves any other status
    as it is, the interview being appended to the job's interviews; a
    request that is not answered with success leaves the store as it
    was. *)
Theorem interview_addition_moves_applied (isISO8601 : string → bool)
  (castDate : string → option Z) (now : Z) (req : Jobs.Request)
  (db : list Job) :
  (∀ job interview,
     validationResult (Jobs.body req) "body" (Jobs.chains isISO8601) = [] →
     Jobs.findById (Jobs.id req) db = Some job →
     user job = Jobs.req_user req →
     Jobs.pushed castDate (Jobs.body req) = Some interview →
     ∃ job',
       Jobs.add_interview isISO8601 castDate now req db
       = (Jobs.store job' db, Jobs.Ok "Interview added successfully" job')
       ∧ Jobs.findById (Jobs.id req) (Jobs.store job' db) = Some job'
       ∧ interviewDates job' = interviewDates job ++ [interview]
       ∧ (status job = applied → status job' = interviewing)
       ∧ (status job ≠ applied → status job' = status job))
  ∧ (∀ db' reply,
       Jobs.add_interview isISO8601 castDate now req db = (db', reply) →
       (∀ m j, reply ≠ Jobs.Ok m j) → db' = db).
Proof.
  split.
  - intros job interview Hvalid Hfind Howner Hpush.
    destruct (findById_id _ _ _ Hfind) as [Hid _].
    unfold Jobs.add_interview. rewrite Hvalid, Hfind, Hpush. simpl.
    rewrite bool_decide_eq_true_2 by done. simpl.
    set (updated := {| _id := _id job; user := user job; title := title job;
                       company := company job; location := location job;
                       status := if decide (status job = applied)
                                 then interviewing else status job;
                       applicationDate := applicationDate job;
                       followUpDate := followUpDate job;
                       interviewDates := interviewDates job ++ [interview] |}).
    destruct (pre_save_keeps now updated) as (Hpid & Hpst & Hpiv).
    exists (Jobs.pre_save now updated). split; [done|]. split.
    + apply (findById_store _ _ job); [done|]. by rewrite Hpid.
    + rewrite Hpiv, Hpst. simpl. split; [done|].
      split; intros Hs; [by rewrite decide_True | by rewrite decide_False].
  - intros db' reply Hrun Hnot. unfold Jobs.add_interview in Hrun.
    destruct (negb _); [by inversion Hrun|].
    destruct (Jobs.findById _ _) as [job|]; [|by inversion Hrun].
    destruct (negb _); [by inversion Hrun|].
    destruct (Jobs.pushed _ _) as [interview|]; [|by inversion Hrun].
    inversion Hrun; subst. by destruct (Hnot _ _ eq_refl).
Qed.

Lemma interview_addition_moves_applied_witness :
  ∃ job' : Job,
    Jobs.add_interview example_isISO8601 example_castDate example_now
      example_add example_db
    = (Jobs.store job' example_db, Jobs.Ok "Interview added successfully" job')
    ∧ status job' = interviewing
    ∧ length (interviewDates job') = 2%nat.
Proof.
  destruct (interview_addition_moves_applied example_isISO8601 example_castDate
              example_now example_add example_db) as [Hadd _].
  destruct (Hadd (example_job 5 7 "Bolt" (Some "Rome"%string) applied
                    (example_now - 70 * msPerDay)
                    [example_interview onsite pending])
                 {| date := 1793836800000; type := video; notes := None;
                    outcome := pending |})
    as (job' & Hrun & _ & Hivs & Hstatus & _);
    [reflexivity | reflexivity | reflexivity | reflexivity |].
  exists job'. split; [exact Hrun|]. split.
  - apply Hstatus. reflexivity.
  - rewrite Hivs. reflexivity.
Defined.

(** ** The examples of the specification, and checks of the calendar *)

Example stats_of_three_records :
  (λ o : gmap string nat,
     (o !! "total", o !! "applied", o !! "interviewing", o !! "offered",
      o !! "rejected", o !! "withdrawn")%string)
  <$> data (Stats.handler (example_request 7 []) example_db_three).2
  = Some (Some 3, Some 1, Some 1, Some 1, Some 0, Some 0)%nat.
Proof. vm_compute. reflexivity. Qed.

Example acme_success_rate :
  (λ entries : list Companies.Entry.t, Companies.Entry.successRate <$> entries)
  <$> data (Companies.handler example_now (example_request 7 []) example_db_acme).2
  = Some [Fin 50].
Proof. vm_compute. reflexivity. Qed.

Example phone_performance :
  (λ perf : gmap string Interviews.Perf.t, perf !! "phone"%string)
  <$> data (Interviews.handler (example_request 7 []) example_db).2
  = Some (Some {| Interviews.Perf.total := 3; Interviews.Perf.passed := 2;
                  Interviews.Perf.failed := 0; Interviews.Perf.pending := 1;
                  Interviews.Perf.successRate := Some (Fin (6667 # 100)) |}).
Proof. vm_compute. reflexivity. Qed.

Example example_now_is_1_november_2026 :
  civil_from_days (Day example_now) = (2026, 11, 1)
  ∧ TimeWithinDay example_now = 16 * 60 * 60 * 1000.
Proof. by vm_compute. Qed.

Example civil_round_trip :
  Forall (λ z, let '(y, m, d) := civil_from_days z in days_from_civil y m d = z)
    (seqZ (-400) 800 ++ seqZ 20400 800).
Proof. apply (bool_decide_unpack _). by vm_compute. Qed.

(** [setMonth] on a day the target month lacks runs over into the next
    month: three months before 31 May 2026 is 3 March 2026. *)
Example setMonth_runs_over :
  civil_from_days (Day (setMonth (days_from_civil 2026 5 31 * msPerDay)
                          (getMonth (days_from_civil 2026 5 31 * msPerDay) - 3)))
  = (2026, 3, 3).
Proof. by vm_compute. Qed.

Example setMonth_crosses_the_year :
  civil_from_days (Day (setMonth example_now (getMonth example_now - 24)))
  = (2024, 11, 1).
Proof. by vm_compute. Qed.

(** ** The trend buckets *)

Lemma sum_list_Permutation (l k : list nat) : l ≡ₚ k → sum_list l = sum_list k.
Proof. induction 1; simpl; lia. Qed.

Lemma trends_docs_elem u dateFormat start db (d : Trends.Doc.t) :
  d ∈ Trends.pipeline u dateFormat start db →
  let members :=
    in_bucket dateFormat (Trends.Doc._id d) (since start (owned u db)) in
  members ≠ []
  ∧ Trends.Doc.applications d = length members
  ∧ Trends.Doc.statuses d = status <$> members.
Proof.
  unfold Trends.pipeline. rewrite sort_stage_elem, match_owned, grouped_elem.
  intros (k & -> & Hne). simpl. done.
Qed.

Lemma trends_docs_ids u dateFormat start db :
  Trends.Doc._id <$> Trends.pipeline u dateFormat start db
  ≡ₚ (group_by (λ j, dateFormat (applicationDate j))
        (since start (owned u db))).*1.
Proof.
  unfold Trends.pipeline, sort_stage.
  rewrite merge_sort_Permutation, match_owned, <- list_fmap_compose.
  by rewrite (list_fmap_ext _ fst (group_by _ _)).
Qed.

#[local] Instance trends_by_id_total : Total Trends.by_id.
Proof. intros a b. unfold Trends.by_id. lia. Qed.
#[local] Instance trends_by_id_trans : Transitive Trends.by_id.
Proof. intros a b c. unfold Trends.by_id. lia. Qed.

Lemma trends_docs_ascending u dateFormat start db :
  StronglySorted Z.lt (Trends.Doc._id <$> Trends.pipeline u dateFormat start db).
Proof.
  assert (NoDup (Trends.Doc._id <$> Trends.pipeline u dateFormat start db)) as Hnd
    by (rewrite trends_docs_ids; apply group_by_NoDup).
  assert (StronglySorted Z.le
            (Trends.Doc._id <$> Trends.pipeline u dateFormat start db)) as Hs.
  { apply (StronglySorted_fmap _ Trends.by_id); [done|].
    unfold Trends.pipeline, sort_stage.
    apply StronglySorted_merge_sort; apply _. }
  apply (StronglySorted_strict _ _ Hs) in Hnd.
  eapply StronglySorted_mono; [|exact Hnd]. intros x y [? ?]. lia.
Qed.

Lemma trends_counts (s : Status) (members : list Job) :
  Trends.count_status s (status <$> members) = with_status s members.
Proof. apply statuses_with. Qed.

Lemma three_statuses_le (members : list Job) :
  (with_status applied members + with_status interviewing members
   + with_status offered members ≤ length members)%nat.
Proof. rewrite (length_by_status members). lia. Qed.

Lemma with_status_le (s : Status) (members : list Job) :
  (with_status s members ≤ length members)%nat.
Proof. unfold with_status. apply length_filter. Qed.

(** X1. For the periods week, month and year, and when no period is
    passed, the trends view has one bucket per key the date operator
    gives to a record of the caller applied for at or after the start of
    the window, in strictly ascending order of the key; a bucket reports
    the number of these records with its key and how many of them are
    applied, interviewing and offered. *)
Theorem trends_buckets (mongo_week mongo_quarter : Z → Z) (now : Z)
  (req : Request) (db : list Job) :
  valid_period (query req !! "period"%string) →
  Trends.period_of req ≠ "quarter"%string →
  ∃ dateFormat startDate docs,
    Trends.window mongo_week mongo_quarter now (Trends.period_of req)
    = Some (dateFormat, startDate)
    ∧ (Trends.handler mongo_week mongo_quarter now req db).2
      = res_json {| Trends.period := Trends.period_of req;
                    Trends.trends := Trends.with_conversion <$> docs |}
    ∧ StronglySorted Z.lt (Trends.Doc._id <$> docs)
    ∧ (∀ k, k ∈ Trends.Doc._id <$> docs
            ↔ in_bucket dateFormat k
                (since startDate (owned (req_user req) db)) ≠ [])
    ∧ ∀ d, d ∈ docs →
        let e := Trends.with_conversion d in
        let members :=
          in_bucket dateFormat (Trends.Entry.period e)
            (since startDate (owned (req_user req) db)) in
        Trends.Entry.totalApplications e = length members
        ∧ Trends.Entry.applied e = with_status applied members
        ∧ Trends.Entry.interviewing e = with_status interviewing members
        ∧ Trends.Entry.offered e = with_status offered members.
Proof.
  intros Hv Hq.
  destruct (trends_accepted mongo_week mongo_quarter now req db Hv Hq)
    as (dateFormat & startDate & Hw & Hreply).
  exists dateFormat, startDate,
    (Trends.pipeline (req_user req) dateFormat startDate db).
  split; [done|]. split; [by rewrite Hreply|].
  split; [apply trends_docs_ascending|]. split.
  - intros k. rewrite trends_docs_ids, group_by_keys.
    unfold in_bucket. by rewrite filter_nonempty.
  - intros d Hd. apply trends_docs_elem in Hd as (_ & Hc & Hs).
    simpl. rewrite Hs, !trends_counts. done.
Qed.

Lemma trends_buckets_witness :
  ∃ docs,
    (Trends.handler example_week example_quarter example_now
       (example_request 7 [("period", "year")]%string) example_db).2
    = res_json {| Trends.period := "year";
                  Trends.trends := Trends.with_conversion <$> docs |}
    ∧ StronglySorted Z.lt (Trends.Doc._id <$> docs).
Proof.
  destruct (trends_buckets example_week example_quarter example_now
              (example_request 7 [("period", "year")]%string) example_db eq_refl)
    as (dateFormat & startDate & docs & _ & Hreply & Hsorted & _);
    [discriminate|].
  exists docs. split; [exact Hreply | exact Hsorted].
Defined.

(** The rates of a bucket *)

Lemma half_up_2dp_nonneg (x : Q) : (0 <= x)%Q → (0 <= half_up_2dp x)%Q.
Proof.
  intros H0. unfold half_up_2dp. rewrite Qred_correct.
  assert (0 ≤ Qfloor (x * 100 + (1 # 2))) as Hlo.
  { change 0 with (Qfloor (inject_Z 0)). apply Qfloor_resp_le.
    change (inject_Z 0) with 0%Q. lra. }
  rewrite Zle_Qle in Hlo. change (inject_Z 0) with 0%Q in Hlo.
  unfold Qdiv. change (/ 100)%Q with (1 # 100)%Q. lra.
Qed.

Lemma trends_rate_range (n d : nat) :
  (n ≤ d)%nat →
  ∃ r, Trends.rate n d = Fin r ∧ (0 <= r)%Q ∧ (r <= 100)%Q.
Proof.
  intros Hle. unfold Trends.rate. destruct (0 <? d)%nat eqn:Hpos.
  - apply Nat.ltb_lt in Hpos. rewrite rate_expression_spec by done.
    eexists. split; [done|].
    destruct (percentage_range n d Hpos Hle). by apply half_up_2dp_range.
  - exists 0%Q. split; [done|]. split; lra.
Qed.

Lemma trends_rate_nonneg (n d : nat) :
  ∃ r, Trends.rate n d = Fin r ∧ (0 <= r)%Q.
Proof.
  unfold Trends.rate. destruct (0 <? d)%nat eqn:Hpos.
  - apply Nat.ltb_lt in Hpos. rewrite rate_expression_spec by done.
    eexists. split; [done|]. by apply half_up_2dp_nonneg, percentage_nonneg.
  - exists 0%Q. split; [done | lra].
Qed.

Lemma floor_of_integer_and_half (z : Z) : Qfloor (inject_Z z + (1 # 2)) = z.
Proof.
  pose proof (Qfloor_le (inject_Z z + (1 # 2))) as Hlo.
  pose proof (Qlt_floor (inject_Z z + (1 # 2))) as Hhi.
  set (f := Qfloor (inject_Z z + (1 # 2))) in *.
  assert (inject_Z f < inject_Z (z + 1))%Q as H1
    by (rewrite inject_Z_plus; change (inject_Z 1) with 1%Q; lra).
  assert (inject_Z z < inject_Z (f + 1))%Q as H2 by lra.
  rewrite <- Zlt_Qlt in H1, H2. lia.
Qed.

(** One interviewing record and [k] offers: the rate from interview to
    offer is [100 * k]. *)
Lemma rate_of_offers_per_interview (k : nat) :
  Trends.rate k 1 = Fin (inject_Z (100 * Z.of_nat k)).
Proof.
  unfold Trends.rate. change (0 <? 1)%nat with true. cbv iota. rewrite rate_expression_spec by lia.
  f_equal. unfold half_up_2dp.
  rewrite (Qfloor_comp (percentage k 1 * 100 + (1 # 2))
                       (inject_Z (10000 * Z.of_nat k) + (1 # 2))).
  - rewrite floor_of_integer_and_half.
    rewrite <- (inject_Z_Qred (100 * Z.of_nat k)). apply Qred_complete.
    rewrite !inject_Z_mult. change (inject_Z 10000) with 10000%Q.
    change (inject_Z 100) with 100%Q. field.
  - unfold percentage. rewrite inject_Z_mult.
    change (inject_Z 10000) with 10000%Q. change (inject_Z (Z.of_nat 1)) with 1%Q.
    field.
Qed.

Lemma count_status_cons (s t : Status) (statuses : list Status) :
  Trends.count_status s (t :: statuses)
  = ((if decide (t = s) then 1 else 0) + Trends.count_status s statuses)%nat.
Proof.
  unfold Trends.count_status. rewrite filter_cons. by destruct (decide (t = s)).
Qed.

Lemma count_status_replicate (s t : Status) (k : nat) :
  Trends.count_status s (replicate k t) = if decide (t = s) then k else 0%nat.
Proof.
  induction k as [|k IH]; [by destruct (decide _)|].
  change (replicate (S k) t) with (t :: replicate k t).
  rewrite count_status_cons, IH. by destruct (decide (t = s)).
Qed.

Lemma trends_data_pipeline (mongo_week mongo_quarter : Z → Z) (now : Z)
  (req : Request) (db : list Job) (d : Trends.Data) :
  data (Trends.handler mongo_week mongo_quarter now req db).2 = Some d →
  ∃ dateFormat startDate,
    Trends.trends d
    = Trends.with_conversion
      <$> Trends.pipeline (req_user req) dateFormat startDate db.
Proof.
  unfold Trends.handler. destruct (negb _); [done|].
  destruct (Trends.window _ _ _ _) as [[dateFormat startDate]|]; [|done].
  destruct (decide _); [done|].
  rewrite query_bind_aggregate. simpl. intros [= <-]. simpl. eauto.
Qed.

(** X2. In every bucket of the trends view the three status counts add
    up to at most the total, the rate from application to interview and
    the overall success rate lie between 0 and 100, and the rate from
    interview to offer is not negative; it is not bounded by 100: a
    bucket of one interviewing record and [k] offers reports
    [100 * k]. *)
Theorem trends_rates_bounds (mongo_week mongo_quarter : Z → Z) (now : Z)
  (req : Request) (db : list Job) :
  (∀ d, data (Trends.handler mongo_week mongo_quarter now req db).2 = Some d →
     ∀ e, e ∈ Trends.trends d →
       (Trends.Entry.applied e + Trends.Entry.interviewing e
        + Trends.Entry.offered e ≤ Trends.Entry.totalApplications e)%nat
       ∧ (∃ r, Trends.Entry.applicationToInterviewRate e = Fin r
               ∧ (0 <= r)%Q ∧ (r <= 100)%Q)
       ∧ (∃ r, Trends.Entry.overallSuccessRate e = Fin r
               ∧ (0 <= r)%Q ∧ (r <= 100)%Q)
       ∧ ∃ r, Trends.Entry.interviewToOfferRate e = Fin r ∧ (0 <= r)%Q)
  ∧ ∀ (k : nat) (key : Z),
      Trends.Entry.interviewToOfferRate
        (Trends.with_conversion
           {| Trends.Doc._id := key; Trends.Doc.applications := S k;
              Trends.Doc.statuses := interviewing :: replicate k offered |})
      = Fin (inject_Z (100 * Z.of_nat k)).
Proof.
  split.
  - intros d Hd e He.
    apply trends_data_pipeline in Hd as (dateFormat & startDate & Hdocs).
    rewrite Hdocs in He. apply list_elem_of_fmap in He as (doc & -> & Hdoc).
    apply trends_docs_elem in Hdoc as (_ & Hc & Hs).
    simpl. rewrite Hc, Hs, !trends_counts.
    split; [apply three_statuses_le|].
    split; [apply trends_rate_range, with_status_le|].
    split; [apply trends_rate_range, with_status_le|].
    apply trends_rate_nonneg.
  - intros k key. simpl.
    rewrite !count_status_cons, !count_status_replicate.
    rewrite (decide_False (P := interviewing = offered)) by done.
    rewrite (decide_False (P := offered = interviewing)) by done.
    rewrite !decide_True by done. simpl.
    apply rate_of_offers_per_interview.
Qed.

Lemma trends_rates_bounds_witness :
  (Trends.Entry.applied (Trends.with_conversion example_trend)
   + Trends.Entry.interviewing (Trends.with_conversion example_trend)
   + Trends.Entry.offered (Trends.with_conversion example_trend)
   ≤ Trends.Entry.totalApplications (Trends.with_conversion example_trend))%nat
  ∧ ∃ r, Trends.Entry.overallSuccessRate (Trends.with_conversion example_trend)
         = Fin r ∧ (0 <= r)%Q ∧ (r <= 100)%Q.
Proof.
  destruct (trends_rates_bounds example_week example_quarter example_now
              (example_request 7 [("period", "year")]%string) example_db)
    as [Hb _].
  destruct (Hb _ eq_refl (Trends.with_conversion example_trend))
    as (Hsum & _ & Hr & _); [vm_compute; left|].
  split; [exact Hsum | exact Hr].
Defined.

(** ** The status breakdown of the company and location views *)

Lemma breakdown_spec (members : list Job) :
  let breakdown := tally_statuses (status <$> members) in
  (∀ s, breakdown !! status_name s = breakdown_of (with_status s members))
  ∧ (∀ k, is_Some (breakdown !! k) → ∃ s, k = status_name s)
  ∧ sum_list ((λ s, default 0%nat (breakdown !! status_name s)) <$> all_statuses)
    = length members.
Proof.
  assert (∀ s, tally_statuses (status <$> members) !! status_name s
               = breakdown_of (with_status s members)) as Hlookup.
  { intros s. rewrite tally_statuses_lookup. simpl.
    by rewrite <- trends_counts. }
  split; [done|]. split; [apply tally_statuses_keys|].
  assert (∀ n, default 0%nat (breakdown_of n) = n) as Hdefault
    by (intros n; unfold breakdown_of; by destruct (decide (n = 0%nat)) as [->|]).
  unfold all_statuses. rewrite !fmap_cons, fmap_nil, !Hlookup, !Hdefault.
  rewrite (length_by_status members). simpl. lia.
Qed.

Lemma companies_data_docs (now : Z) (req : Request) (db : list Job)
  (entries : list Companies.Entry.t) :
  data (Companies.handler now req db).2 = Some entries →
  ∃ n, entries
       = Companies.with_success_rate <$> take n (company_docs (req_user req) now db).
Proof.
  unfold Companies.handler. destruct (negb _); [done|].
  rewrite query_bind_aggregate, companies_pipeline_limit. simpl.
  intros [= <-]. eauto.
Qed.

Lemma locations_data_docs (req : Request) (db : list Job)
  (entries : list Locations.Entry.t) :
  data (Locations.handler req db).2 = Some entries →
  entries = Locations.with_success_rate <$> Locations.pipeline (req_user req) db.
Proof.
  unfold Locations.handler. rewrite query_bind_aggregate. simpl. by intros [= <-].
Qed.

(** X3. In the companies and locations views the status breakdown of a
    group has, for each status, the number of the caller's records of
    the group with that status, and no key for a status that does not
    occur; it has no other keys, and its counts add up to the total of
    the group. *)
Theorem status_breakdown_by_group (now : Z) (req : Request) (db : list Job) :
  let mine := owned (req_user req) db in
  (∀ entries, data (Companies.handler now req db).2 = Some entries →
     ∀ e, e ∈ entries →
       let breakdown := Companies.Entry.statusBreakdown e in
       let members := in_company (Companies.Entry.company e) mine in
       (∀ s, breakdown !! status_name s = breakdown_of (with_status s members))
       ∧ (∀ k, is_Some (breakdown !! k) → ∃ s, k = status_name s)
       ∧ sum_list ((λ s, default 0%nat (breakdown !! status_name s))
                   <$> all_statuses)
         = Companies.Entry.totalApplications e)
  ∧ (∀ entries, data (Locations.handler req db).2 = Some entries →
       ∀ e, e ∈ entries →
         let breakdown := Locations.Entry.statusBreakdown e in
         let members := at_location (Locations.Entry.location e) mine in
         (∀ s, breakdown !! status_name s = breakdown_of (with_status s members))
         ∧ (∀ k, is_Some (breakdown !! k) → ∃ s, k = status_name s)
         ∧ sum_list ((λ s, default 0%nat (breakdown !! status_name s))
                     <$> all_statuses)
           = Locations.Entry.totalApplications e).
Proof.
  intros mine. split.
  - intros entries Hdata e He.
    apply companies_data_docs in Hdata as (n & ->).
    apply list_elem_of_fmap in He as (d & -> & Hd).
    apply subseteq_take in Hd.
    apply company_docs_elem in Hd as (_ & Hc & Hs & _).
    simpl. rewrite Hs, Hc. apply breakdown_spec.
  - intros entries Hdata e He.
    apply locations_data_docs in Hdata as ->.
    apply list_elem_of_fmap in He as (d & -> & Hd).
    apply location_docs_elem in Hd as (_ & _ & Hc & Hs).
    simpl. rewrite Hs, Hc. apply breakdown_spec.
Qed.

Lemma status_breakdown_by_group_witness :
  Locations.Entry.statusBreakdown (Locations.with_success_rate example_paris)
  !! status_name offered
  = breakdown_of
      (with_status offered
         (at_location
            (Locations.Entry.location (Locations.with_success_rate example_paris))
            (owned 7%nat example_db))).
Proof.
  destruct (status_breakdown_by_group example_now (example_request 7 [])
              example_db) as [_ Hl].
  destruct (Hl _ eq_refl (Locations.with_success_rate example_paris))
    as (Hs & _); [vm_compute; left|].
  exact (Hs offered).
Defined.

(** ** Every record is counted in one group *)

Lemma sum_list_take_le (n : nat) (l : list nat) :
  (sum_list (take n l) ≤ sum_list l)%nat.
Proof.
  rewrite <- (take_drop n l) at 2. rewrite sum_list_with_app. lia.
Qed.

Lemma grouped_counts {D K X} `{EqDecision K} (key : D → K)
  (mk : K * list D → X) (count : X → nat) (docs : list D) :
  (∀ g, count (mk g) = length g.2) →
  sum_list (count <$> (mk <$> group_by key docs)) = length docs.
Proof.
  intros Hcount. rewrite <- (group_by_sizes key docs).
  rewrite <- !list_fmap_compose. f_equal. apply list_fmap_ext.
  intros _ g _. simpl. apply Hcount.
Qed.

Lemma sorted_counts {A} (R : relation A) `{∀ x y, Decision (R x y)}
  (count : A → nat) (l : list A) :
  sum_list (count <$> sort_stage R l) = sum_list (count <$> l).
Proof.
  apply sum_list_Permutation. unfold sort_stage. by rewrite merge_sort_Permutation.
Qed.

Lemma company_docs_counts u now db :
  sum_list (Companies.Doc.count <$> company_docs u now db) = length (owned u db).
Proof. unfold company_docs. rewrite sorted_counts. by apply grouped_counts. Qed.

Lemma location_docs_counts u db :
  sum_list (Locations.Doc.count <$> Locations.pipeline u db)
  = length (located (owned u db)).
Proof.
  unfold Locations.pipeline. rewrite sorted_counts, match_owned.
  by apply grouped_counts.
Qed.

Lemma timeline_docs_counts u start db :
  sum_list (Timeline.Doc.count <$> Timeline.pipeline u start db)
  = length (since start (owned u db)).
Proof.
  unfold Timeline.pipeline. rewrite sorted_counts, match_owned.
  by apply grouped_counts.
Qed.

Lemma trends_docs_counts u dateFormat start db :
  sum_list (Trends.Doc.applications <$> Trends.pipeline u dateFormat start db)
  = length (since start (owned u db)).
Proof.
  unfold Trends.pipeline. rewrite sorted_counts, match_owned.
  by apply grouped_counts.
Qed.

Lemma take_all_keys {A B} (f : A → B) (n : nat) (l : list A) :
  NoDup (f <$> l) → (∀ x, x ∈ l → f x ∈ f <$> take n l) → take n l = l.
Proof.
  intros Hnd Hall. apply take_ge.
  assert (length (f <$> l) ≤ length (f <$> take n l))%nat as Hlen.
  { apply submseteq_length, NoDup_submseteq; [done|].
    intros y Hy. apply list_elem_of_fmap in Hy as (x & -> & Hx). by apply Hall. }
  rewrite !length_fmap, length_take in Hlen. lia.
Qed.

Lemma timeline_data_pipeline (now : Z) (req : Request) (db : list Job)
  (entries : list Timeline.Entry.t) :
  data (Timeline.handler now req db).2 = Some entries →
  entries
  = Timeline.format
    <$> Timeline.pipeline (req_user req)
          (setMonth now
             (getMonth now - or_default (parseInt (query req !! "months"%string)) 6))
          db.
Proof.
  unfold Timeline.handler. destruct (negb _); [done|].
  rewrite query_bind_aggregate. simpl. by intros [= <-].
Qed.

Lemma trends_data_window (mongo_week mongo_quarter : Z → Z) (now : Z)
  (req : Request) (db : list Job) (d : Trends.Data) dateFormat startDate :
  data (Trends.handler mongo_week mongo_quarter now req db).2 = Some d →
  Trends.window mongo_week mongo_quarter now (Trends.period_of req)
  = Some (dateFormat, startDate) →
  Trends.trends d
  = Trends.with_conversion
    <$> Trends.pipeline (req_user req) dateFormat startDate db.
Proof.
  unfold Trends.handler. destruct (negb _); [done|].
  intros Hd Hw. rewrite Hw in Hd. destruct (decide _); [done|].
  rewrite query_bind_aggregate in Hd.
  simpl in Hd. by injection Hd as <-.
Qed.

(** X4. The totals of a view add up to the number of records the view
    is about: in the locations view to the caller's records with a
    location, in the timeline and the trends view to the caller's
    records applied for at or after the start of the window.  In the
    companies view they add up to at most the caller's records, and to
    all of them when every company of the caller is among the entries
    returned. *)
Theorem totals_count_each_record_once (mongo_week mongo_quarter : Z → Z)
  (now : Z) (req : Request) (db : list Job) :
  let mine := owned (req_user req) db in
  (∀ entries, data (Companies.handler now req db).2 = Some entries →
     let sum := sum_list (Companies.Entry.totalApplications <$> entries) in
     (sum ≤ length mine)%nat
     ∧ ((∀ j, j ∈ mine → company j ∈ Companies.Entry.company <$> entries) →
        sum = length mine))
  ∧ (∀ entries, data (Locations.handler req db).2 = Some entries →
       sum_list (Locations.Entry.totalApplications <$> entries)
       = length (located mine))
  ∧ (∀ entries, data (Timeline.handler now req db).2 = Some entries →
       let months := or_default (parseInt (query req !! "months"%string)) 6 in
       sum_list (Timeline.Entry.total <$> entries)
       = length (since (setMonth now (getMonth now - months)) mine))
  ∧ (∀ d dateFormat startDate,
       data (Trends.handler mongo_week mongo_quarter now req db).2 = Some d →
       Trends.window mongo_week mongo_quarter now (Trends.period_of req)
       = Some (dateFormat, startDate) →
       sum_list (Trends.Entry.totalApplications <$> Trends.trends d)
       = length (since startDate mine)).
Proof.
  intros mine. split; [|split; [|split]].
  - intros entries Hdata. apply companies_data_docs in Hdata as (n & ->).
    rewrite <- !list_fmap_compose.
    rewrite (list_fmap_ext (Companies.Entry.totalApplications
                            ∘ Companies.with_success_rate)
               Companies.Doc.count (take n _)) by done.
    rewrite (list_fmap_ext (Companies.Entry.company
                            ∘ Companies.with_success_rate)
               Companies.Doc._id (take n _)) by done.
    simpl. split.
    + unfold mine. rewrite fmap_take, <- (company_docs_counts (req_user req) now db).
      apply sum_list_take_le.
    + intros Hall.
      rewrite (take_all_keys Companies.Doc._id n
                 (company_docs (req_user req) now db)).
      * apply company_docs_counts.
      * rewrite company_docs_ids. apply group_by_NoDup.
      * intros d Hd. apply company_docs_elem in Hd as (Hne & _).
        apply filter_nonempty in Hne as (j & Hj & <-). by apply Hall.
  - intros entries Hdata. apply locations_data_docs in Hdata as ->.
    rewrite <- list_fmap_compose.
    rewrite (list_fmap_ext _ Locations.Doc.count (Locations.pipeline _ _)) by done.
    apply location_docs_counts.
  - intros entries Hdata. apply timeline_data_pipeline in Hdata as ->.
    rewrite <- list_fmap_compose.
    rewrite (list_fmap_ext _ Timeline.Doc.count (Timeline.pipeline _ _ _)) by done.
    apply timeline_docs_counts.
  - intros d dateFormat startDate Hdata Hw.
    rewrite (trends_data_window _ _ _ _ _ _ _ _ Hdata Hw).
    rewrite <- list_fmap_compose.
    rewrite (list_fmap_ext _ Trends.Doc.applications (Trends.pipeline _ _ _ _))
      by done.
    apply trends_docs_counts.
Qed.

Lemma totals_count_each_record_once_witness :
  ∃ entries,
    data (Locations.handler (example_request 7 []) example_db).2 = Some entries
    ∧ sum_list (Locations.Entry.totalApplications <$> entries)
      = length (located (owned 7%nat example_db)).
Proof.
  destruct (totals_count_each_record_once example_week example_quarter
              example_now (example_request 7 []) example_db) as (_ & Hl & _).
  eexists. split; [reflexivity|]. apply Hl. reflexivity.
Defined.

(** ** How far back the windows reach *)

Lemma days_from_civil_from_days (z : Z) :
  days_from_civil (civil_from_days z).1.1 (civil_from_days z).1.2
    (civil_from_days z).2 = z.
Proof.
  unfold civil_from_days. cbn [fst snd].
  set (era := (z + 719468) / 146097).
  set (doe := z + 719468 - era * 146097).
  assert (0 ≤ doe ≤ 146096) as Hdoe
    by (subst doe era; Z.to_euclidean_division_equations; lia).
  assert (z = era * 146097 + doe - 719468) as Hz by (subst doe; lia).
  clearbody doe. 
  set (yoe := (doe - doe / 1460 + doe / 36524 - doe / 146096) / 365).
  set (doy := doe - (365 * yoe + yoe / 4 - yoe / 100)).
  assert (0 ≤ yoe ≤ 399 ∧ 0 ≤ doy ≤ 365) as [Hyoe Hdoy]
    by (subst doy yoe; Z.to_euclidean_division_equations; lia).
  assert (doe = yoe * 365 + yoe / 4 - yoe / 100 + doy) as Hd by (subst doy; lia).
  clearbody doy. clearbody yoe.
  set (mp := (5 * doy + 2) / 153).
  assert (0 ≤ mp ≤ 11) as Hmp
    by (subst mp; Z.to_euclidean_division_equations; lia).
  clearbody mp.
  unfold days_from_civil.
  assert ((if (if mp <? 10 then mp + 3 else mp - 9) <=? 2
           then (if (if mp <? 10 then mp + 3 else mp - 9) <=? 2
                 then yoe + era * 400 + 1 else yoe + era * 400) - 1
           else (if (if mp <? 10 then mp + 3 else mp - 9) <=? 2
                 then yoe + era * 400 + 1 else yoe + era * 400))
          = yoe + era * 400) as ->.
  { destruct (mp <? 10) eqn:H1; destruct (_ <=? 2) eqn:H2; lia. }
  assert ((if 2 <? (if mp <? 10 then mp + 3 else mp - 9)
           then (if mp <? 10 then mp + 3 else mp - 9) - 3
           else (if mp <? 10 then mp + 3 else mp - 9) + 9) = mp) as ->.
  { destruct (mp <? 10) eqn:H1; destruct (2 <? _) eqn:H2; lia. }
  assert ((yoe + era * 400) / 400 = era) as ->
    by (Z.to_euclidean_division_equations; lia).
  replace (yoe + era * 400 - era * 400) with yoe by lia.
  lia.
Qed.

Lemma first_of_month_step (y r : Z) :
  0 ≤ r ≤ 10 →
  28 ≤ days_from_civil y (r + 2) 1 - days_from_civil y (r + 1) 1 ≤ 31.
Proof.
  intros Hr.
  assert (r = 0 ∨ r = 1 ∨ r = 2 ∨ r = 3 ∨ r = 4 ∨ r = 5 ∨ r = 6 ∨ r = 7
          ∨ r = 8 ∨ r = 9 ∨ r = 10) as Hcases by lia.
  unfold days_from_civil.
  repeat (destruct Hcases as [-> | Hcases]); try subst r; simpl;
    Z.to_euclidean_division_equations; lia.
Qed.

Lemma first_of_year_step (y : Z) :
  days_from_civil (y + 1) 1 1 - days_from_civil y 12 1 = 31.
Proof.
  unfold days_from_civil. simpl. replace (y + 1 - 1) with y by lia.
  Z.to_euclidean_division_equations; lia.
Qed.

Lemma MakeDay_next_month (y m dt : Z) :
  28 ≤ MakeDay y (m + 1) dt - MakeDay y m dt ≤ 31.
Proof.
  unfold MakeDay.
  pose proof (Z.mod_pos_bound m 12 ltac:(lia)) as Hr.
  destruct (decide (m mod 12 = 11)) as [H11|H11].
  - assert ((m + 1) / 12 = m / 12 + 1 ∧ (m + 1) mod 12 = 0) as [-> ->]
      by (Z.to_euclidean_division_equations; lia).
    rewrite H11. replace (y + (m / 12 + 1)) with (y + m / 12 + 1) by lia.
    pose proof (first_of_year_step (y + m / 12)).
    change (0 + 1) with 1. change (11 + 1) with 12. lia.
  - assert ((m + 1) / 12 = m / 12 ∧ (m + 1) mod 12 = m mod 12 + 1) as [-> ->]
      by (Z.to_euclidean_division_equations; lia).
    pose proof (first_of_month_step (y + m / 12) (m mod 12) ltac:(lia)).
    replace (m mod 12 + 1 + 1) with (m mod 12 + 2) by lia. lia.
Qed.

Lemma MakeDay_months_back (y m dt : Z) (k : Z) :
  0 ≤ k →
  28 * k ≤ MakeDay y m dt - MakeDay y (m - k) dt ≤ 31 * k.
Proof.
  intros Hk. revert k Hk. apply natlike_ind.
  - replace (m - 0) with m by lia. lia.
  - intros k Hk IH.
    pose proof (MakeDay_next_month y (m - Z.succ k) dt) as Hstep.
    replace (m - Z.succ k + 1) with (m - k) in Hstep by lia. lia.
Qed.

Lemma MakeDay_three_months (y m dt : Z) :
  89 ≤ MakeDay y m dt - MakeDay y (m - 3) dt ≤ 92.
Proof.
  unfold MakeDay.
  pose proof (Z.mod_pos_bound m 12 ltac:(lia)) as Hr.
  assert (m = 12 * (m / 12) + m mod 12) as Hm by (apply Z.div_mod; lia).
  set (q := m / 12) in *. set (r := m mod 12) in *. clearbody q r. subst m.
  assert (r = 0 ∨ r = 1 ∨ r = 2 ∨ r = 3 ∨ r = 4 ∨ r = 5 ∨ r = 6 ∨ r = 7
          ∨ r = 8 ∨ r = 9 ∨ r = 10 ∨ r = 11) as Hcases by lia.
  repeat (destruct Hcases as [Hc | Hcases]); subst r.
  all: match goal with
       | |- context [(12 * ?q + ?c - 3) / 12] =>
           let d := eval vm_compute in ((c - 3) / 12) in
           let r := eval vm_compute in ((c - 3) mod 12) in
           assert ((12 * q + c - 3) / 12 = q + d
                   ∧ (12 * q + c - 3) mod 12 = r) as [-> ->]
             by (Z.to_euclidean_division_equations; lia)
       end.
  all: unfold days_from_civil; simpl.
  all: replace (y + (q + -1)) with (y + q - 1) by lia.
  all: replace (y + (q + 0)) with (y + q) by lia.
  all: set (Y := y + q); clearbody Y.
  all: Z.to_euclidean_division_equations; lia.
Qed.

Lemma MakeDay_year_back (y m dt : Z) :
  0 ≤ m ≤ 11 → 365 ≤ MakeDay y m dt - MakeDay (y - 1) m dt ≤ 366.
Proof.
  intros Hm. unfold MakeDay.
  assert (m / 12 = 0 ∧ m mod 12 = m) as [-> ->]
    by (Z.to_euclidean_division_equations; lia).
  assert (m = 0 ∨ m = 1 ∨ m = 2 ∨ m = 3 ∨ m = 4 ∨ m = 5 ∨ m = 6 ∨ m = 7
          ∨ m = 8 ∨ m = 9 ∨ m = 10 ∨ m = 11) as Hcases by lia.
  repeat (destruct Hcases as [Hc | Hcases]); subst m.
  all: unfold days_from_civil; simpl.
  all: Z.to_euclidean_division_equations; lia.
Qed.

Lemma days_from_civil_day (y m d : Z) :
  days_from_civil y m 1 + d - 1 = days_from_civil y m d.
Proof. unfold days_from_civil. lia. Qed.

Lemma getMonth_range (t : Z) : 0 ≤ getMonth t ≤ 11.
Proof. unfold getMonth. pose proof (civil_month_range (Day t)). lia. Qed.

(** A time is the day its calendar fields make and its time within
    the day. *)
Lemma MakeDay_of_fields (t : Z) :
  MakeDay (getFullYear t) (getMonth t) (getDate t) * msPerDay + TimeWithinDay t
  = t.
Proof.
  pose proof (getMonth_range t) as Hm. unfold MakeDay.
  assert (getMonth t / 12 = 0 ∧ getMonth t mod 12 = getMonth t) as [-> ->]
    by (Z.to_euclidean_division_equations; lia).
  rewrite days_from_civil_day. unfold getFullYear, getMonth, getDate.
  replace ((civil_from_days (Day t)).1.1 + 0) with (civil_from_days (Day t)).1.1
    by lia.
  replace ((civil_from_days (Day t)).1.2 - 1 + 1) with (civil_from_days (Day t)).1.2
    by lia.
  rewrite days_from_civil_from_days. unfold Day, TimeWithinDay.
  pose proof (Z.div_mod t msPerDay ltac:(done)). lia.
Qed.

Lemma MakeDay_day (y m d k : Z) : MakeDay y m (d - k) = MakeDay y m d - k.
Proof. unfold MakeDay. lia. Qed.

Lemma setMonth_back (t k : Z) :
  t - setMonth t (getMonth t - k)
  = (MakeDay (getFullYear t) (getMonth t) (getDate t)
     - MakeDay (getFullYear t) (getMonth t - k) (getDate t)) * msPerDay.
Proof. pose proof (MakeDay_of_fields t). unfold setMonth. lia. Qed.

Lemma msPerDay_pos : 0 < msPerDay.
Proof. done. Qed.

(** X5. The timeline window: the start date, [months] months before the
    request on the calendar (UTC), lies from 28 to 31 days per month
    before the request, at the same time of day. *)
Theorem timeline_window_reach (now months : Z) :
  0 ≤ months →
  let startDate := setMonth now (getMonth now - months) in
  28 * months * msPerDay ≤ now - startDate ≤ 31 * months * msPerDay
  ∧ TimeWithinDay startDate = TimeWithinDay now.
Proof.
  intros Hk startDate. subst startDate. split.
  - rewrite setMonth_back.
    pose proof (MakeDay_months_back (getFullYear now) (getMonth now)
                  (getDate now) months Hk).
    pose proof msPerDay_pos. nia.
  - unfold setMonth, TimeWithinDay at 1.
    rewrite Z.add_comm, Z.mod_add by done.
    apply Z.mod_mod. done.
Qed.

Lemma timeline_window_reach_witness :
  28 * 6 * msPerDay ≤ example_now - setMonth example_now (getMonth example_now - 6)
  ≤ 31 * 6 * msPerDay.
Proof.
  destruct (timeline_window_reach example_now 6) as [Hreach _]; [lia|].
  exact Hreach.
Defined.

(** X6. The windows of the trends view (UTC): a week starts exactly
    seven days before the request, a month 28 to 31 days, a quarter 89
    to 92 days and a year 365 or 366 days before it; the key of a
    bucket is what the store gives for the week, the month, the quarter
    or the year of the application date. *)
Theorem trend_windows_reach (mongo_week mongo_quarter : Z → Z) (now : Z) :
  let window := Trends.window mongo_week mongo_quarter now in
  window "week"%string = Some (mongo_week, now - 7 * msPerDay)
  ∧ (∃ start, window "month"%string = Some (mongo_month, start)
              ∧ 28 * msPerDay ≤ now - start ≤ 31 * msPerDay)
  ∧ (∃ start, window "quarter"%string = Some (mongo_quarter, start)
              ∧ 89 * msPerDay ≤ now - start ≤ 92 * msPerDay)
  ∧ (∃ start, window "year"%string = Some (mongo_year, start)
              ∧ 365 * msPerDay ≤ now - start ≤ 366 * msPerDay).
Proof.
  intros window. subst window. unfold Trends.window.
  pose proof msPerDay_pos as Hpos.
  split; [|split; [|split]].
  - rewrite decide_True by done. f_equal. f_equal.
    pose proof (MakeDay_of_fields now).
    unfold setDate. rewrite MakeDay_day. lia.
  - rewrite decide_False, decide_True by done. eexists. split; [done|].
    rewrite setMonth_back.
    pose proof (MakeDay_months_back (getFullYear now) (getMonth now)
                  (getDate now) 1 ltac:(lia)). nia.
  - rewrite !decide_False, decide_True by done. eexists. split; [done|].
    rewrite setMonth_back.
    pose proof (MakeDay_three_months (getFullYear now) (getMonth now)
                  (getDate now)). nia.
  - rewrite !decide_False, decide_True by done. eexists. split; [done|].
    pose proof (MakeDay_of_fields now). unfold setFullYear.
    pose proof (MakeDay_year_back (getFullYear now) (getMonth now)
                  (getDate now) (getMonth_range now)). nia.
Qed.

(** ** The virtuals of the Job model *)

Lemma ceiling_of_ratio (a m n : Z) :
  0 < m →
  Qceiling (inject_Z a / inject_Z m) = n ↔ (n - 1) * m < a ≤ n * m.
Proof.
  intros Hm.
  assert (0 < inject_Z m)%Q as HmQ
    by (change 0%Q with (inject_Z 0); by rewrite <- Zlt_Qlt).
  set (x := (inject_Z a / inject_Z m)%Q).
  assert (x * inject_Z m == inject_Z a)%Q as Hx
    by (subst x; field; lra).
  assert (∀ k : Z, (x <= inject_Z k)%Q ↔ a ≤ k * m) as Hle.
  { intros k. rewrite Zle_Qle, inject_Z_mult, <- Hx.
    symmetry. by apply Qmult_le_r. }
  assert (∀ k : Z, (inject_Z k < x)%Q ↔ k * m < a) as Hlt.
  { intros k. rewrite Zlt_Qlt, inject_Z_mult, <- Hx.
    symmetry. by apply Qmult_lt_r. }
  pose proof (Qle_ceiling x) as Hup. pose proof (Qceiling_lt x) as Hlo.
  apply Hle in Hup.
  apply Hlt in Hlo. clearbody x. split.
  - intros <-. lia.
  - intros [H1 H2]. nia.
Qed.

Lemma daysSinceApplication_ceiling (now : Z) (job : Job) :
  JobModel.daysSinceApplication now job
  = Fin (inject_Z (Qceiling (inject_Z (Z.abs (now - applicationDate job))
                             / inject_Z msPerDay))).
Proof.
  unfold JobModel.daysSinceApplication, JobModel.Math_abs, js_div.
  change (inject_Z msPerDay ?= 0)%Q with Gt. unfold JobModel.Math_ceil.
  f_equal. f_equal. apply Qceiling_comp. rewrite Qred_correct. done.
Qed.

(** X7. The number of days since the application is a whole number of
    days, the time between the request and the application date rounded
    up to a full day; it is 0 only at the very instant of the
    application, and a date after the request counts as one before. *)
Theorem days_since_application_rounds_up (now : Z) (job : Job) :
  ∃ n : Z,
    JobModel.daysSinceApplication now job = Fin (inject_Z n)
    ∧ (n - 1) * msPerDay < Z.abs (now - applicationDate job) ≤ n * msPerDay
    ∧ 0 ≤ n
    ∧ (n = 0 ↔ applicationDate job = now)
    ∧ ∀ later,
        applicationDate later - now = now - applicationDate job →
        JobModel.daysSinceApplication now later = Fin (inject_Z n).
Proof.
  eexists. split; [apply daysSinceApplication_ceiling|].
  set (n := Qceiling _).
  assert ((n - 1) * msPerDay < Z.abs (now - applicationDate job) ≤ n * msPerDay)
    as Hn by (by apply ceiling_of_ratio).
  pose proof msPerDay_pos. split; [done|]. split; [nia|]. split; [split|].
  - intros H0. rewrite H0 in Hn. lia.
  - intros <-. replace (applicationDate job - applicationDate job) with 0 in Hn by lia.
    simpl in Hn. nia.
  - intros later Hlater. rewrite daysSinceApplication_ceiling.
    replace (Z.abs (now - applicationDate later))
      with (Z.abs (now - applicationDate job)) by lia.
    done.
Qed.

Lemma insert_by_date_elem (i x : Interview) (l : list Interview) :
  x ∈ JobModel.insert_by_date i l ↔ x = i ∨ x ∈ l.
Proof.
  induction l as [|j l IH]; simpl.
  - rewrite list_elem_of_singleton, elem_of_nil. tauto.
  - destruct (decide (date i ≤ date j)).
    + by rewrite elem_of_cons.
    + rewrite !elem_of_cons, IH. tauto.
Qed.

Lemma sort_by_date_elem (x : Interview) (l : list Interview) :
  x ∈ JobModel.sort_by_date l ↔ x ∈ l.
Proof.
  unfold JobModel.sort_by_date. induction l as [|i l IH]; [done|].
  simpl. rewrite insert_by_date_elem, elem_of_cons, IH. done.
Qed.

Lemma insert_by_date_head (i : Interview) (l : list Interview) (d : Z) :
  (∀ h, head l = Some h → d ≤ date h) → d ≤ date i →
  ∀ h, head (JobModel.insert_by_date i l) = Some h → d ≤ date h.
Proof.
  intros Hl Hi h. destruct l as [|j l]; simpl.
  - by intros [= <-].
  - destruct (decide (date i ≤ date j)); simpl; intros [= <-]; [done|].
    by apply Hl.
Qed.

Lemma insert_by_date_sorted (i : Interview) (l : list Interview) :
  Sorted (λ a b, date a ≤ date b) l →
  Sorted (λ a b, date a ≤ date b) (JobModel.insert_by_date i l).
Proof.
  induction 1 as [|j l Hs IH Hhd]; simpl.
  - by repeat constructor.
  - destruct (decide (date i ≤ date j)).
    + by repeat constructor.
    + constructor; [done|].
      destruct l as [|k l]; simpl.
      * constructor. lia.
      * destruct (decide (date i ≤ date k)); constructor; [lia|].
        by inversion Hhd.
Qed.

Lemma sort_by_date_sorted (l : list Interview) :
  StronglySorted (λ a b, date a ≤ date b) (JobModel.sort_by_date l).
Proof.
  apply Sorted_StronglySorted; [intros a b c; lia|].
  unfold JobModel.sort_by_date. induction l as [|i l IH]; [constructor|].
  simpl. by apply insert_by_date_sorted.
Qed.

(** X8. The next interview of a job is one of its interviews dated
    after the request, and none of them is earlier; there is none
    exactly when no interview of the job is dated after the request. *)
Theorem next_interview_is_earliest_upcoming (now : Z) (job : Job) :
  match JobModel.nextInterview now job with
  | Some next =>
      next ∈ interviewDates job ∧ now < date next
      ∧ ∀ i, i ∈ interviewDates job → now < date i → date next ≤ date i
  | None => ∀ i, i ∈ interviewDates job → date i ≤ now
  end.
Proof.
  unfold JobModel.nextInterview.
  destruct (interviewDates job) as [|i0 l0] eqn:Hl.
  { intros i Hi. by apply elem_of_nil in Hi. }
  rewrite <- Hl. clear Hl i0 l0.
  set (upcoming := filter (λ interview, now < date interview) (interviewDates job)).
  pose proof (sort_by_date_sorted upcoming) as Hsorted.
  pose proof (sort_by_date_elem) as Helem.
  destruct (JobModel.sort_by_date upcoming) as [|next rest] eqn:Hs; simpl.
  - intros i Hi. destruct (decide (now < date i)) as [Hlt|]; [|lia].
    assert (i ∈ upcoming) as Hup by (by apply list_elem_of_filter).
    apply (Helem i) in Hup. rewrite Hs in Hup. by apply elem_of_nil in Hup.
  - assert (next ∈ upcoming) as Hnext by (apply Helem; rewrite Hs; left).
    apply list_elem_of_filter in Hnext as [Hlt Hin].
    split; [done|]. split; [done|].
    intros i Hi Hi'. assert (i ∈ upcoming) as Hup by (by apply list_elem_of_filter).
    apply (Helem i) in Hup. rewrite Hs in Hup.
    apply elem_of_cons in Hup as [->|Hrest]; [lia|].
    apply StronglySorted_inv in Hsorted as [_ Hall].
    by apply (proj1 (Forall_forall _ _) Hall).
Qed.

(** ** The requests on one job *)

Lemma findById_store_other (k : ObjectId) (job : Job) (db : list Job) :
  k ≠ _id job → Jobs.findById k (Jobs.store job db) = Jobs.findById k db.
Proof.
  unfold Jobs.findById. intros Hk. induction db as [|j db IH]; [done|].
  simpl. destruct (decide (_id j = _id job)) as [Hj|Hj].
  - rewrite !filter_cons, !decide_False by congruence. done.
  - rewrite !filter_cons. destruct (decide (_id j = k)); [done|]. exact IH.
Qed.

Lemma store_ids (job : Job) (db : list Job) :
  _id <$> Jobs.store job db = _id <$> db.
Proof.
  induction db as [|j db IH]; [done|].
  simpl. destruct (decide (_id j = _id job)) as [Hj|Hj].
  - by rewrite !fmap_cons, Hj.
  - by rewrite !fmap_cons, IH.
Qed.

Lemma store_owned (old job : Job) (db : list Job) (v : ObjectId) :
  Jobs.findById (_id job) db = Some old → user old ≠ v → user job ≠ v →
  owned v (Jobs.store job db) = owned v db.
Proof.
  unfold Jobs.findById, owned. intros Hold Ho Hj.
  induction db as [|j db IH]; [done|].
  simpl. rewrite filter_cons in Hold.
  destruct (decide (_id j = _id job)) as [Hid|Hid].
  - injection Hold as ->. by rewrite !filter_cons, !decide_False.
  - rewrite !filter_cons, IH by done. done.
Qed.

Lemma findById_delete_other (k id : ObjectId) (db : list Job) :
  k ≠ id →
  Jobs.findById k (JobsRoutes.findByIdAndDelete id db) = Jobs.findById k db.
Proof.
  unfold Jobs.findById. intros Hk. induction db as [|j db IH]; [done|].
  simpl. destruct (decide (_id j = id)) as [Hj|Hj].
  - by rewrite filter_cons, decide_False by congruence.
  - rewrite !filter_cons. destruct (decide (_id j = k)); [done|]. exact IH.
Qed.

Lemma delete_owned (id : ObjectId) (old : Job) (db : list Job) (v : ObjectId) :
  Jobs.findById id db = Some old → user old ≠ v →
  owned v (JobsRoutes.findByIdAndDelete id db) = owned v db.
Proof.
  unfold Jobs.findById, owned. intros Hold Ho.
  induction db as [|j db IH]; [done|].
  simpl. rewrite filter_cons in Hold.
  destruct (decide (_id j = id)) as [Hid|Hid].
  - injection Hold as ->. by rewrite filter_cons, decide_False.
  - rewrite !filter_cons, IH by done. done.
Qed.

Lemma delete_removes (id : ObjectId) (old : Job) (db : list Job) :
  Jobs.findById id db = Some old →
  db ≡ₚ old :: JobsRoutes.findByIdAndDelete id db.
Proof.
  unfold Jobs.findById. intros Hold. induction db as [|j db IH]; [done|].
  simpl. rewrite filter_cons in Hold.
  destruct (decide (_id j = id)) as [Hid|Hid].
  - by injection Hold as ->.
  - rewrite (IH Hold) at 1. apply Permutation_swap.
Qed.

Lemma findById_absent (id : ObjectId) (db : list Job) :
  id ∉ _id <$> db → Jobs.findById id db = None.
Proof.
  unfold Jobs.findById. intros Hnot.
  destruct (filter _ db) as [|j l] eqn:Hf; [done|].
  assert (j ∈ filter (λ j, _id j = id) db) as Hj by (rewrite Hf; left).
  apply list_elem_of_filter in Hj as [<- Hj].
  destruct Hnot. apply list_elem_of_fmap. eauto.
Qed.

Lemma delete_unique (id : ObjectId) (old : Job) (db : list Job) :
  NoDup (_id <$> db) → Jobs.findById id db = Some old →
  Jobs.findById id (JobsRoutes.findByIdAndDelete id db) = None.
Proof.
  intros Hnd Hold. apply findById_absent.
  destruct (findById_id _ _ _ Hold) as [Hid _].
  rewrite (delete_removes id old db Hold), fmap_cons, Hid in Hnd.
  by apply NoDup_cons in Hnd as [? _].
Qed.

Lemma status_of_name_status (s : Status) :
  JobsRoutes.status_of_name (status_name s) = Some s.
Proof. by destruct s. Qed.

Lemma status_name_listed (s : Status) :
  isIn (status_name <$> all_statuses) (status_name s) = true.
Proof. by destruct s. Qed.

Lemma status_chain_accepts (body : gmap string string) (s : Status) :
  body !! "status"%string = Some (status_name s) →
  validationResult body "body" JobsRoutes.status_chains = [].
Proof.
  intros Hs. unfold JobsRoutes.status_chains. rewrite validation_single.
  unfold run_chain. simpl. rewrite Hs. simpl. by rewrite status_name_listed.
Qed.

Lemma saved_status (now now' : Z) (s : Status) (job : Job) :
  let job' := Jobs.pre_save now' (JobModel.updateStatus now s job) in
  _id job' = _id job ∧ user job' = user job ∧ title job' = title job
  ∧ company job' = company job ∧ location job' = location job
  ∧ applicationDate job' = applicationDate job
  ∧ interviewDates job' = interviewDates job
  ∧ status job' = s
  ∧ followUpDate job'
    = match s, followUpDate job with
      | interviewing, None => Some (now + 7 * msPerDay)
      | _, kept => kept
      end.
Proof.
  unfold Jobs.pre_save, JobModel.updateStatus. simpl.
  by destruct s, (followUpDate job).
Qed.

(** X9. A request that sets the status of a job of the caller stores
    the new status; a job that moves to the interview stage without a
    follow-up date gets one seven days after the request, a follow-up
    date already set is kept, and no other status sets one; the other
    fields of the job are as before. *)
Theorem status_update_sets_follow_up (now now' : Z) (req : Jobs.Request)
  (db : list Job) (job : Job) (s : Status) :
  Jobs.body req !! "status"%string = Some (status_name s) →
  Jobs.findById (Jobs.id req) db = Some job →
  user job = Jobs.req_user req →
  ∃ job',
    JobsRoutes.update_status now now' req db
    = (Jobs.store job' db,
       JobsRoutes.Json 200 true (Some "Job status updated successfully"%string)
         (Some job'))
    ∧ Jobs.findById (Jobs.id req) (Jobs.store job' db) = Some job'
    ∧ status job' = s
    ∧ followUpDate job'
      = match s, followUpDate job with
        | interviewing, None => Some (now + 7 * msPerDay)
        | _, kept => kept
        end
    ∧ _id job' = _id job ∧ user job' = user job ∧ title job' = title job
    ∧ company job' = company job ∧ location job' = location job
    ∧ applicationDate job' = applicationDate job
    ∧ interviewDates job' = interviewDates job.
Proof.
  intros Hs Hfind Howner.
  destruct (findById_id _ _ _ Hfind) as [Hid _].
  destruct (saved_status now now' s job)
    as (Hi & Hu & Ht & Hc & Hl & Ha & Hiv & Hst & Hf).
  exists (Jobs.pre_save now' (JobModel.updateStatus now s job)).
  split; [|split].
  - unfold JobsRoutes.update_status.
    rewrite (status_chain_accepts _ s Hs), Hfind. simpl.
    rewrite bool_decide_eq_true_2 by done. simpl.
    by rewrite Hs; simpl; rewrite status_of_name_status.
  - apply (findById_store _ _ job); [done|]. by rewrite Hi.
  - done.
Qed.

Lemma status_update_sets_follow_up_witness :
  ∃ job',
    (JobsRoutes.update_status example_now (example_now + 1) example_patch
       example_db).2
    = JobsRoutes.Json 200 true (Some "Job status updated successfully"%string)
        (Some job')
    ∧ status job' = interviewing
    ∧ followUpDate job' = Some (example_now + 7 * msPerDay).
Proof.
  destruct (status_update_sets_follow_up example_now (example_now + 1)
              example_patch example_db
              (example_job 5 7 "Bolt" (Some "Rome"%string) applied
                 (example_now - 70 * msPerDay)
                 [example_interview onsite pending]) interviewing)
    as (job' & Hrun & _ & Hstatus & Hfollow & _);
    [reflexivity | reflexivity | reflexivity |].
  exists job'. split; [by rewrite Hrun|]. split; [exact Hstatus | exact Hfollow].
Defined.

Lemma pre_save_owner (now : Z) (job : Job) :
  _id (Jobs.pre_save now job) = _id job ∧ user (Jobs.pre_save now job) = user job.
Proof. unfold Jobs.pre_save. by destruct (status job), (followUpDate job). Qed.

(** X10. A request for a job that does not exist or that belongs to
    someone else gets none of it: reading and deleting answer 404 for a
    missing job and 403 for a job of another user, changing the status
    and adding an interview answer the same unless the body fails
    validation first, and the store stays as it was. *)
Theorem only_the_owner_reaches_a_job (isISO8601 : string → bool)
  (castDate : string → option Z) (now now' : Z) (req : Jobs.Request)
  (db : list Job) :
  (∀ job, Jobs.findById (Jobs.id req) db = Some job →
          user job ≠ Jobs.req_user req) →
  let found := Jobs.findById (Jobs.id req) db in
  let code := match found with Some _ => 403%nat | None => 404%nat end in
  let refusal action :=
    JobsRoutes.thrown
      (match found with
       | Some _ => "Not authorized to " ++ action ++ " this job"
       | None => "Job not found"
       end)%string code in
  JobsRoutes.get_job req db = refusal "access"%string
  ∧ JobsRoutes.delete_job req db = (db, refusal "delete"%string)
  ∧ (JobsRoutes.update_status now now' req db = (db, refusal "update"%string)
     ∨ ∃ errors, errors ≠ []
         ∧ JobsRoutes.update_status now now' req db
           = (db, JobsRoutes.ValidationFailed errors))
  ∧ (Jobs.add_interview isISO8601 castDate now req db
     = (db, Jobs.Thrown (match found with
                         | Some _ => "Not authorized to update this job"
                         | None => "Job not found"
                         end) code)
     ∨ ∃ errors, errors ≠ []
         ∧ Jobs.add_interview isISO8601 castDate now req db
           = (db, Jobs.ValidationFailed errors)).
Proof.
  intros Hnot found code refusal. subst refusal code found.
  unfold JobsRoutes.get_job, JobsRoutes.delete_job, JobsRoutes.update_status,
    Jobs.add_interview.
  generalize (validationResult (Jobs.body req) "body" JobsRoutes.status_chains).
  generalize (validationResult (Jobs.body req) "body" (Jobs.chains isISO8601)).
  intros errs2 errs1.
  destruct (Jobs.findById (Jobs.id req) db) as [job|].
  - rewrite bool_decide_eq_false_2 by (by apply Hnot). simpl.
    split; [done|]. split; [done|].
    split; [destruct errs1 as [|e errors] | destruct errs2 as [|e errors]];
      simpl; try (by left); right; by exists (e :: errors).
  - split; [done|]. split; [done|].
    split; [destruct errs1 as [|e errors] | destruct errs2 as [|e errors]];
      simpl; try (by left); right; by exists (e :: errors).
Qed.

Lemma only_the_owner_reaches_a_job_witness :
  JobsRoutes.get_job example_foreign example_db
  = JobsRoutes.thrown "Not authorized to access this job" 403
  ∧ JobsRoutes.update_status example_now example_now example_foreign example_db
    = (example_db,
       JobsRoutes.thrown "Not authorized to update this job" 403).
Proof.
  destruct (only_the_owner_reaches_a_job example_isISO8601 example_castDate
              example_now example_now example_foreign example_db)
    as (Hget & _ & Hupdate & _).
  - intros job Hjob. vm_compute in Hjob. injection Hjob as <-. vm_compute. lia.
  - split; [exact Hget|].
    destruct Hupdate as [Hupdate | (errors & Hne & Hupdate)]; [exact Hupdate|].
    vm_compute in Hupdate. discriminate Hupdate.
Defined.

(** X11. A request on a job changes no other job: after a status
    update, an added interview or a deletion every other identifier
    finds what it found before and the records of every other user are
    as they were; a status update and an added interview neither create
    nor remove a record. *)
Theorem requests_touch_one_job (isISO8601 : string → bool)
  (castDate : string → option Z) (now now' : Z) (req : Jobs.Request)
  (db : list Job) :
  let after_update := (JobsRoutes.update_status now now' req db).1 in
  let after_add := (Jobs.add_interview isISO8601 castDate now req db).1 in
  let after_delete := (JobsRoutes.delete_job req db).1 in
  (∀ db', db' ∈ [after_update; after_add; after_delete] →
     (∀ k, k ≠ Jobs.id req → Jobs.findById k db' = Jobs.findById k db)
     ∧ (∀ v, v ≠ Jobs.req_user req → owned v db' = owned v db))
  ∧ _id <$> after_update = _id <$> db
  ∧ _id <$> after_add = _id <$> db.
Proof.
  intros after_update after_add after_delete.
  assert (∀ job job', Jobs.findById (Jobs.id req) db = Some job →
            user job = Jobs.req_user req →
            _id job' = _id job → user job' = user job →
            (∀ k, k ≠ Jobs.id req →
               Jobs.findById k (Jobs.store job' db) = Jobs.findById k db)
            ∧ (∀ v, v ≠ Jobs.req_user req →
                 owned v (Jobs.store job' db) = owned v db)) as Hstore.
  { intros job job' Hfind Howner Hid Hu.
    destruct (findById_id _ _ _ Hfind) as [Hk _]. split.
    - intros k Hne. apply findById_store_other. congruence.
    - intros v Hv. apply (store_owned job); [|congruence..].
      by rewrite Hid, Hk. }
  assert ((∀ k, k ≠ Jobs.id req →
             Jobs.findById k after_update = Jobs.findById k db)
          ∧ (∀ v, v ≠ Jobs.req_user req → owned v after_update = owned v db)
          ∧ _id <$> after_update = _id <$> db) as (Hu1 & Hu2 & Hu3).
  { subst after_update. unfold JobsRoutes.update_status.
    destruct (negb _); [done|].
    destruct (Jobs.findById _ _) as [job|] eqn:Hfind; [|done].
    destruct (bool_decide (user job = Jobs.req_user req)) eqn:Howner; [|done].
    apply bool_decide_eq_true in Howner. simpl.
    destruct (_ ≫= _) as [s|]; [|done]. simpl.
    destruct (saved_status now now' s job) as (Hi & Hu & _).
    destruct (Hstore job _ eq_refl Howner Hi Hu) as [? ?].
    split; [done|]. split; [done|]. apply store_ids. }
  assert ((∀ k, k ≠ Jobs.id req →
             Jobs.findById k after_add = Jobs.findById k db)
          ∧ (∀ v, v ≠ Jobs.req_user req → owned v after_add = owned v db)
          ∧ _id <$> after_add = _id <$> db) as (Ha1 & Ha2 & Ha3).
  { subst after_add. unfold Jobs.add_interview.
    destruct (negb _); [done|].
    destruct (Jobs.findById _ _) as [job|] eqn:Hfind; [|done].
    destruct (bool_decide (user job = Jobs.req_user req)) eqn:Howner; [|done].
    apply bool_decide_eq_true in Howner. simpl.
    destruct (Jobs.pushed _ _) as [interview|]; [|done]. simpl.
    match goal with
    | |- context [Jobs.store (Jobs.pre_save now ?j) db] =>
        destruct (pre_save_owner now j) as [Hi Hu];
        destruct (Hstore job (Jobs.pre_save now j) eq_refl Howner Hi Hu) as [? ?]
    end.
    split; [done|]. split; [done|]. apply store_ids. }
  assert ((∀ k, k ≠ Jobs.id req →
             Jobs.findById k after_delete = Jobs.findById k db)
          ∧ (∀ v, v ≠ Jobs.req_user req → owned v after_delete = owned v db))
    as (Hd1 & Hd2).
  { subst after_delete. unfold JobsRoutes.delete_job.
    destruct (Jobs.findById _ _) as [job|] eqn:Hfind; [|done].
    destruct (bool_decide (user job = Jobs.req_user req)) eqn:Howner; [|done].
    apply bool_decide_eq_true in Howner. simpl. split.
    - intros k Hk. by apply findById_delete_other.
    - intros v Hv. apply (delete_owned _ job); [done | congruence]. }
  split; [|done].
  intros db' Hdb'. repeat (apply elem_of_cons in Hdb' as [-> | Hdb']); [done..|].
  by apply elem_of_nil in Hdb'.
Qed.

Lemma requests_touch_one_job_witness :
  owned 8%nat (JobsRoutes.update_status example_now example_now example_patch
                 example_db).1
  = owned 8%nat example_db.
Proof.
  destruct (requests_touch_one_job example_isISO8601 example_castDate
              example_now example_now example_patch example_db) as [Hframe _].
  destruct (Hframe (JobsRoutes.update_status example_now example_now
                      example_patch example_db).1) as [_ Howned]; [left|].
  apply Howned. vm_compute. lia.
Defined.

(** X12. Deleting a job of the caller removes that record and nothing
    else; with identifiers that are unique, the job is then not found:
    reading it answers 404, and so does deleting it again. *)
Theorem deletion_removes_the_job (req : Jobs.Request) (db : list Job) (job : Job) :
  Jobs.findById (Jobs.id req) db = Some job →
  user job = Jobs.req_user req →
  ∃ db',
    JobsRoutes.delete_job req db
    = (db', JobsRoutes.Json 200 true (Some "Job deleted successfully"%string) None)
    ∧ db ≡ₚ job :: db'
    ∧ (NoDup (_id <$> db) →
       Jobs.findById (Jobs.id req) db' = None
       ∧ JobsRoutes.get_job req db' = JobsRoutes.thrown "Job not found" 404
       ∧ JobsRoutes.delete_job req db'
         = (db', JobsRoutes.Json 404 false (Some "Job not found"%string) None)).
Proof.
  intros Hfind Howner. exists (JobsRoutes.findByIdAndDelete (Jobs.id req) db).
  split; [|split].
  - unfold JobsRoutes.delete_job. rewrite Hfind.
    by rewrite bool_decide_eq_true_2.
  - by apply delete_removes.
  - intros Hnd. pose proof (delete_unique _ _ _ Hnd Hfind) as Hgone.
    unfold JobsRoutes.get_job, JobsRoutes.delete_job. by rewrite Hgone.
Qed.

Lemma deletion_removes_the_job_witness :
  ∃ db',
    JobsRoutes.delete_job example_own example_db
    = (db', JobsRoutes.Json 200 true (Some "Job deleted successfully"%string) None)
    ∧ JobsRoutes.get_job example_own db' = JobsRoutes.thrown "Job not found" 404.
Proof.
  destruct (deletion_removes_the_job example_own example_db
              (example_job 2 7 "Acme" None rejected
                 (example_now - 40 * msPerDay) []))
    as (db' & Hrun & _ & Hgone); [reflexivity | reflexivity |].
  exists db'. split; [exact Hrun|].
  destruct Hgone as (_ & Hget & _); [|exact Hget].
  apply (bool_decide_unpack _). vm_compute. exact I.
Defined.

(** X13. Adding an interview runs the hook of the model on the changed
    job: a job that is applied or interviewing and has no follow-up date
    gets one seven days after the request, a follow-up date already set
    is kept, a job of another status gets none; identifier, owner,
    title, company, location and application date stay as they were. *)
Theorem added_interview_schedules_follow_up (isISO8601 : string → bool)
  (castDate : string → option Z) (now : Z) (req : Jobs.Request)
  (db : list Job) (job : Job) (interview : Interview) :
  validationResult (Jobs.body req) "body" (Jobs.chains isISO8601) = [] →
  Jobs.findById (Jobs.id req) db = Some job →
  user job = Jobs.req_user req →
  Jobs.pushed castDate (Jobs.body req) = Some interview →
  ∃ job',
    Jobs.add_interview isISO8601 castDate now req db
    = (Jobs.store job' db, Jobs.Ok "Interview added successfully" job')
    ∧ followUpDate job'
      = match followUpDate job with
        | Some d => Some d
        | None =>
            if decide (status job = applied ∨ status job = interviewing)
            then Some (now + 7 * msPerDay) else None
        end
    ∧ _id job' = _id job ∧ user job' = user job ∧ title job' = title job
    ∧ company job' = company job ∧ location job' = location job
    ∧ applicationDate job' = applicationDate job.
Proof.
  intros Hvalid Hfind Howner Hpush.
  unfold Jobs.add_interview. rewrite Hvalid, Hfind, Hpush. simpl.
  rewrite bool_decide_eq_true_2 by done. simpl.
  eexists. split; [done|].
  unfold Jobs.pre_save. simpl.
  destruct (status job), (followUpDate job); simpl; done.
Qed.

Lemma added_interview_schedules_follow_up_witness :
  ∃ job',
    Jobs.add_interview example_isISO8601 example_castDate example_now
      example_add example_db
    = (Jobs.store job' example_db, Jobs.Ok "Interview added successfully" job')
    ∧ followUpDate job' = Some (example_now + 7 * msPerDay).
Proof.
  destruct (added_interview_schedules_follow_up example_isISO8601
              example_castDate example_now example_add example_db
              (example_job 5 7 "Bolt" (Some "Rome"%string) applied
                 (example_now - 70 * msPerDay)
                 [example_interview onsite pending])
              {| date := 1793836800000; type := video; notes := None;
                 outcome := pending |})
    as (job' & Hrun & Hfollow & _);
    [reflexivity | reflexivity | reflexivity | reflexivity |].
  exists job'. split; [exact Hrun | exact Hfollow].
Defined.

(** ** Orders and pages *)

Lemma ascii_compare_trans (a b c : ascii) :
  (a ?= b)%char ≠ Gt → (b ?= c)%char ≠ Gt → (a ?= c)%char ≠ Gt.
Proof.
  unfold Ascii.compare. rewrite !N.compare_le_iff. lia.
Qed.

Lemma ascii_compare_eq_trans (a b c : ascii) :
  (a ?= b)%char ≠ Gt → (b ?= c)%char ≠ Gt → (a ?= c)%char = Eq →
  (a ?= b)%char = Eq ∧ (b ?= c)%char = Eq.
Proof.
  unfold Ascii.compare. rewrite !N.compare_le_iff, !N.compare_eq_iff. lia.
Qed.

#[local] Instance string_le_trans : Transitive string_le.
Proof.
  unfold string_le. intros s1.
  induction s1 as [|a s1 IH]; intros [|b s2] [|c s3]; simpl; try done.
  intros H12 H23.
  destruct (a ?= c)%char eqn:Hac; [|done|].
  - destruct (ascii_compare_eq_trans a b c) as [Hab Hbc]; [| |done|].
    + by destruct (a ?= b)%char.
    + by destruct (b ?= c)%char.
    + rewrite Hab in H12. rewrite Hbc in H23. by apply (IH s2).
  - assert ((a ?= c)%char ≠ Gt) as Hne; [|done].
    apply (ascii_compare_trans a b c).
    + by destruct (a ?= b)%char.
    + by destruct (b ?= c)%char.
Qed.

#[local] Instance string_le_total : Total string_le.
Proof.
  unfold string_le. intros s1 s2. rewrite (String.compare_antisym s2 s1).
  destruct (s1 ?= s2)%string; simpl; auto.
Qed.

#[local] Instance sort_order_total createdAt updatedAt sortBy sortOrder :
  Total (JobsRoutes.sort_order createdAt updatedAt sortBy sortOrder).
Proof.
  intros a b. unfold JobsRoutes.sort_order, JobsRoutes.sort_le.
  repeat case_decide; try apply string_le_total; lia.
Qed.

#[local] Instance sort_order_trans createdAt updatedAt sortBy sortOrder :
  Transitive (JobsRoutes.sort_order createdAt updatedAt sortBy sortOrder).
Proof.
  intros a b c. unfold JobsRoutes.sort_order, JobsRoutes.sort_le.
  repeat case_decide; try lia; intros; by etrans.
Qed.


Lemma pages_ceiling (total : nat) (limit : Z) :
  1 ≤ limit →
  JobModel.Math_ceil (js_div (of_nat total) (Fin (inject_Z limit)))
  = Fin (inject_Z (ceil_div total limit)).
Proof.
  intros Hl. unfold js_div, of_nat.
  assert ((inject_Z limit ?= 0)%Q = Gt) as ->.
  { apply Qgt_alt. change 0%Q with (inject_Z 0). rewrite <- Zlt_Qlt. lia. }
  unfold JobModel.Math_ceil. f_equal. f_equal.
  rewrite (Qceiling_comp _ _ (Qred_correct _)).
  apply ceiling_of_ratio; [lia|]. unfold ceil_div.
  pose proof (Z.div_mod (Z.of_nat total + limit - 1) limit ltac:(lia)).
  pose proof (Z.mod_pos_bound (Z.of_nat total + limit - 1) limit ltac:(lia)).
  nia.
Qed.

Lemma page_length {A} (limit skip : nat) (l : list A) :
  length (take limit (drop skip l)) = (limit `min` (length l - skip))%nat.
Proof. by rewrite length_take, length_drop. Qed.

(** Cutting a list into pages of [limit] and putting the pages together
    gives the list back. *)
Lemma pages_concat {A} (limit : nat) (l : list A) (n : nat) :
  (0 < limit)%nat → (length l ≤ n * limit)%nat →
  concat ((λ k, take limit (drop (k * limit) l)) <$> seq 0 n) = l.
Proof.
  intros Hpos. revert l. induction n as [|n IH]; intros l Hlen.
  - destruct l; [done | simpl in Hlen; lia].
  - rewrite <- cons_seq, fmap_cons, <- fmap_S_seq, <- list_fmap_compose.
    rewrite concat_cons.
    rewrite (list_fmap_ext _ (λ k, take limit (drop (k * limit) (drop limit l)))).
    + rewrite IH by (rewrite length_drop; lia).
      change (0 * limit)%nat with 0%nat. apply take_drop.
    + intros _ k _. simpl. rewrite drop_drop. do 2 f_equal; lia.
Qed.

(** ** The listing of jobs *)

Lemma run_chain_passes (fields : gmap string string) (w : string) (c : Chain) :
  run_chain fields w c = []
  ↔ match fields !! field c with
    | Some v => validator c v = true
    | None => optional c = true
    end.
Proof.
  unfold run_chain. destruct (fields !! field c) as [v|].
  - by destruct (validator c v).
  - by destruct (optional c).
Qed.

Lemma validation_passes (fields : gmap string string) (w : string)
  (chains : list Chain) :
  validationResult fields w chains = []
  ↔ Forall (λ c, run_chain fields w c = []) chains.
Proof.
  unfold validationResult. induction chains as [|c chains IH].
  - split; [constructor | done].
  - rewrite bind_cons, Forall_cons, <- IH. split.
    + by intros [? ?]%app_eq_nil.
    + by intros [-> ->].
Qed.

Lemma isEmpty_nil {A} (l : list A) : isEmpty l = true ↔ l = [].
Proof. by destruct l. Qed.

Lemma isInt_min_spec (lo : Z) (s : string) :
  JobsRoutes.isInt_min lo s = true ↔ ∃ n, int_literal s = Some n ∧ lo ≤ n.
Proof.
  unfold JobsRoutes.isInt_min. destruct (int_literal s) as [n|]; split.
  - intros ?%Z.leb_le. eauto.
  - intros (n' & [= <-] & Hr). by apply Z.leb_le.
  - done.
  - by intros (n' & Heq & _).
Qed.

(** What the chains of the listing ask of a query string. *)
Lemma list_chains_pass (q : gmap string string) :
  validationResult q "query" JobsRoutes.list_chains = []
  ↔ (∀ s, q !! "status"%string = Some s → ∃ st, s = status_name st)
    ∧ (∀ s, q !! "sortBy"%string = Some s →
            s ∈ ["createdAt"; "updatedAt"; "applicationDate"; "title";
                 "company"]%string)
    ∧ (∀ s, q !! "sortOrder"%string = Some s → s ∈ ["asc"; "desc"]%string)
    ∧ (∀ s, q !! "page"%string = Some s → ∃ n, int_literal s = Some n ∧ 1 ≤ n)
    ∧ (∀ s, q !! "limit"%string = Some s →
            ∃ n, int_literal s = Some n ∧ 1 ≤ n ≤ 100).
Proof.
  rewrite validation_passes. unfold JobsRoutes.list_chains.
  rewrite !Forall_cons, !run_chain_passes. simpl.
  assert (∀ s, isIn (status_name <$> all_statuses) s = true
               ↔ ∃ st, s = status_name st) as Hstatus.
  { intros s. unfold isIn. rewrite bool_decide_eq_true, list_elem_of_fmap.
    split; [intros (st & -> & ?); eauto|].
    intros (st & ->). exists st. split; [done|].
    destruct st; unfold all_statuses; rewrite !elem_of_cons; tauto. }
  split.
  - intros (H1 & _ & H3 & H4 & H5 & H6 & _). repeat split.
    + intros s Hs. rewrite Hs in H1. by apply Hstatus.
    + intros s Hs. rewrite Hs in H3. by apply bool_decide_eq_true in H3.
    + intros s Hs. rewrite Hs in H4. by apply bool_decide_eq_true in H4.
    + intros s Hs. rewrite Hs in H5. by apply isInt_min_spec.
    + intros s Hs. rewrite Hs in H6. by apply isInt_spec.
  - intros (H1 & H3 & H4 & H5 & H6). repeat split; try constructor.
    + destruct (q !! "status"%string) as [s|]; [|done]. apply Hstatus. eauto.
    + by destruct (q !! "search"%string).
    + destruct (q !! "sortBy"%string) as [s|]; [|done].
      apply bool_decide_eq_true. eauto.
    + destruct (q !! "sortOrder"%string) as [s|]; [|done].
      apply bool_decide_eq_true. eauto.
    + destruct (q !! "page"%string) as [s|]; [|done].
      apply isInt_min_spec. eauto.
    + destruct (q !! "limit"%string) as [s|]; [|done].
      apply isInt_spec. eauto.
Qed.


(** The reply to a request that passes validation. *)
Lemma list_jobs_listed (createdAt updatedAt : Job → Z)
  (description : Job → option string) (regex_i : string → string → bool)
  (req : Request) (db : list Job) :
  validationResult (query req) "query" JobsRoutes.list_chains = [] →
  let P := int_param 1 (query req !! "page"%string) in
  let L := int_param 20 (query req !! "limit"%string) in
  let matching :=
    filter (JobsRoutes.selects description regex_i (req_user req) (query req !! "status"%string)
              (query req !! "search"%string)) db in
  let sorted :=
    sort_stage (JobsRoutes.sort_order createdAt updatedAt
                  (default "updatedAt"%string (query req !! "sortBy"%string))
                  (default "desc"%string (query req !! "sortOrder"%string)))
      matching in
  1 ≤ P ∧ 1 ≤ L ≤ 100
  ∧ JobsRoutes.list_jobs createdAt updatedAt description regex_i req db
    = JobsRoutes.Listed
        {| JobsRoutes.jobs :=
             take (Z.to_nat L) (drop (Z.to_nat ((P - 1) * L)) sorted);
           JobsRoutes.page := P; JobsRoutes.limit := L;
           JobsRoutes.total := length matching;
           JobsRoutes.pages :=
             JobModel.Math_ceil
               (js_div (of_nat (length matching)) (Fin (inject_Z L))) |}.
Proof.
  intros Hvalid P L matching sorted.
  pose proof (proj1 (list_chains_pass _) Hvalid) as (_ & _ & _ & Hpage & Hlimit).
  unfold JobsRoutes.list_jobs. rewrite Hvalid.
  change (negb (isEmpty [])) with false. cbv iota zeta beta.
  subst P L. unfold int_param, JobsRoutes.ToNumber.
  destruct (query req !! "page"%string) as [p|];
    destruct (query req !! "limit"%string) as [l|].
  - destruct (Hpage p eq_refl) as (n & Hn & Hn1).
    destruct (Hlimit l eq_refl) as (m & Hm & Hm1).
    rewrite (parseInt_int_literal _ _ Hn), (parseInt_int_literal _ _ Hm), Hn, Hm.
    simpl. repeat split; lia.
  - destruct (Hpage p eq_refl) as (n & Hn & Hn1).
    rewrite (parseInt_int_literal _ _ Hn), Hn. simpl. repeat split; lia.
  - destruct (Hlimit l eq_refl) as (m & Hm & Hm1).
    rewrite (parseInt_int_literal _ _ Hm), Hm. simpl. repeat split; lia.
  - simpl. repeat split; lia.
Qed.

Lemma list_jobs_valid (createdAt updatedAt : Job → Z)
  (description : Job → option string) (regex_i : string → string → bool)
  (req : Request) (db : list Job) (l : JobsRoutes.Listing) :
  JobsRoutes.list_jobs createdAt updatedAt description regex_i req db
  = JobsRoutes.Listed l →
  validationResult (query req) "query" JobsRoutes.list_chains = [].
Proof.
  unfold JobsRoutes.list_jobs.
  destruct (validationResult _ _ _) as [|e errors]; [done|]. simpl. done.
Qed.

Lemma list_jobs_inv (createdAt updatedAt : Job → Z)
  (description : Job → option string) (regex_i : string → string → bool)
  (req : Request) (db : list Job) (l : JobsRoutes.Listing) :
  JobsRoutes.list_jobs createdAt updatedAt description regex_i req db
  = JobsRoutes.Listed l →
  let P := int_param 1 (query req !! "page"%string) in
  let L := int_param 20 (query req !! "limit"%string) in
  let matching :=
    filter (JobsRoutes.selects description regex_i (req_user req)
              (query req !! "status"%string)
              (query req !! "search"%string)) db in
  let sorted :=
    sort_stage (JobsRoutes.sort_order createdAt updatedAt
                  (default "updatedAt"%string (query req !! "sortBy"%string))
                  (default "desc"%string (query req !! "sortOrder"%string)))
      matching in
  validationResult (query req) "query" JobsRoutes.list_chains = []
  ∧ 1 ≤ P ∧ 1 ≤ L ≤ 100
  ∧ JobsRoutes.jobs l = take (Z.to_nat L) (drop (Z.to_nat ((P - 1) * L)) sorted)
  ∧ JobsRoutes.page l = P ∧ JobsRoutes.limit l = L
  ∧ JobsRoutes.total l = length matching
  ∧ JobsRoutes.pages l = Fin (inject_Z (ceil_div (length matching) L)).
Proof.
  intros Hl P L matching sorted.
  pose proof (list_jobs_valid _ _ _ _ _ _ _ Hl) as Hvalid.
  destruct (list_jobs_listed createdAt updatedAt description regex_i req db Hvalid)
    as (HP & HL & Hrun).
  rewrite Hrun in Hl. injection Hl as <-. simpl.
  repeat split; try done; try lia. apply pages_ceiling. lia.
Qed.

Lemma selects_spec (description : Job → option string)
  (regex_i : string → string → bool) (req : Request) (j : Job) :
  (∀ s, query req !! "status"%string = Some s → ∃ st, s = status_name st) →
  JobsRoutes.selects description regex_i (req_user req)
    (query req !! "status"%string) (query req !! "search"%string) j
  ↔ user j = req_user req
    ∧ (∀ s, query req !! "status"%string = Some s → status_name (status j) = s)
    ∧ (∀ s, query req !! "search"%string = Some s → s ≠ ""%string →
            JobsRoutes.matches_search description regex_i s j = true).
Proof.
  intros Hstatus. unfold JobsRoutes.selects, JobsRoutes.truthy.
  assert (∀ s, query req !! "status"%string = Some s → s ≠ ""%string) as Hne.
  { intros s Hs. destruct (Hstatus s Hs) as (st & ->). by destruct st. }
  destruct (query req !! "status"%string) as [s|];
    destruct (query req !! "search"%string) as [r|];
    try rewrite (decide_False (P := s = ""%string)) by (by apply Hne);
    try destruct (decide (r = ""%string)) as [->|Hr];
    (split; intros (Hu & Hs & Hm); (split; [exact Hu|]); split);
    first [ done | by intros ? [= <-] | by apply Hs | by apply Hm ].
Qed.

(** X14. The listing shows the caller jobs of their own only, each with
    the status asked for when one is asked for and each matching the
    search when one is given (an empty search selects everything); the
    total is the number of all such jobs, whatever the page, and no
    page holds more jobs than the limit. *)
Theorem listing_scoped_and_filtered (createdAt updatedAt : Job → Z)
  (description : Job → option string) (regex_i : string → string → bool)
  (req : Request) (db : list Job) (l : JobsRoutes.Listing) :
  JobsRoutes.list_jobs createdAt updatedAt description regex_i req db
  = JobsRoutes.Listed l →
  let wanted j :=
    user j = req_user req
    ∧ (∀ s, query req !! "status"%string = Some s → status_name (status j) = s)
    ∧ (∀ s, query req !! "search"%string = Some s → s ≠ ""%string →
            JobsRoutes.matches_search description regex_i s j = true) in
  ∃ matching,
    (∀ j, j ∈ matching ↔ j ∈ db ∧ wanted j)
    ∧ JobsRoutes.jobs l ⊆ matching
    ∧ JobsRoutes.total l = length matching
    ∧ (length matching ≤ length (owned (req_user req) db))%nat
    ∧ (length (JobsRoutes.jobs l) ≤ Z.to_nat (JobsRoutes.limit l))%nat
    ∧ ∃ rest, matching ++ rest ≡ₚ db ∧ ∀ j, j ∈ rest → ¬ wanted j.
Proof.
  intros Hl wanted.
  destruct (list_jobs_inv _ _ _ _ _ _ _ Hl)
    as (Hvalid & _ & _ & Hjobs & _ & Hlimit & Htotal & _).
  pose proof (proj1 (list_chains_pass _) Hvalid) as (Hstatus & _).
  set (sel := JobsRoutes.selects description regex_i (req_user req)
                (query req !! "status"%string) (query req !! "search"%string)).
  exists (filter sel db). split; [|split; [|split; [|split; [|split]]]].
  - intros j. rewrite list_elem_of_filter. subst sel wanted.
    rewrite (selects_spec _ _ _ _ Hstatus). tauto.
  - rewrite Hjobs. intros j Hj.
    apply subseteq_take, subseteq_drop in Hj. by apply sort_stage_elem in Hj.
  - done.
  - unfold owned. clear. induction db as [|j db IH]; [done|].
    rewrite !filter_cons. destruct (decide (sel j)) as [Hs|Hs].
    + destruct Hs as [Hu _]. rewrite decide_True by done. simpl. lia.
    + destruct (decide _); simpl; lia.
  - rewrite Hjobs, Hlimit, length_take. lia.
  - exists (filter (λ j, ¬ sel j) db). split.
    + apply filter_app_complement.
    + intros j Hj. apply list_elem_of_filter in Hj as [Hn _].
      subst sel wanted. by rewrite <- (selects_spec _ _ _ _ Hstatus).
Qed.

(** X15. The pagination of the listing, for a page, a limit and a total
    within the integers that doubles hold exactly: [page] and [limit]
    are the numbers passed, or 1 and 20; [pages] is the total divided by
    the limit, rounded up; a page holds the jobs left after the pages
    before it, up to the limit; it is empty exactly when its number is
    beyond [pages], and full when it is before the last page. *)
Theorem listing_pagination (createdAt updatedAt : Job → Z)
  (description : Job → option string) (regex_i : string → string → bool)
  (req : Request) (db : list Job) (l : JobsRoutes.Listing) :
  JobsRoutes.list_jobs createdAt updatedAt description regex_i req db
  = JobsRoutes.Listed l →
  listing_exact (int_param 1 (query req !! "page"%string))
    (int_param 20 (query req !! "limit"%string)) (JobsRoutes.total l) →
  let P := JobsRoutes.page l in
  let L := JobsRoutes.limit l in
  let T := Z.of_nat (JobsRoutes.total l) in
  let shown := Z.of_nat (length (JobsRoutes.jobs l)) in
  P = int_param 1 (query req !! "page"%string)
  ∧ L = int_param 20 (query req !! "limit"%string)
  ∧ 1 ≤ P ∧ 1 ≤ L ≤ 100
  ∧ JobsRoutes.pages l = Fin (inject_Z (ceil_div (JobsRoutes.total l) L))
  ∧ shown = Z.max 0 (Z.min L (T - (P - 1) * L))
  ∧ (JobsRoutes.jobs l = [] ↔ ceil_div (JobsRoutes.total l) L < P)
  ∧ (P < ceil_div (JobsRoutes.total l) L → shown = L).
Proof.
  intros Hl _ P L T shown.
  destruct (list_jobs_inv _ _ _ _ _ _ _ Hl)
    as (_ & HP & HL & Hjobs & Hpage & Hlimit & Htotal & Hpages).
  fold P in Hpage. fold L in Hlimit. rewrite <- Hpage, <- Hlimit in *.
  rewrite <- Htotal in Hpages.
  assert (shown = Z.max 0 (Z.min L (T - (P - 1) * L))) as Hshown.
  { subst shown T. rewrite Hjobs, page_length, sort_stage_length, <- Htotal.
    assert (0 ≤ (P - 1) * L) as Hskip by nia.
    set (skip := (P - 1) * L) in *. clearbody skip. lia. }
  assert (ceil_div (JobsRoutes.total l) L * L ≤ T + L - 1
          ∧ T + L - 1 < (ceil_div (JobsRoutes.total l) L + 1) * L) as Hceil.
  { unfold ceil_div. fold T.
    pose proof (Z.div_mod (T + L - 1) L ltac:(lia)).
    pose proof (Z.mod_pos_bound (T + L - 1) L ltac:(lia)). nia. }
  assert (0 ≤ T) as HT by (subst T; lia).
  repeat split; try done; try lia.
  - intros Hnil. subst shown. rewrite Hnil in Hshown. simpl in Hshown. nia.
  - intros Hbeyond. apply length_zero_iff_nil. fold shown in Hshown |- *.
    assert (shown = 0); [|subst shown; lia]. nia.
  - intros Hbefore. nia.
Qed.


Lemma with_page_passes (req : Request) (p : Z) :
  1 ≤ p →
  validationResult (query req) "query" JobsRoutes.list_chains = [] →
  validationResult (query (with_page p req)) "query" JobsRoutes.list_chains = [].
Proof.
  intros Hp. rewrite !list_chains_pass. unfold with_page. simpl.
  intros (H1 & H2 & H3 & _ & H5).
  split; [|split; [|split; [|split]]]; intros s.
  - rewrite lookup_insert_ne by done. apply H1.
  - rewrite lookup_insert_ne by done. apply H2.
  - rewrite lookup_insert_ne by done. apply H3.
  - rewrite lookup_insert_eq. intros [= <-].
    exists p. split; [apply int_literal_Number_toString | done].
  - rewrite lookup_insert_ne by done. apply H5.
Qed.

Lemma list_jobs_with_page (createdAt updatedAt : Job → Z)
  (description : Job → option string) (regex_i : string → string → bool)
  (req : Request) (db : list Job) (p : Z) :
  1 ≤ p →
  validationResult (query req) "query" JobsRoutes.list_chains = [] →
  let L := int_param 20 (query req !! "limit"%string) in
  jobs_of (JobsRoutes.list_jobs createdAt updatedAt description regex_i
             (with_page p req) db)
  = take (Z.to_nat L)
      (drop (Z.to_nat (p - 1) * Z.to_nat L)
         (sort_stage
            (JobsRoutes.sort_order createdAt updatedAt
               (default "updatedAt"%string (query req !! "sortBy"%string))
               (default "desc"%string (query req !! "sortOrder"%string)))
            (filter (JobsRoutes.selects description regex_i (req_user req)
                       (query req !! "status"%string)
                       (query req !! "search"%string)) db))).
Proof.
  intros Hp Hvalid L.
  destruct (list_jobs_listed createdAt updatedAt description regex_i
              (with_page p req) db (with_page_passes req p Hp Hvalid))
    as (_ & HL & ->).
  unfold with_page in *. cbn [query req_user jobs_of JobsRoutes.jobs] in *.
  rewrite lookup_insert_eq.
  rewrite (lookup_insert_ne _ "page" "limit")%string in * by done.
  rewrite (lookup_insert_ne _ "page" "status")%string by done.
  rewrite (lookup_insert_ne _ "page" "search")%string by done.
  rewrite (lookup_insert_ne _ "page" "sortBy")%string by done.
  rewrite (lookup_insert_ne _ "page" "sortOrder")%string by done.
  unfold int_param at 2. rewrite int_literal_Number_toString.
  cbn [default]. change (id p) with p. fold L in HL |- *.
  rewrite Z2Nat.inj_mul by lia. done.
Qed.

Lemma sorted_unique (order : relation Job) (l1 l2 : list Job) :
  keys_distinct order l1 →
  StronglySorted order l1 → StronglySorted order l2 → l1 ≡ₚ l2 → l1 = l2.
Proof.
  intros Hdistinct Hl1. revert l2 Hdistinct.
  induction Hl1 as [|x1 l1 Hs1 IH Hx1]; intros l2 Hdistinct Hl2 Hperm.
  { symmetry. by apply Permutation_nil. }
  destruct Hl2 as [|x2 l2 Hs2 Hx2]; [by apply Permutation_nil_r in Hperm|].
  assert (x1 = x2) as ->.
  { rewrite Forall_forall in Hx1, Hx2.
    assert (x2 ∈ x1 :: l1) as Hin2 by (rewrite Hperm; left).
    assert (x1 ∈ x2 :: l2) as Hin1 by (rewrite <- Hperm; left).
    apply elem_of_cons in Hin1 as [->|Hin1]; [done|].
    apply elem_of_cons in Hin2 as [->|Hin2]; [done|].
    apply Hdistinct; [left | by right | by apply Hx1 | by apply Hx2]. }
  f_equal. apply IH; [|done|by apply (inj (x2 ::.))].
  intros a b Ha Hb. apply Hdistinct; by right.
Qed.

(** X17. Paging through the listing shows every job that matches once,
    when no two matching jobs have the same value in the field sorted
    by and the numbers stay within the integers doubles hold exactly:
    the pages 1 to [pages], asked for one after the other on the same
    store, put together are the matching jobs in the order asked for,
    which is the only one the sort allows, and every later page is
    empty. *)
Theorem paging_shows_each_job_once (createdAt updatedAt : Job → Z)
  (description : Job → option string) (regex_i : string → string → bool)
  (req : Request) (db : list Job) (l : JobsRoutes.Listing) :
  JobsRoutes.list_jobs createdAt updatedAt description regex_i req db
  = JobsRoutes.Listed l →
  let pages := ceil_div (JobsRoutes.total l) (JobsRoutes.limit l) in
  let shown p :=
    jobs_of (JobsRoutes.list_jobs createdAt updatedAt description regex_i
               (with_page p req) db) in
  let matching :=
    filter (JobsRoutes.selects description regex_i (req_user req)
              (query req !! "status"%string) (query req !! "search"%string))
      db in
  let order :=
    JobsRoutes.sort_order createdAt updatedAt
      (default "updatedAt"%string (query req !! "sortBy"%string))
      (default "desc"%string (query req !! "sortOrder"%string)) in
  keys_distinct order matching →
  listing_exact pages (JobsRoutes.limit l) (JobsRoutes.total l) →
  concat (shown <$> seqZ 1 pages) ≡ₚ matching
  ∧ StronglySorted order (concat (shown <$> seqZ 1 pages))
  ∧ (∀ sorted, sorted ≡ₚ matching → StronglySorted order sorted →
       concat (shown <$> seqZ 1 pages) = sorted)
  ∧ ∀ p, pages < p → p * JobsRoutes.limit l ≤ MAX_SAFE_INTEGER → shown p = [].
Proof.
  intros Hl pages shown matching order Hdistinct _.
  destruct (list_jobs_inv _ _ _ _ _ _ _ Hl)
    as (Hvalid & _ & HL & _ & _ & Hlimit & Htotal & _).
  fold matching in Htotal.
  set (L := int_param 20 (query req !! "limit"%string)) in *.
  assert (0 ≤ pages ∧ pages * L ≤ Z.of_nat (length matching) + L - 1
          ∧ Z.of_nat (length matching) + L - 1 < (pages + 1) * L) as Hceil.
  { subst pages. rewrite Hlimit, Htotal. unfold ceil_div.
    pose proof (Z.div_mod (Z.of_nat (length matching) + L - 1) L ltac:(lia)).
    pose proof (Z.mod_pos_bound (Z.of_nat (length matching) + L - 1) L
                  ltac:(lia)).
    nia. }
  assert (concat (shown <$> seqZ 1 pages) = sort_stage order matching) as Hall.
  { unfold seqZ. rewrite <- list_fmap_compose.
    rewrite (list_fmap_ext _
               (λ k, take (Z.to_nat L)
                       (drop (k * Z.to_nat L) (sort_stage order matching)))).
    - apply pages_concat; [lia|]. rewrite sort_stage_length. nia.
    - intros _ k _. simpl. subst shown. simpl.
      rewrite list_jobs_with_page by (done || lia). fold L order matching.
      do 3 f_equal. lia. }
  assert (sort_stage order matching ≡ₚ matching) as Hperm
    by (unfold sort_stage; apply merge_sort_Permutation).
  assert (StronglySorted order (sort_stage order matching)) as Hsorted
    by (unfold sort_stage; apply StronglySorted_merge_sort; apply _).
  rewrite Hall. split; [done|]. split; [done|]. split.
  - intros sorted Hp Hs. apply (sorted_unique order); [|done|done|].
    + intros a b Ha Hb. apply Hdistinct; by rewrite <- Hperm.
    + by rewrite Hperm, Hp.
  - intros p Hp _. subst shown. simpl.
    rewrite list_jobs_with_page by (done || lia). fold L order matching.
    rewrite drop_ge; [by rewrite take_nil|]. rewrite sort_stage_length. nia.
Qed.

Lemma listing_scoped_and_filtered_witness :
  ∃ matching,
    JobsRoutes.jobs example_listing ⊆ matching
    ∧ JobsRoutes.total example_listing = length matching
    ∧ ∀ j, j ∈ matching → j ∈ example_db ∧ user j = 7%nat.
Proof.
  assert (JobsRoutes.list_jobs example_stamp example_stamp example_description
            example_regex_i example_list example_db
          = JobsRoutes.Listed example_listing) as Hlisted
    by (vm_compute; reflexivity).
  destruct (listing_scoped_and_filtered _ _ _ _ _ _ _ Hlisted)
    as (matching & Hmatching & Hshown & Htotal & _).
  exists matching. split; [exact Hshown|]. split; [exact Htotal|].
  intros j Hj. apply Hmatching in Hj as (Hin & Hu & _). split; [exact Hin | exact Hu].
Defined.

Lemma listing_pagination_witness :
  JobsRoutes.pages example_listing
  = Fin (inject_Z (ceil_div (JobsRoutes.total example_listing)
                     (JobsRoutes.limit example_listing)))
  ∧ Z.of_nat (length (JobsRoutes.jobs example_listing))
    = JobsRoutes.limit example_listing.
Proof.
  assert (JobsRoutes.list_jobs example_stamp example_stamp example_description
            example_regex_i example_list example_db
          = JobsRoutes.Listed example_listing) as Hlisted
    by (vm_compute; reflexivity).
  destruct (listing_pagination _ _ _ _ _ _ _ Hlisted)
    as (_ & _ & _ & _ & Hpages & _ & _ & Hfull);
    [split; vm_compute; discriminate|].
  split; [exact Hpages|]. apply Hfull. vm_compute. reflexivity.
Defined.


Lemma paging_shows_each_job_once_witness :
  jobs_of (JobsRoutes.list_jobs example_stamp example_stamp example_description
             example_regex_i (with_page 3 example_list) example_db)
  = [].
Proof.
  assert (JobsRoutes.list_jobs example_stamp example_stamp example_description
            example_regex_i example_list example_db
          = JobsRoutes.Listed example_listing) as Hlisted
    by (vm_compute; reflexivity).
  destruct (paging_shows_each_job_once _ _ _ _ _ _ _ Hlisted)
    as (_ & _ & _ & Hlater).
  - intros a b Ha Hb. vm_compute in Ha, Hb.
    repeat (apply elem_of_cons in Ha as [-> | Ha]);
      try (by apply elem_of_nil in Ha);
      repeat (apply elem_of_cons in Hb as [-> | Hb]);
      try (by apply elem_of_nil in Hb);
      try reflexivity; intros H1 H2; vm_compute in H1, H2;
      try (by destruct H1); by destruct H2.
  - split; vm_compute; discriminate.
  - apply Hlater; vm_compute; [reflexivity | discriminate].
Defined.

(** ** Rejected requests, and what the hook keeps *)

(** X18. A status update whose body has no status, or one that is not
    among the five, is answered with the validation error for [status]
    before the job is looked up, and changes nothing; a request that
    passes validation is never rejected when saved. *)
Theorem status_update_rejects_unknown_status (now now' : Z)
  (req : Jobs.Request) (db : list Job) :
  ((∀ st, Jobs.body req !! "status"%string ≠ Some (status_name st)) →
   JobsRoutes.update_status now now' req db
   = (db, JobsRoutes.ValidationFailed
            [{| msg := "Valid status is required"; param := "status";
                value := Jobs.body req !! "status"%string;
                where_ := "body" |}]))
  ∧ (JobsRoutes.update_status now now' req db).2 ≠ JobsRoutes.SaveRejected.
Proof.
  unfold JobsRoutes.update_status, JobsRoutes.status_chains.
  rewrite validation_single. unfold run_chain. cbn [field optional validator].
  destruct (Jobs.body req !! "status"%string) as [s|] eqn:Hs; [|by split].
  destruct (isIn (status_name <$> all_statuses) s) eqn:Hin.
  - apply bool_decide_eq_true, list_elem_of_fmap in Hin as (st & -> & _).
    split; [intros Hnot; by destruct (Hnot st)|].
    cbn [isEmpty negb]. destruct (Jobs.findById _ _) as [job|]; [|done].
    destruct (negb _); [done|]. simpl. by rewrite status_of_name_status.
  - by split.
Qed.

Lemma status_update_rejects_unknown_status_witness :
  JobsRoutes.update_status example_now example_now example_own example_db
  = (example_db,
     JobsRoutes.ValidationFailed
       [{| msg := "Valid status is required"; param := "status";
           value := None; where_ := "body" |}]).
Proof.
  destruct (status_update_rejects_unknown_status example_now example_now
              example_own example_db) as [Hreject _].
  apply Hreject. intros st. vm_compute. discriminate.
Defined.

(** X19. The listing answers with the validation errors exactly when
    a parameter is not valid, and with a page only when all are valid.
    With valid parameters, no search, and numbers within the integers
    that doubles hold exactly it answers with a page. *)
Theorem listing_rejects_invalid_parameters (createdAt updatedAt : Job → Z)
  (description : Job → option string) (regex_i : string → string → bool)
  (req : Request) (db : list Job) :
  let reply :=
    JobsRoutes.list_jobs createdAt updatedAt description regex_i req db in
  ((∃ errors, errors ≠ [] ∧ reply = JobsRoutes.ListRejected errors)
   ↔ ¬ listing_parameters_valid (query req))
  ∧ (∀ l, reply = JobsRoutes.Listed l → listing_parameters_valid (query req))
  ∧ (listing_parameters_valid (query req) →
     query req !! "search"%string = None →
     listing_exact (int_param 1 (query req !! "page"%string))
       (int_param 20 (query req !! "limit"%string)) (length db) →
     ∃ l, reply = JobsRoutes.Listed l).
Proof.
  intros reply. subst reply.
  assert (listing_parameters_valid (query req)
          ↔ validationResult (query req) "query" JobsRoutes.list_chains = [])
    as Hvalid by (symmetry; apply list_chains_pass).
  destruct (validationResult (query req) "query" JobsRoutes.list_chains)
    as [|e errors] eqn:Hresult.
  - destruct (list_jobs_listed createdAt updatedAt description regex_i req db
                Hresult) as (_ & _ & ->).
    split; [|split].
    + split; [by intros (errors & _ & ?)|]. intros Hnot. destruct Hnot.
      by apply Hvalid.
    + intros l _. by apply Hvalid.
    + eauto.
  - unfold JobsRoutes.list_jobs. rewrite Hresult. cbn [isEmpty negb].
    split; [|split].
    + split; [|intros _; by exists (e :: errors)].
      intros _ Hv. by apply Hvalid in Hv.
    + done.
    + intros Hv. by apply Hvalid in Hv.
Qed.

Lemma listing_rejects_invalid_parameters_witness :
  ∃ l, JobsRoutes.list_jobs example_stamp example_stamp example_description
         example_regex_i example_list example_db
       = JobsRoutes.Listed l.
Proof.
  destruct (listing_rejects_invalid_parameters example_stamp example_stamp
              example_description example_regex_i example_list example_db)
    as (_ & _ & Hpage).
  apply Hpage.
  - apply list_chains_pass. vm_compute. reflexivity.
  - reflexivity.
  - split; vm_compute; discriminate.
Defined.

Lemma store_elem (job : Job) (db : list Job) (j : Job) :
  j ∈ Jobs.store job db → j = job ∨ j ∈ db.
Proof.
  induction db as [|x db IH]; simpl; [by right|].
  destruct (decide (_id x = _id job)).
  - rewrite !elem_of_cons. tauto.
  - rewrite !elem_of_cons. intros [-> | Hj]; [tauto|].
    destruct (IH Hj); tauto.
Qed.

Lemma delete_elem (id : ObjectId) (db : list Job) (j : Job) :
  j ∈ JobsRoutes.findByIdAndDelete id db → j ∈ db.
Proof.
  induction db as [|x db IH]; simpl; [done|].
  destruct (decide (_id x = id)); rewrite !elem_of_cons; [tauto|].
  intros [-> | Hj]; [tauto|]. right. by apply IH.
Qed.

Lemma pre_save_follow_up (now : Z) (job : Job) :
  status (Jobs.pre_save now job) = interviewing →
  is_Some (followUpDate (Jobs.pre_save now job)).
Proof.
  unfold Jobs.pre_save.
  destruct (status job) eqn:Hs, (followUpDate job) eqn:Hf; simpl;
    rewrite ?Hs, ?Hf; try done; eauto.
Qed.

(** X20. The hook of the model runs on every job these requests save,
    so they keep the store in a state where every job in the interview
    stage has a follow-up date; and the hook changes nothing when it
    runs again. *)
Theorem follow_up_date_is_kept (isISO8601 : string → bool)
  (castDate : string → option Z) (now now' : Z) (req : Jobs.Request)
  (db : list Job) :
  follow_up_set db →
  follow_up_set (JobsRoutes.update_status now now' req db).1
  ∧ follow_up_set (Jobs.add_interview isISO8601 castDate now req db).1
  ∧ follow_up_set (JobsRoutes.delete_job req db).1
  ∧ ∀ job, Jobs.pre_save now' (Jobs.pre_save now job) = Jobs.pre_save now job.
Proof.
  intros Hdb.
  assert (∀ job, follow_up_set (Jobs.store (Jobs.pre_save now job) db)
                 ∧ follow_up_set (Jobs.store (Jobs.pre_save now' job) db))
    as Hstore.
  { intros job. split; intros j Hj Hs;
      (apply store_elem in Hj as [-> | Hj];
       [by apply pre_save_follow_up | by apply Hdb]). }
  split; [|split; [|split]].
  - unfold JobsRoutes.update_status. destruct (negb _); [done|].
    destruct (Jobs.findById _ _) as [job|]; [|done].
    destruct (negb _); [done|]. destruct (_ ≫= _) as [s|]; [|done].
    simpl. apply Hstore.
  - unfold Jobs.add_interview. destruct (negb _); [done|].
    destruct (Jobs.findById _ _) as [job|]; [|done].
    destruct (negb _); [done|]. destruct (Jobs.pushed _ _) as [i|]; [|done].
    simpl. apply Hstore.
  - unfold JobsRoutes.delete_job.
    destruct (Jobs.findById _ _) as [job|]; [|done].
    destruct (negb _); [done|]. simpl.
    intros j Hj. apply Hdb. by apply delete_elem in Hj.
  - intros job. unfold Jobs.pre_save.
    by destruct (status job) eqn:Hs, (followUpDate job) eqn:Hf; simpl;
      rewrite ?Hs, ?Hf.
Qed.

Lemma follow_up_date_is_kept_witness :
  follow_up_set
    (JobsRoutes.update_status example_now example_now
       {| Jobs.req_user := 7%nat; Jobs.id := 1%nat;
          Jobs.body := list_to_map [("status", "interviewing")]%string |}
       example_db_acme).1.
Proof.
  destruct (follow_up_date_is_kept example_isISO8601 example_castDate
              example_now example_now
              {| Jobs.req_user := 7%nat; Jobs.id := 1%nat;
                 Jobs.body := list_to_map [("status", "interviewing")]%string |}
              example_db_acme)
    as (Hkept & _).
  - intros j Hj Hs. vm_compute in Hj.
    repeat (apply elem_of_cons in Hj as [-> | Hj]; [discriminate Hs|]).
    by apply elem_of_nil in Hj.
  - exact Hkept.
Defined.

(** ** Reading after writing *)

(** X21. The owner reads a job as it is stored; after a status update
    or an added interview that succeeded, reading the job returns the
    job the request was answered with. *)
Theorem reads_return_what_was_saved (isISO8601 : string → bool)
  (castDate : string → option Z) (now now' : Z) (req : Jobs.Request)
  (db : list Job) :
  (∀ job, Jobs.findById (Jobs.id req) db = Some job →
          user job = Jobs.req_user req →
          JobsRoutes.get_job req db = JobsRoutes.Json 200 true None (Some job))
  ∧ (∀ db' code m job',
       JobsRoutes.update_status now now' req db
       = (db', JobsRoutes.Json code true m (Some job')) →
       JobsRoutes.get_job req db' = JobsRoutes.Json 200 true None (Some job'))
  ∧ (∀ db' m job',
       Jobs.add_interview isISO8601 castDate now req db = (db', Jobs.Ok m job') →
       JobsRoutes.get_job req db' = JobsRoutes.Json 200 true None (Some job')).
Proof.
  assert (∀ db job, Jobs.findById (Jobs.id req) db = Some job →
            user job = Jobs.req_user req →
            JobsRoutes.get_job req db = JobsRoutes.Json 200 true None (Some job))
    as Hread.
  { intros db0 job Hfind Howner. unfold JobsRoutes.get_job.
    by rewrite Hfind, bool_decide_eq_true_2. }
  split; [apply Hread|]. split.
  - intros db' code m job'. unfold JobsRoutes.update_status.
    destruct (negb _); [done|].
    destruct (Jobs.findById _ _) as [job|] eqn:Hfind; [|done].
    destruct (bool_decide (user job = Jobs.req_user req)) eqn:Howner; [|done].
    apply bool_decide_eq_true in Howner. simpl.
    destruct (_ ≫= _) as [s|]; [|done]. simpl. intros [= <- _ _ <-].
    destruct (saved_status now now' s job) as (Hi & Hu & _).
    destruct (findById_id _ _ _ Hfind) as [Hid _].
    apply Hread; [|congruence].
    apply (findById_store _ _ job); [done | congruence].
  - intros db' m job'. unfold Jobs.add_interview.
    destruct (negb _); [done|].
    destruct (Jobs.findById _ _) as [job|] eqn:Hfind; [|done].
    destruct (bool_decide (user job = Jobs.req_user req)) eqn:Howner; [|done].
    apply bool_decide_eq_true in Howner. simpl.
    destruct (Jobs.pushed _ _) as [interview|]; [|done]. simpl.
    intros [= <- _ <-].
    match goal with
    | |- context [Jobs.store (Jobs.pre_save now ?j) db] =>
        destruct (pre_save_owner now j) as [Hi Hu]
    end.
    destruct (findById_id _ _ _ Hfind) as [Hid _]. simpl in Hi, Hu.
    apply Hread; [|congruence].
    apply (findById_store _ _ job); [done | congruence].
Qed.

Lemma reads_return_what_was_saved_witness :
  JobsRoutes.get_job example_own example_db
  = JobsRoutes.Json 200 true None
      (Some (example_job 2 7 "Acme" None rejected
               (example_now - 40 * msPerDay) [])).
Proof.
  destruct (reads_return_what_was_saved example_isISO8601 example_castDate
              example_now example_now example_own example_db) as [Hread _].
  apply Hread; reflexivity.
Defined.

(** ** The rates on doubles *)

(** 23 of 160 is 14.375 per cent.  On doubles [(23 / 160) * 100 * 100]
    is just below 1437.5, [Math.round] gives 1437 and the rate reported
    is 14.37; the exact evaluation gives 14.38, that is 719 / 50. *)
Lemma binary64_tie_goes_down :
  Binary64.rounded (Binary64.scaled 23 160) = Some 1437
  ∧ Binary64.rate 23 160 = Binary64.hundredths 1437
  ∧ Binary64.hundredths 1437 ≠ Binary64.hundredths 1438
  ∧ Trends.rate 23 160 = Fin (719 # 50)
  ∧ (percentage 23 160 == 14375 # 1000)%Q.
Proof.
  split; [by vm_compute|]. split; [by vm_compute|].
  split; [by vm_compute|]. split; [by vm_compute|]. reflexivity.
Qed.

Lemma percentage_scaled (n d : nat) (m : Z) :
  (0 < d)%nat →
  ((inject_Z m / 100 - percentage n d) * (200 * inject_Z (Z.of_nat d))
   == inject_Z (2 * (m * Z.of_nat d - 10000 * Z.of_nat n)))%Q.
Proof.
  intros Hd. unfold percentage.
  unfold Z.sub. rewrite !inject_Z_mult, inject_Z_plus, inject_Z_opp, !inject_Z_mult.
  change (inject_Z 2) with 2%Q. change (inject_Z 10000) with 10000%Q.
  assert (¬ inject_Z (Z.of_nat d) == 0)%Q as Hnz.
  { change 0%Q with (inject_Z 0). rewrite inject_Z_injective. lia. }
  field. done.
Qed.

Lemma Qabs_scaled (x c : Q) (z : Z) :
  (0 < c)%Q → (x * (200 * c) == inject_Z z)%Q →
  ((Qabs x <= 1 # 200)%Q ↔ (inject_Z (Z.abs z) <= c)%Q)
  ∧ ((Qabs x == 1 # 200)%Q ↔ (inject_Z (Z.abs z) == c)%Q).
Proof.
  intros Hc Hz.
  assert (inject_Z (Z.abs z) == Qabs x * (200 * c))%Q as ->.
  { rewrite <- (Qabs_pos (200 * c)) by lra.
    rewrite <- Qabs_Qmult, Hz. unfold Qabs, inject_Z. simpl. reflexivity. }
  split.
  - rewrite <- (Qmult_le_r _ _ (200 * c)) by lra.
    assert ((1 # 200) * (200 * c) == c)%Q as -> by ring. reflexivity.
  - split.
    + intros ->. ring.
    + intros Heq. apply (Qmult_inj_r _ _ (200 * c)); [lra|].
      rewrite Heq. ring.
Qed.

Lemma half_up_2dp_percentage (n d : nat) :
  (0 < d)%nat →
  half_up_2dp (percentage n d)
  = Qred (inject_Z ((20000 * Z.of_nat n + Z.of_nat d) / (2 * Z.of_nat d)) / 100).
Proof.
  intros Hd. unfold half_up_2dp. do 3 f_equal.
  rewrite (Qfloor_comp _ ((20000 * Z.of_nat n + Z.of_nat d)
                          # Z.to_pos (2 * Z.of_nat d))).
  - unfold Qfloor. by rewrite Z2Pos.id by lia.
  - unfold percentage.
    assert (¬ inject_Z (Z.of_nat d) == 0)%Q as Hnz.
    { change 0%Q with (inject_Z 0). rewrite inject_Z_injective. lia. }
    rewrite (Qmake_Qdiv (20000 * Z.of_nat n + Z.of_nat d)).
    rewrite Z2Pos.id by lia.
    rewrite inject_Z_plus, !inject_Z_mult.
    change (inject_Z 20000) with 20000%Q. change (inject_Z 2) with 2%Q.
    field. done.
Qed.

(** What the check of one ratio establishes. *)
Lemma binary64_nearest_sound (n d : nat) :
  (0 < d)%nat → Binary64.nearest n d = true →
  ∃ m : Z,
    Binary64.rate n d = Binary64.hundredths m
    ∧ rounds_2dp (percentage n d) (inject_Z m / 100)
    ∧ (Trends.rate n d = Fin (Qred (inject_Z m / 100))
       ∨ (Qabs (inject_Z m / 100 - percentage n d) == 1 # 200)%Q).
Proof.
  intros Hd. unfold Binary64.nearest.
  destruct (Binary64.rounded (Binary64.scaled n d)) as [m|] eqn:Hm; [|done].
  intros [Hnear Hwhich]%andb_true_iff. apply bool_decide_eq_true in Hnear.
  assert (0 < inject_Z (Z.of_nat d))%Q as HD
    by (change 0%Q with (inject_Z 0); rewrite <- Zlt_Qlt; lia).
  destruct (Qabs_scaled _ _ _ HD (percentage_scaled n d m Hd)) as [Hle Heq].
  exists m. split; [|split].
  - unfold Binary64.rate, Binary64.Math_round, Binary64.hundredths.
    by rewrite (proj2 (Nat.ltb_lt 0 d)), Hm.
  - exists m. split; [reflexivity|]. apply Hle. by rewrite <- Zle_Qle.
  - apply orb_true_iff in Hwhich as [Hsame | Htie].
    + left. apply bool_decide_eq_true in Hsame.
      unfold Trends.rate. rewrite (proj2 (Nat.ltb_lt 0 d)) by done.
      rewrite rate_expression_spec by done.
      by rewrite half_up_2dp_percentage, <- Hsame.
    + right. apply bool_decide_eq_true in Htie. apply Heq. by rewrite Htie.
Qed.

Lemma binary64_checked :
  forallb (λ d, forallb (λ n, Binary64.nearest n d) (seq 0 (S d))) (seq 1 160)
  = true.
Proof. by vm_compute. Qed.

(** X22. On doubles, as the source computes, the rate of [n] out of
    [d], for [n] at most [d] and [d] up to 160, is the double that
    denotes a hundredth nearest to the exact percentage; it is the
    hundredth the exact evaluation gives unless the exact percentage is
    half-way between two hundredths. *)
Theorem binary64_rates_round_to_nearest (n d : nat) :
  (0 < d ≤ 160)%nat → (n ≤ d)%nat →
  ∃ m : Z,
    Binary64.rate n d = Binary64.hundredths m
    ∧ rounds_2dp (percentage n d) (inject_Z m / 100)
    ∧ (Trends.rate n d = Fin (Qred (inject_Z m / 100))
       ∨ (Qabs (inject_Z m / 100 - percentage n d) == 1 # 200)%Q).
Proof.
  intros Hd Hn. apply binary64_nearest_sound; [lia|].
  pose proof binary64_checked as Hall.
  rewrite forallb_forall in Hall.
  assert (In d (seq 1 160)) as Hind by (apply in_seq; lia).
  specialize (Hall d Hind). rewrite forallb_forall in Hall.
  apply Hall, in_seq. lia.
Qed.

Lemma binary64_rates_round_to_nearest_witness :
  ∃ m : Z,
    Binary64.rate 23 160 = Binary64.hundredths m
    ∧ rounds_2dp (percentage 23 160) (inject_Z m / 100).
Proof.
  destruct (binary64_rates_round_to_nearest 23 160) as (m & Hrate & Hnear & _);
    [lia | lia |].
  exists m. split; [exact Hrate | exact Hnear].
Defined.
